(** * Four-stage multi-agent debate: scheduler and state machine

    A shallow embedding of the control logic of [graph.py]: the debate
    state, the scheduler [determine_next_node], the fair-rotation selection
    [select_next_questioner_and_target], the context lookup
    [get_rag_context_for_agent], the turn generators, the node functions
    [agent_node] and [handle_stage_transition], and the graph driver that
    runs the nodes until [END].

    The three collaborators the code calls out to are oracles of the
    environment: the random source behind [random.choice], the inference
    chain [pipe.invoke] and the retrieval module
    [rag_module.get_rag_context_for_agent]. *)

From Stdlib Require Import Ascii.
From stdpp Require Import gmap strings list.

(** ** Exceptions *)

(** A Python computation either returns a value or raises; [str(e)] is all
    the code ever reads of an exception. *)
Inductive Exc (A : Type) : Type :=
| Ok (a : A)
| Raise (e : string).
Arguments Ok {A} a.
Arguments Raise {A} e.

Definition is_ok {A} (r : Exc A) : bool :=
  match r with Ok _ => true | Raise _ => false end.

(** ** Strings *)

(** [str.strip()] removes the characters of [str.isspace]: U+0009 to
    U+000D, U+001C to U+0020, U+0085, U+00A0, U+1680, U+2000 to U+200A,
    U+2028, U+2029, U+202F, U+205F and U+3000. A string is the UTF-8
    encoding of the Python [str], so a white space character is one, two
    or three bytes. *)
Definition is_space (c : ascii) : bool :=
  match c with
  | "009" | "010" | "011" | "012" | "013"
  | "028" | "029" | "030" | "031" | " " => true
  | _ => false
  end%char.

(** U+0085 and U+00A0. *)
Definition is_space2 (c d : ascii) : bool :=
  Ascii.eqb c "194" && (Ascii.eqb d "133" || Ascii.eqb d "160").

(** U+1680, U+2000 to U+200A, U+2028, U+2029, U+202F, U+205F, U+3000. *)
Definition is_space3 (c d e : ascii) : bool :=
  (Ascii.eqb c "225" && Ascii.eqb d "154" && Ascii.eqb e "128")
  || (Ascii.eqb c "226" && Ascii.eqb d "128"
      && ((128 <=? nat_of_ascii e) && (nat_of_ascii e <=? 138)
          || Ascii.eqb e "168" || Ascii.eqb e "169" || Ascii.eqb e "175"))
  || (Ascii.eqb c "226" && Ascii.eqb d "129" && Ascii.eqb e "159")
  || (Ascii.eqb c "227" && Ascii.eqb d "128" && Ascii.eqb e "128").

Fixpoint lstrip (s : string) : string :=
  match s with
  | String c s1 =>
      if is_space c then lstrip s1
      else
        match s1 with
        | String d s2 =>
            if is_space2 c d then lstrip s2
            else
              match s2 with
              | String e s3 => if is_space3 c d e then lstrip s3 else s
              | EmptyString => s
              end
        | EmptyString => s
        end
  | EmptyString => s
  end.

(** The string without the white space it ends with: from the right, a
    suffix that is white space throughout is dropped. *)
Fixpoint rstrip (s : string) : string :=
  match s with
  | String c s1 =>
      let kept := String c (rstrip s1) in
      match lstrip kept with
      | EmptyString => EmptyString
      | String _ _ => kept
      end
  | EmptyString => EmptyString
  end.

Definition strip (s : string) : string := rstrip (lstrip s).

Definition startswith (s p : string) : bool := String.prefix p s.

(** ** The participant registry *)

Record RoleInfo := mkRole { name : string; role : string }.

Definition AVAILABLE_ROLES : list (string * RoleInfo) :=
  [ ("environmentalist", mkRole "环保主义者" "环境保护倡导者");
    ("economist", mkRole "经济学家" "市场经济分析专家");
    ("policy_maker", mkRole "政策制定者" "公共政策专家");
    ("tech_expert", mkRole "技术专家" "前沿科技研究者");
    ("sociologist", mkRole "社会学家" "社会影响研究专家");
    ("ethicist", mkRole "伦理学家" "道德哲学研究者") ].

(** [AVAILABLE_ROLES[agent_key]]; [None] stands for the [KeyError]. *)
Fixpoint roles_get (roles : list (string * RoleInfo)) (agent_key : string)
  : option RoleInfo :=
  match roles with
  | [] => None
  | (k, info) :: rest =>
      if decide (k = agent_key) then Some info else roles_get rest agent_key
  end.

Global Arguments roles_get : simpl never.

(** [create_multi_agent_graph] accepts exactly the keys of the registry. *)
Definition known_agent (agent_key : string) : Prop :=
  is_Some (roles_get AVAILABLE_ROLES agent_key).

Global Instance known_agent_dec agent_key : Decision (known_agent agent_key).
Proof. unfold known_agent. apply _. Defined.

(** ** The debate state *)

(** The values [current_stage] takes. *)
Inductive Stage := opening | questioning | free_debate | closing.

Global Instance Stage_eq_dec : EqDecision Stage.
Proof. solve_decision. Defined.

(** What [determine_next_node] returns: the key of a participant's node, the
    name of one of the stage-transition nodes, or [END]. *)
Inductive Node :=
| Agent (agent_key : string)
| Transition (target_stage : Stage)
| END.

Global Instance Node_eq_dec : EqDecision Node.
Proof. solve_decision. Defined.

(** One record of [questions_asked]. *)
Record QA := mkQA {
  questioner : string;
  target : string;
  question : string;
  answer : string
}.

(** [MultiAgentDebateState], the fields the scheduling engine reads or
    writes. [messages] holds the contents of the [AIMessage]s. The
    counters start at [0] and only grow, the round limit is compared with
    a positive round number: all three are naturals. *)
Record State := mkState {
  main_topic : string;
  messages : list string;
  current_stage : Stage;
  stage_progress : nat;
  max_rounds : nat;
  active_agents : list string;
  total_messages : nat;
  rag_enabled : bool;
  max_refs_per_agent : nat;
  max_results_per_source : nat;
  agent_paper_cache : gmap string string;
  first_round_rag_completed : list string;
  questions_asked : list QA;
  current_questioner : string;
  current_target : string;
  waiting_for_answer : bool;
  opening_statements : gmap string string;
  closing_statements : gmap string string
}.

(** The dictionary a node returns as its update: [None] is an absent key.
    Every update of the code has the key ["messages"]. *)
Record Update := mkUpdate {
  u_messages : list string;
  u_total_messages : option nat;
  u_stage_progress : option nat;
  u_current_stage : option Stage;
  u_questions_asked : option (list QA);
  u_current_questioner : option string;
  u_current_target : option string;
  u_waiting_for_answer : option bool;
  u_opening_statements : option (gmap string string);
  u_closing_statements : option (gmap string string);
  u_agent_paper_cache : option (gmap string string);
  u_first_round_rag_completed : option (list string)
}.

(** [{"messages": msgs}] *)
Definition update_messages (msgs : list string) : Update :=
  mkUpdate msgs None None None None None None None None None None None.

(** [{"messages": [AIMessage(content=msg)], "total_messages": ... + 1,
     "stage_progress": ... + 1}], the update of every turn that archives
    nothing. *)
Definition update_counters (state : State) (msg : string) : Update :=
  mkUpdate [msg] (Some (total_messages state + 1))
    (Some (stage_progress state + 1))
    None None None None None None None None None.

Definition overwrite {A} (old : A) (new : option A) : A := default old new.

(** [{**state, **update_data}]: every key of the update replaces the
    state's, ["messages"] included. *)
Definition merge (state : State) (u : Update) : State :=
  {| main_topic := main_topic state;
     messages := u_messages u;
     current_stage := overwrite (current_stage state) (u_current_stage u);
     stage_progress := overwrite (stage_progress state) (u_stage_progress u);
     max_rounds := max_rounds state;
     active_agents := active_agents state;
     total_messages := overwrite (total_messages state) (u_total_messages u);
     rag_enabled := rag_enabled state;
     max_refs_per_agent := max_refs_per_agent state;
     max_results_per_source := max_results_per_source state;
     agent_paper_cache :=
       overwrite (agent_paper_cache state) (u_agent_paper_cache u);
     first_round_rag_completed :=
       overwrite (first_round_rag_completed state)
                 (u_first_round_rag_completed u);
     questions_asked := overwrite (questions_asked state) (u_questions_asked u);
     current_questioner :=
       overwrite (current_questioner state) (u_current_questioner u);
     current_target := overwrite (current_target state) (u_current_target u);
     waiting_for_answer :=
       overwrite (waiting_for_answer state) (u_waiting_for_answer u);
     opening_statements :=
       overwrite (opening_statements state) (u_opening_statements u);
     closing_statements :=
       overwrite (closing_statements state) (u_closing_statements u) |}.

(** How the graph applies a node's update to its state: [MessagesState]
    appends the new messages to the transcript, every other key is
    replaced. *)
Definition commit (state : State) (u : Update) : State :=
  let s := merge state u in
  {| main_topic := main_topic s;
     messages := messages state ++ u_messages u;
     current_stage := current_stage s;
     stage_progress := stage_progress s;
     max_rounds := max_rounds s;
     active_agents := active_agents s;
     total_messages := total_messages s;
     rag_enabled := rag_enabled s;
     max_refs_per_agent := max_refs_per_agent s;
     max_results_per_source := max_results_per_source s;
     agent_paper_cache := agent_paper_cache s;
     first_round_rag_completed := first_round_rag_completed s;
     questions_asked := questions_asked s;
     current_questioner := current_questioner s;
     current_target := current_target s;
     waiting_for_answer := waiting_for_answer s;
     opening_statements := opening_statements s;
     closing_statements := closing_statements s |}.

(** ** The environment *)

(** The collaborators. [rand i] is the [i]-th number the random source
    yields, [llm i] the outcome of the [i]-th [pipe.invoke], and
    [rag agent topic max_sources i] the outcome of the [i]-th call of the
    retrieval module. [deepseek_ready] and [rag_module_ready] say whether
    the two globals were initialised. *)
Record Env := mkEnv {
  rand : nat -> nat;
  llm : nat -> Exc string;
  rag : string -> string -> nat -> nat -> Exc string;
  deepseek_ready : bool;
  rag_module_ready : bool
}.

(** How much of each oracle has been consumed; [rag_calls] lists, oldest
    first, the participants the retrieval module was called for. *)
Record World := mkWorld {
  rand_pos : nat;
  llm_pos : nat;
  rag_calls : list string
}.

Definition world0 : World := mkWorld 0 0 [].

(** ** Dictionaries in insertion order *)

(** [question_count] and [target_count] are iterated with [.items()], so
    the order of their keys matters. *)
Abbreviation Dict := (list (string * nat)).

Fixpoint dict_get (d : Dict) (k : string) : option nat :=
  match d with
  | [] => None
  | (k', v) :: d' => if decide (k' = k) then Some v else dict_get d' k
  end.

(** [d[k] = v]: a present key keeps its position. *)
Fixpoint dict_set (d : Dict) (k : string) (v : nat) : Dict :=
  match d with
  | [] => [(k, v)]
  | (k', v') :: d' =>
      if decide (k' = k) then (k, v) :: d' else (k', v') :: dict_set d' k v
  end.

(** [{agent: 0 for agent in active_agents}] *)
Definition dict_zero (keys : list string) : Dict :=
  foldl (fun d k => dict_set d k 0) [] keys.

(** [d[k] += 1], a [KeyError] when [k] is absent. *)
Definition dict_incr (d : Dict) (k : string) : Exc Dict :=
  match dict_get d k with
  | Some v => Ok (dict_set d k (v + 1))
  | None => Raise k
  end.

(** [min(...)], a [ValueError] on an empty sequence. *)
Definition py_min (l : list nat) : Exc nat :=
  match l with
  | [] => Raise "min() arg is an empty sequence"
  | x :: l' => Ok (foldl Nat.min x l')
  end.

(** ** Fair rotation: [select_next_questioner_and_target] *)

(** The counting loop over [questions_asked]:
    [question_count[qa["questioner"]] += 1; target_count[qa["target"]] += 1]. *)
Fixpoint count_loop (questions_asked : list QA)
    (question_count target_count : Dict) : Exc (Dict * Dict) :=
  match questions_asked with
  | [] => Ok (question_count, target_count)
  | qa :: rest =>
      match dict_incr question_count (questioner qa) with
      | Raise e => Raise e
      | Ok question_count' =>
          match dict_incr target_count (target qa) with
          | Raise e => Raise e
          | Ok target_count' => count_loop rest question_count' target_count'
          end
      end
  end.

(** [[agent for agent, count in question_count.items()
      if count == min_questions]] *)
Definition candidates_questioner (question_count : Dict) (min_questions : nat)
  : list string :=
  (filter (fun item => item.2 = min_questions) question_count).*1.

(** [[agent for agent in active_agents if agent != questioner]] *)
Definition available_targets (active_agents : list string)
    (questioner : string) : list string :=
  filter (fun agent => agent ≠ questioner) active_agents.

(** [target_count[agent]] for a key of the dictionary. *)
Definition count_of (d : Dict) (agent : string) : nat :=
  default 0 (dict_get d agent).

(** [[agent for agent in available_targets
      if target_count[agent] == min_targets]] *)
Definition candidates_target (target_count : Dict)
    (available_targets : list string) (min_targets : nat) : list string :=
  filter (fun agent => count_of target_count agent = min_targets)
         available_targets.

Section Engine.

Variable E : Env.

(** [random.choice(seq)]: one number of the random source picks the
    index; an empty sequence raises [IndexError]. *)
Definition random_choice (seq : list string) (w : World)
  : Exc string * World :=
  match seq !! (rand E (rand_pos w) mod length seq) with
  | Some x => (Ok x, mkWorld (rand_pos w + 1) (llm_pos w) (rag_calls w))
  | None => (Raise "Cannot choose from an empty sequence", w)
  end.

Definition select_next_questioner_and_target (active_agents : list string)
    (questions_asked : list QA) (w : World) : Exc (string * string) * World :=
  match count_loop questions_asked
          (dict_zero active_agents) (dict_zero active_agents) with
  | Raise e => (Raise e, w)
  | Ok (question_count, target_count) =>
      match py_min question_count.*2 with
      | Raise e => (Raise e, w)
      | Ok min_questions =>
          match random_choice
                  (candidates_questioner question_count min_questions) w with
          | (Raise e, w1) => (Raise e, w1)
          | (Ok questioner, w1) =>
              let available := available_targets active_agents questioner in
              match py_min (count_of target_count <$> available) with
              | Raise e => (Raise e, w1)
              | Ok min_targets =>
                  match random_choice
                          (candidates_target target_count available
                                             min_targets) w1 with
                  | (Raise e, w2) => (Raise e, w2)
                  | (Ok target, w2) => (Ok (questioner, target), w2)
                  end
              end
          end
      end
  end.

(** ** The scheduler: [determine_next_node] *)

(** [active_agents[i]] as the next node. *)
Definition agent_at (active_agents : list string) (i : nat) : Exc Node :=
  match active_agents !! i with
  | Some agent_key => Ok (Agent agent_key)
  | None => Raise "list index out of range"
  end.

Definition determine_next_node (state : State) (w : World)
  : Exc Node * World :=
  let stage_progress := stage_progress state in
  let active_agents := active_agents state in
  let max_rounds := max_rounds state in
  match current_stage state with
  | opening =>
      if decide (stage_progress < length active_agents)
      then (agent_at active_agents stage_progress, w)
      else (Ok (Transition questioning), w)
  | questioning =>
      let questions_asked := questions_asked state in
      if waiting_for_answer state then
        let current_target := current_target state in
        if decide (current_target ≠ "" ∧ current_target ∈ active_agents)
        then (Ok (Agent current_target), w)
        else (Ok (Transition free_debate), w)
      else
        if decide (length questions_asked < length active_agents) then
          match select_next_questioner_and_target
                  active_agents questions_asked w with
          | (Ok (questioner, _), w') => (Ok (Agent questioner), w')
          | (Raise e, w') => (Raise e, w')
          end
        else (Ok (Transition free_debate), w)
  | free_debate =>
      if decide (length active_agents = 0)
      then (Raise "integer division or modulo by zero", w)
      else
        let current_round := stage_progress / length active_agents + 1 in
        if decide (current_round ≤ max_rounds)
        then (agent_at active_agents
                       (stage_progress mod length active_agents), w)
        else (Ok (Transition closing), w)
  | closing =>
      if decide (stage_progress < length active_agents)
      then (agent_at active_agents stage_progress, w)
      else (Ok END, w)
  end.

(** ** The context cache: [get_rag_context_for_agent] *)

Definition RAG_DISABLED : string := "当前未启用联网搜索功能。".
Definition RAG_NOT_FOUND : string :=
  "暂未找到直接相关的最新信息，请基于你的专业知识发表观点。".
Definition RAG_FAILED : string :=
  "联网搜索遇到技术问题，请基于你的专业知识发表观点。".
Definition NO_MATERIAL : string := "暂无相关学术资料。".

(** [agent_paper_cache[agent_key] = context] and
    [first_round_rag_completed.append(agent_key)] act on the dictionary and
    the list the state refers to: the state itself changes, whatever the
    caller later puts in its update. *)
Definition cache_context (state : State) (agent_key context : string) : State :=
  {| main_topic := main_topic state;
     messages := messages state;
     current_stage := current_stage state;
     stage_progress := stage_progress state;
     max_rounds := max_rounds state;
     active_agents := active_agents state;
     total_messages := total_messages state;
     rag_enabled := rag_enabled state;
     max_refs_per_agent := max_refs_per_agent state;
     max_results_per_source := max_results_per_source state;
     agent_paper_cache := <[agent_key := context]> (agent_paper_cache state);
     first_round_rag_completed :=
       first_round_rag_completed state ++ [agent_key];
     questions_asked := questions_asked state;
     current_questioner := current_questioner state;
     current_target := current_target state;
     waiting_for_answer := waiting_for_answer state;
     opening_statements := opening_statements state;
     closing_statements := closing_statements state |}.

(** One call of the retrieval module, logged in [rag_calls]. *)
Definition rag_call (agent_key debate_topic : string) (max_sources : nat)
    (w : World) : Exc string * World :=
  (rag E agent_key debate_topic max_sources (length (rag_calls w)),
   mkWorld (rand_pos w) (llm_pos w) (rag_calls w ++ [agent_key])).

(** Returns the context text, and the state after the in-place caching.
    The log line before the [try] reads [AVAILABLE_ROLES[agent_key]]: a
    [KeyError] for a key that is not registered, when retrieval is on.
    Whatever is raised inside the [try] is answered by [RAG_FAILED]. *)
Definition get_rag_context_for_agent (agent_key debate_topic : string)
    (state : State) (w : World) : Exc string * State * World :=
  if negb (rag_enabled state) || negb (rag_module_ready E)
  then (Ok RAG_DISABLED, state, w)
  else
    match roles_get AVAILABLE_ROLES agent_key with
    | None => (Raise agent_key, state, w)
    | Some _ =>
        if decide (current_stage state = opening
                   ∧ agent_key ∉ first_round_rag_completed state)
        then
          match rag_call agent_key debate_topic (max_refs_per_agent state) w
          with
          | (Raise _, w') => (Ok RAG_FAILED, state, w')
          | (Ok context, w') =>
              if decide (context ≠ "" ∧ strip context ≠ NO_MATERIAL)
              then (Ok context, cache_context state agent_key context, w')
              else (Ok RAG_NOT_FOUND, state, w')
          end
        else
          match agent_paper_cache state !! agent_key with
          | Some cached_context => (Ok cached_context, state, w)
          | None => (Ok RAG_NOT_FOUND, state, w)
          end
    end.

(** ** The turn generators *)

(** [get_other_participants]: a [KeyError] when another participant is
    not in the registry. *)
Fixpoint get_other_participants (active_agents : list string)
    (current_agent : string) : Exc (list string) :=
  match active_agents with
  | [] => Ok []
  | agent_key :: rest =>
      if decide (agent_key ≠ current_agent) then
        match roles_get AVAILABLE_ROLES agent_key with
        | None => Raise agent_key
        | Some agent_info =>
            match get_other_participants rest current_agent with
            | Raise e => Raise e
            | Ok others =>
                Ok (("- " +:+ name agent_info +:+ "(" +:+ role agent_info
                     +:+ ")") :: others)
            end
        end
      else get_other_participants rest current_agent
  end.

(** [pipe.invoke({...})]. The prompt the generators assemble
    ([format_opening_statements], [format_qa_summary],
    [format_agent_history]) only feeds this call, whose outcome is the
    oracle's. *)
Definition pipe_invoke (w : World) : Exc string * World :=
  (llm E (llm_pos w), mkWorld (rand_pos w) (llm_pos w + 1) (rag_calls w)).

(** [response.strip()], then the name prefix unless it is there already. *)
Definition format_response (agent_name response : string) : string :=
  let response := strip response in
  if startswith response agent_name then response
  else agent_name +:+ ": " +:+ response.

Definition _generate_opening_statement (state : State) (agent_key : string)
    (w : World) : Exc Update * State * World :=
  match roles_get AVAILABLE_ROLES agent_key with
  | None => (Raise agent_key, state, w)
  | Some agent_info =>
      match get_other_participants (active_agents state) agent_key with
      | Raise e => (Raise e, state, w)
      | Ok _ =>
          let '(rag_context, state1, w1) :=
            get_rag_context_for_agent agent_key (main_topic state) state w in
          match rag_context with
          | Raise e => (Raise e, state1, w1)
          | Ok _ =>
              match pipe_invoke w1 with
              | (Raise e, w2) => (Raise e, state1, w2)
              | (Ok response, w2) =>
                  let response :=
                    format_response (name agent_info) response in
                  let opening_statements :=
                    <[agent_key := response]> (opening_statements state1) in
                  let cached :=
                    bool_decide
                      (agent_key ∈ first_round_rag_completed state1) in
                  (Ok {| u_messages := [response];
                         u_total_messages := Some (total_messages state1 + 1);
                         u_stage_progress := Some (stage_progress state1 + 1);
                         u_current_stage := None;
                         u_questions_asked := None;
                         u_current_questioner := None;
                         u_current_target := None;
                         u_waiting_for_answer := None;
                         u_opening_statements := Some opening_statements;
                         u_closing_statements := None;
                         u_agent_paper_cache :=
                           if cached then Some (agent_paper_cache state1)
                           else None;
                         u_first_round_rag_completed :=
                           if cached
                           then Some (first_round_rag_completed state1)
                           else None |},
                   state1, w2)
              end
          end
      end
  end.

Definition NOT_MY_TURN : string := ": 当前不是我的提问时间。".

Definition _generate_question (state : State) (agent_key : string)
    (w : World) : Exc Update * State * World :=
  match roles_get AVAILABLE_ROLES agent_key with
  | None => (Raise agent_key, state, w)
  | Some agent_info =>
      let questions_asked := questions_asked state in
      match select_next_questioner_and_target
              (active_agents state) questions_asked w with
      | (Raise e, w1) => (Raise e, state, w1)
      | (Ok (questioner, target), w1) =>
          if decide (agent_key ≠ questioner) then
            (Ok (update_counters state (name agent_info +:+ NOT_MY_TURN)),
             state, w1)
          else
            match roles_get AVAILABLE_ROLES target with
            | None => (Raise target, state, w1)
            | Some _ =>
                match get_other_participants (active_agents state)
                                             agent_key with
                | Raise e => (Raise e, state, w1)
                | Ok _ =>
                    let '(rag_context, state1, w2) :=
                      get_rag_context_for_agent agent_key (main_topic state)
                                                state w1 in
                    match rag_context with
                    | Raise e => (Raise e, state1, w2)
                    | Ok _ =>
                        match pipe_invoke w2 with
                        | (Raise e, w3) => (Raise e, state1, w3)
                        | (Ok response, w3) =>
                            let response :=
                              format_response (name agent_info) response in
                            let new_questions :=
                              questions_asked
                                ++ [mkQA agent_key target response ""] in
                            (Ok {| u_messages := [response];
                                   u_total_messages :=
                                     Some (total_messages state1 + 1);
                                   u_stage_progress :=
                                     Some (stage_progress state1 + 1);
                                   u_current_stage := None;
                                   u_questions_asked := Some new_questions;
                                   u_current_questioner := Some agent_key;
                                   u_current_target := Some target;
                                   u_waiting_for_answer := Some true;
                                   u_opening_statements := None;
                                   u_closing_statements := None;
                                   u_agent_paper_cache := None;
                                   u_first_round_rag_completed := None |},
                             state1, w3)
                        end
                    end
                end
            end
      end
  end.

(** [updated_questions[-1]["answer"] = response] *)
Definition set_last_answer (questions_asked : list QA) (response : string)
  : list QA :=
  match reverse questions_asked with
  | [] => []
  | qa :: before =>
      reverse before
        ++ [mkQA (questioner qa) (target qa) (question qa) response]
  end.

Definition NO_QUESTION : string := ": 没有找到需要回答的问题。".

Definition _generate_answer (state : State) (agent_key : string)
    (w : World) : Exc Update * State * World :=
  match roles_get AVAILABLE_ROLES agent_key with
  | None => (Raise agent_key, state, w)
  | Some agent_info =>
      let questions_asked := questions_asked state in
      match last questions_asked with
      | None =>
          (Ok (update_counters state (name agent_info +:+ NO_QUESTION)),
           state, w)
      | Some latest_question =>
          match roles_get AVAILABLE_ROLES (questioner latest_question) with
          | None => (Raise (questioner latest_question), state, w)
          | Some _ =>
              match get_other_participants (active_agents state)
                                           agent_key with
              | Raise e => (Raise e, state, w)
              | Ok _ =>
                  let '(rag_context, state1, w1) :=
                    get_rag_context_for_agent agent_key (main_topic state)
                                              state w in
                  match rag_context with
                  | Raise e => (Raise e, state1, w1)
                  | Ok _ =>
                      match pipe_invoke w1 with
                      | (Raise e, w2) => (Raise e, state1, w2)
                      | (Ok response, w2) =>
                          let response :=
                            format_response (name agent_info) response in
                          (Ok {| u_messages := [response];
                                 u_total_messages :=
                                   Some (total_messages state1 + 1);
                                 u_stage_progress :=
                                   Some (stage_progress state1 + 1);
                                 u_current_stage := None;
                                 u_questions_asked :=
                                   Some (set_last_answer questions_asked
                                                         response);
                                 u_current_questioner := Some "";
                                 u_current_target := Some "";
                                 u_waiting_for_answer := Some false;
                                 u_opening_statements := None;
                                 u_closing_statements := None;
                                 u_agent_paper_cache := None;
                                 u_first_round_rag_completed := None |},
                           state1, w2)
                      end
                  end
              end
          end
      end
  end.

Definition _generate_free_debate_response (state : State)
    (agent_key : string) (w : World) : Exc Update * State * World :=
  match roles_get AVAILABLE_ROLES agent_key with
  | None => (Raise agent_key, state, w)
  | Some agent_info =>
      if decide (length (active_agents state) = 0)
      then (Raise "integer division or modulo by zero", state, w)
      else
        match get_other_participants (active_agents state) agent_key with
        | Raise e => (Raise e, state, w)
        | Ok _ =>
            let '(rag_context, state1, w1) :=
              get_rag_context_for_agent agent_key (main_topic state)
                                        state w in
            match rag_context with
            | Raise e => (Raise e, state1, w1)
            | Ok _ =>
                match pipe_invoke w1 with
                | (Raise e, w2) => (Raise e, state1, w2)
                | (Ok response, w2) =>
                    (Ok (update_counters state1
                           (format_response (name agent_info) response)),
                     state1, w2)
                end
            end
        end
  end.

Definition _generate_closing_statement (state : State) (agent_key : string)
    (w : World) : Exc Update * State * World :=
  match roles_get AVAILABLE_ROLES agent_key with
  | None => (Raise agent_key, state, w)
  | Some agent_info =>
      let '(rag_context, state1, w1) :=
        get_rag_context_for_agent agent_key (main_topic state) state w in
      match rag_context with
      | Raise e => (Raise e, state1, w1)
      | Ok _ =>
          match get_other_participants (active_agents state) agent_key with
          | Raise e => (Raise e, state1, w1)
          | Ok _ =>
              match pipe_invoke w1 with
              | (Raise e, w2) => (Raise e, state1, w2)
              | (Ok response, w2) =>
                  let response :=
                    format_response (name agent_info) response in
                  let closing_statements :=
                    <[agent_key := response]> (closing_statements state1) in
                  (Ok {| u_messages := [response];
                         u_total_messages := Some (total_messages state1 + 1);
                         u_stage_progress := Some (stage_progress state1 + 1);
                         u_current_stage := None;
                         u_questions_asked := None;
                         u_current_questioner := None;
                         u_current_target := None;
                         u_waiting_for_answer := None;
                         u_opening_statements := None;
                         u_closing_statements := Some closing_statements;
                         u_agent_paper_cache := None;
                         u_first_round_rag_completed := None |},
                   state1, w2)
              end
          end
      end
  end.

Definition MODEL_NOT_READY : string := ": 抱歉，AI模型未正确初始化。".
Definition CANNOT_SPEAK : string := ": 抱歉，我现在无法发言。技术问题：".

(** The apology of the [except] branch; looking the name up can itself
    raise the [KeyError] again. *)
Definition apology (state : State) (agent_key text : string) : Exc Update :=
  match roles_get AVAILABLE_ROLES agent_key with
  | None => Raise agent_key
  | Some agent_info => Ok (update_counters state (name agent_info +:+ text))
  end.

Definition _generate_agent_response (state : State) (agent_key : string)
    (w : World) : Exc Update * State * World :=
  if negb (deepseek_ready E)
  then (apology state agent_key MODEL_NOT_READY, state, w)
  else
    let '(result, state1, w1) :=
      match current_stage state with
      | opening => _generate_opening_statement state agent_key w
      | questioning =>
          if waiting_for_answer state
             && bool_decide (current_target state = agent_key)
          then _generate_answer state agent_key w
          else _generate_question state agent_key w
      | free_debate => _generate_free_debate_response state agent_key w
      | closing => _generate_closing_statement state agent_key w
      end in
    match result with
    | Ok update_data => (Ok update_data, state1, w1)
    | Raise e => (apology state agent_key (CANNOT_SPEAK +:+ e), state1, w1)
    end.

(** ** The nodes of the graph *)

(** [Command(update=..., goto=...)] *)
Record Command := mkCommand { update : Update; goto : Node }.

(** [stage_messages.get(target_stage, ...)] *)
Definition stage_message (target_stage : Stage) : string :=
  match target_stage with
  | questioning => "📝 现在进入提问回答阶段，每位专家将有机会向其他专家提问。"
  | free_debate => "🎯 现在进入自由辩论阶段，各位专家可以就争议观点展开深入讨论。"
  | closing => "🏁 现在进入结辩综述阶段，各位专家请发表总结陈词。"
  | opening => "转换到opening阶段"
  end.

Definition transition_update (target_stage : Stage) : Update :=
  let entering := bool_decide (target_stage = questioning) in
  {| u_messages := [stage_message target_stage];
     u_total_messages := None;
     u_stage_progress := Some 0;
     u_current_stage := Some target_stage;
     u_questions_asked := if entering then Some [] else None;
     u_current_questioner := if entering then Some "" else None;
     u_current_target := if entering then Some "" else None;
     u_waiting_for_answer := if entering then Some false else None;
     u_opening_statements := None;
     u_closing_statements := None;
     u_agent_paper_cache := None;
     u_first_round_rag_completed := None |}.

Definition handle_stage_transition (state : State) (target_stage : Stage)
    (w : World) : Command * World :=
  let update_data := transition_update target_stage in
  match determine_next_node (merge state update_data) w with
  | (Ok next_node, w') => (mkCommand update_data next_node, w')
  | (Raise _, w') => (mkCommand (update_messages []) END, w')
  end.

(** [next_node in ["questioning", "free_debate", "closing"]] *)
Definition is_stage_node (next_node : Node) : option Stage :=
  match next_node with
  | Transition questioning => Some questioning
  | Transition free_debate => Some free_debate
  | Transition closing => Some closing
  | _ => None
  end.

(** The update of the outermost [except] of a node. *)
Definition safe_update (state : State) (agent_key : string) : Update :=
  update_counters state ("系统错误：" +:+ agent_key +:+ " 无法处理").

Definition TECHNICAL_PROBLEM : string := ": 抱歉，技术问题导致无法发言。".

(** The node function [create_agent_node_function(agent_key)] builds. It
    returns its command and the state as the in-place caching left it.
    [_generate_agent_response] raises only the [KeyError] of an unknown
    [agent_key], which the inner handler raises again when it looks the
    name up, so that case ends in the outermost handler; and its updates
    always carry their messages, so the check for an invalid update never
    fires. *)
Definition agent_node (agent_key : string) (state : State) (w : World)
  : Command * State * World :=
  match determine_next_node state w with
  | (Raise _, w1) => (mkCommand (safe_update state agent_key) END, state, w1)
  | (Ok next_node, w1) =>
      match is_stage_node next_node with
      | Some target_stage =>
          let '(cmd, w2) := handle_stage_transition state target_stage w1 in
          (cmd, state, w2)
      | None =>
          if decide (next_node = END)
          then (mkCommand (update_messages []) END, state, w1)
          else if decide (next_node ≠ Agent agent_key)
          then (mkCommand (update_messages []) next_node, state, w1)
          else
            match _generate_agent_response state agent_key w1 with
            | (Raise _, state1, w2) =>
                (mkCommand (safe_update state agent_key) END, state1, w2)
            | (Ok update_data, state1, w2) =>
                match determine_next_node (merge state1 update_data) w2 with
                | (Ok next_node', w3) =>
                    (mkCommand update_data next_node', state1, w3)
                | (Raise _, w3) =>
                    match apology state agent_key TECHNICAL_PROBLEM with
                    | Ok error_update =>
                        (mkCommand error_update END, state1, w3)
                    | Raise _ =>
                        (mkCommand (safe_update state agent_key) END,
                         state1, w3)
                    end
                end
            end
      end
  end.

(** ** The graph and its driver *)

(** One item of the update stream: the node that ran, the stage it ran
    in, and the update it returned. *)
Record Event := mkEvent {
  ev_node : Node;
  ev_stage : Stage;
  ev_update : Update
}.

(** The node to run next, the state, the oracles' positions and the
    stream produced so far. *)
Record Config := mkConfig {
  node : Node;
  cstate : State;
  world : World;
  trace : list Event
}.

(** One superstep: run the current node, apply its update, follow its
    [goto]. [graph] lists the participants that have a node; the three
    transition nodes are always there. [None] when there is no such node
    to run. *)
Definition step (graph : list string) (c : Config) : option Config :=
  match node c with
  | Agent agent_key =>
      if decide (agent_key ∈ graph) then
        let '(cmd, state1, w1) := agent_node agent_key (cstate c) (world c) in
        Some (mkConfig (goto cmd) (commit state1 (update cmd)) w1
                (trace c ++ [mkEvent (node c) (current_stage (cstate c))
                                     (update cmd)]))
      else None
  | Transition target_stage =>
      match is_stage_node (node c) with
      | Some _ =>
          let '(cmd, w1) :=
            handle_stage_transition (cstate c) target_stage (world c) in
          Some (mkConfig (goto cmd) (commit (cstate c) (update cmd)) w1
                  (trace c ++ [mkEvent (node c) (current_stage (cstate c))
                                       (update cmd)]))
      | None => None
      end
  | END => None
  end.

Inductive Outcome :=
| Finished (c : Config)
| RecursionLimit (c : Config)
| NoSuchNode (c : Config).

(** [graph.stream(inputs, {"recursion_limit": n})]: supersteps until [END],
    at most [n] of them. The limit is checked before the driver looks for
    the next node, so a run of [k] supersteps ends normally only under a
    limit above [k]; a run cut by the limit has made [n] supersteps. *)
Fixpoint run (graph : list string) (recursion_limit : nat) (c : Config)
  : Outcome :=
  match recursion_limit with
  | 0 => RecursionLimit c
  | S n =>
      match node c with
      | END => Finished c
      | _ =>
          match step graph c with
          | Some c' => run graph n c'
          | None => NoSuchNode c
          end
      end
  end.

End Engine.

(** [create_multi_agent_graph]: the participants that get a node, or the
    [ValueError]. A key given twice is refused when its node is added a
    second time. *)
Definition create_multi_agent_graph (active_agents : list string)
  : Exc (list string) :=
  if decide (length active_agents < 3) then Raise "至少需要3个Agent参与辩论"
  else if decide (6 < length active_agents) then Raise "最多支持6个Agent参与辩论"
  else
    match list_find (fun agent_key => ¬ known_agent agent_key)
                    active_agents with
    | Some (_, agent_key) => Raise ("未知的Agent: " +:+ agent_key)
    | None =>
        if decide (NoDup active_agents) then Ok active_agents
        else Raise "Node already present"
    end.

(** The [inputs] dictionary of [generate_response] and of
    [test_four_stage_multi_agent_debate]. *)
Definition inputs (topic : string) (rounds : nat) (agents : list string)
    (enable_rag : bool) (max_refs : nat) : State :=
  {| main_topic := topic;
     messages := [];
     current_stage := opening;
     stage_progress := 0;
     max_rounds := rounds;
     active_agents := agents;
     total_messages := 0;
     rag_enabled := enable_rag;
     max_refs_per_agent := max_refs;
     max_results_per_source := 2;
     agent_paper_cache := ∅;
     first_round_rag_completed := [];
     questions_asked := [];
     current_questioner := "";
     current_target := "";
     waiting_for_answer := false;
     opening_statements := ∅;
     closing_statements := ∅ |}.

(** The edge [START -> active_agents[0]] of the graph built for [graph];
    the builder has refused the empty list. *)
Definition start (graph : list string) (state : State) : Config :=
  mkConfig (match graph with
            | first_agent :: _ => Agent first_agent
            | [] => END
            end)
           state world0 [].

(** ** Reading the update stream *)

(** A transition announcement. *)
Definition is_transition (ev : Event) : bool :=
  bool_decide (u_current_stage (ev_update ev) ≠ None).

(** A turn spoken by a participant: a participant's node returned a
    message that is not a transition announcement. *)
Definition is_spoken (ev : Event) : bool :=
  match ev_node ev with
  | Agent _ =>
      bool_decide (u_messages (ev_update ev) ≠ [])
      && negb (is_transition ev)
  | _ => false
  end.

(** A questioning-stage turn that is neither a question nor an answer: it
    leaves [questions_asked] alone. *)
Definition is_wasted (ev : Event) : bool :=
  is_spoken ev
  && bool_decide (ev_stage ev = questioning)
  && bool_decide (u_questions_asked (ev_update ev) = None).

Definition spoken_in (st : Stage) (ev : Event) : bool :=
  is_spoken ev && bool_decide (ev_stage ev = st).

Definition count (f : Event -> bool) (tr : list Event) : nat :=
  length (filter (fun ev => f ev = true) tr).

(** * Vocabulary of the properties *)

(** The dictionary that maps every key of [keys], in order, to [f key]. *)
Definition dict_of (f : string -> nat) (keys : list string) : Dict :=
  (fun k => (k, f k)) <$> keys.

(** [f] with the count of [k] raised by one. *)
Definition bump (f : string -> nat) (k : string) : string -> nat :=
  fun k' => if decide (k = k') then f k' + 1 else f k'.

(** How many records of the ledger name [a] as questioner, as target. *)
Definition authored (qs : list QA) (a : string) : nat :=
  length (filter (fun qa => questioner qa = a) qs).

Definition received (qs : list QA) (a : string) : nat :=
  length (filter (fun qa => target qa = a) qs).

(** Every record of the ledger is between two participants. *)
Definition ledger_ok (agents : list string) (qs : list QA) : Prop :=
  forall qa, qa ∈ qs -> questioner qa ∈ agents ∧ target qa ∈ agents.

(** [a] is a participant with the fewest questions asked. *)
Definition min_authored (agents : list string) (qs : list QA) (a : string)
  : Prop :=
  a ∈ agents ∧ forall b, b ∈ agents -> authored qs a ≤ authored qs b.

(** [a] is, [q] set aside, a participant with the fewest questions
    received. *)
Definition min_received (agents : list string) (qs : list QA)
    (q a : string) : Prop :=
  (a ∈ agents ∧ a ≠ q)
  ∧ forall b, b ∈ agents -> b ≠ q -> received qs a ≤ received qs b.

(** The participants with the fewest questions asked, in the order of the
    list; and, [q] set aside, those with the fewest questions received.
    Both lists are fixed by the participants and the ledger: no random
    number enters them. *)
Definition questioner_candidates (agents : list string) (qs : list QA)
  : list string :=
  filter (fun a => Forall (fun b => authored qs a ≤ authored qs b) agents)
         agents.

Definition target_candidates (agents : list string) (qs : list QA)
    (q : string) : list string :=
  filter (fun a => a ≠ q
                   ∧ Forall (fun b => b ≠ q -> received qs a ≤ received qs b)
                            agents)
         agents.

Definition drawn (w : World) (n : nat) : World :=
  mkWorld (rand_pos w + n) (llm_pos w) (rag_calls w).

(** ** The scheduling rule as the specification words it *)

(** The per-stage indexing rule outside the questioning stage: whom the
    stage's progress counter designates. [None] where the rule names an
    index the list does not have. *)
Definition next_actor_rule (state : State) : option Node :=
  let agents := active_agents state in
  let N := length agents in
  let k := stage_progress state in
  match current_stage state with
  | opening =>
      if decide (k < N) then Agent <$> agents !! k
      else Some (Transition questioning)
  | free_debate =>
      let round := k / N + 1 in
      if decide (round ≤ max_rounds state) then Agent <$> agents !! (k mod N)
      else Some (Transition closing)
  | closing =>
      if decide (k < N) then Agent <$> agents !! k else Some END
  | questioning => None
  end.

Definition logged (w : World) (agent_key : string) : World :=
  mkWorld (rand_pos w) (llm_pos w) (rag_calls w ++ [agent_key]).

(** The retrieval module found nothing: an empty text or the "no
    material" sentinel. *)
Definition found_nothing (context : string) : Prop :=
  context = "" ∨ strip context = NO_MATERIAL.

(** ** Runs *)

(** A configuration the graph builder accepts, with at least one round of
    free debate. *)
Definition valid_config (agents : list string) (rounds : nat) : Prop :=
  create_multi_agent_graph agents = Ok agents ∧ 1 ≤ rounds.

(** The configurations a run from the initial state [s0] goes through. *)
Inductive reachable (E : Env) (graph : list string) (s0 : State)
  : Config -> Prop :=
| reach_start : reachable E graph s0 (start graph s0)
| reach_step c c' :
    reachable E graph s0 c -> step E graph c = Some c' ->
    reachable E graph s0 c'.

Definition finished (o : Outcome) : option Config :=
  match o with Finished c => Some c | _ => None end.

(** ** The updates of the successful turns *)

Definition opening_update (state : State) (agent_key response : string)
    (cached : bool) : Update :=
  {| u_messages := [response];
     u_total_messages := Some (total_messages state + 1);
     u_stage_progress := Some (stage_progress state + 1);
     u_current_stage := None;
     u_questions_asked := None;
     u_current_questioner := None;
     u_current_target := None;
     u_waiting_for_answer := None;
     u_opening_statements :=
       Some (<[agent_key := response]> (opening_statements state));
     u_closing_statements := None;
     u_agent_paper_cache :=
       if cached then Some (agent_paper_cache state) else None;
     u_first_round_rag_completed :=
       if cached then Some (first_round_rag_completed state) else None |}.

Definition question_update (state : State) (agent_key target response : string)
  : Update :=
  {| u_messages := [response];
     u_total_messages := Some (total_messages state + 1);
     u_stage_progress := Some (stage_progress state + 1);
     u_current_stage := None;
     u_questions_asked :=
       Some (questions_asked state ++ [mkQA agent_key target response ""]);
     u_current_questioner := Some agent_key;
     u_current_target := Some target;
     u_waiting_for_answer := Some true;
     u_opening_statements := None;
     u_closing_statements := None;
     u_agent_paper_cache := None;
     u_first_round_rag_completed := None |}.

Definition answer_update (state : State) (response : string) : Update :=
  {| u_messages := [response];
     u_total_messages := Some (total_messages state + 1);
     u_stage_progress := Some (stage_progress state + 1);
     u_current_stage := None;
     u_questions_asked :=
       Some (set_last_answer (questions_asked state) response);
     u_current_questioner := Some "";
     u_current_target := Some "";
     u_waiting_for_answer := Some false;
     u_opening_statements := None;
     u_closing_statements := None;
     u_agent_paper_cache := None;
     u_first_round_rag_completed := None |}.

Definition closing_update (state : State) (agent_key response : string)
  : Update :=
  {| u_messages := [response];
     u_total_messages := Some (total_messages state + 1);
     u_stage_progress := Some (stage_progress state + 1);
     u_current_stage := None;
     u_questions_asked := None;
     u_current_questioner := None;
     u_current_target := None;
     u_waiting_for_answer := None;
     u_opening_statements := None;
     u_closing_statements :=
       Some (<[agent_key := response]> (closing_statements state));
     u_agent_paper_cache := None;
     u_first_round_rag_completed := None |}.

(** The turn that makes call number [i] of the inference chain gets its
    text: the chain is there, and the call returns. *)
Definition inference_succeeds (E : Env) (i : nat) : Prop :=
  deepseek_ready E = true ∧ is_ok (llm E i) = true.

(** The text the inference chain gives the turn that makes call number
    [i], if it gives one. *)
Definition inferred (E : Env) (i : nat) : option string :=
  if deepseek_ready E
  then match llm E i with Ok r => Some r | Raise _ => None end
  else None.

(** The inference chain is there and answers at least once. *)
Definition can_infer (E : Env) : Prop :=
  deepseek_ready E = true ∧ exists i response, llm E i = Ok response.

(** The inference chain is there and answers every call. *)
Definition always_infers (E : Env) : Prop :=
  deepseek_ready E = true ∧ forall i, is_ok (llm E i) = true.

(** The stages whose turns archive a statement. *)
Definition statement_stage (s : Stage) : Prop := s = opening ∨ s = closing.

(** The updates a participant's turn can return in [state]: the counters
    alone (an apology, the "not my question time" message, a free-debate
    reply), or one of the four archiving updates. In opening and closing
    the counters come alone only when the inference chain failed. *)
Inductive turn (E : Env) (state : State) (agent_key : string)
  : Update -> Prop :=
| turn_plain msg :
    (statement_stage (current_stage state) -> ¬ always_infers E) ->
    turn E state agent_key (update_counters state msg)
| turn_opening response cached :
    current_stage state = opening -> can_infer E ->
    turn E state agent_key (opening_update state agent_key response cached)
| turn_question target response :
    current_stage state = questioning ->
    waiting_for_answer state = false ∨ current_target state ≠ agent_key ->
    min_authored (active_agents state) (questions_asked state) agent_key ->
    target ∈ active_agents state -> can_infer E ->
    turn E state agent_key (question_update state agent_key target response)
| turn_answer response :
    current_stage state = questioning ->
    waiting_for_answer state = true -> current_target state = agent_key ->
    questions_asked state ≠ [] -> can_infer E ->
    turn E state agent_key (answer_update state response)
| turn_closing response :
    current_stage state = closing -> can_infer E ->
    turn E state agent_key (closing_update state agent_key response).

(** What a context lookup for [agent_key] does to the state and to the
    log of retrieval calls. *)
Definition cache_step (state : State) (agent_key : string) (state' : State)
  : Prop :=
  state' = state
  ∨ (current_stage state = opening
     ∧ (agent_key ∉ first_round_rag_completed state)
     ∧ exists context, state' = cache_context state agent_key context).

Definition rag_step (state : State) (agent_key : string) (w w' : World)
  : Prop :=
  rag_calls w' = rag_calls w
  ∨ (current_stage state = opening
     ∧ (agent_key ∉ first_round_rag_completed state)
     ∧ rag_calls w' = rag_calls w ++ [agent_key]).

(** ** The invariant of a run *)

(** A spoken turn that archives no statement. *)
Definition no_statement (ev : Event) : bool :=
  is_spoken ev
  && bool_decide (u_opening_statements (ev_update ev) = None)
  && bool_decide (u_closing_statements (ev_update ev) = None).

(** The stream has a spoken turn of participant [a] in stage [st] whose
    update archives no statement. *)
Definition failed_statement (st : Stage) (tr : list Event) (a : string)
  : Prop :=
  exists ev, ev ∈ tr ∧ ev_node ev = Agent a ∧ ev_stage ev = st
             ∧ no_statement ev = true.

(** The participants whose opening turn, closing turn, is over. *)
Definition opened (state : State) : list string :=
  if decide (current_stage state = opening)
  then take (stage_progress state) (active_agents state)
  else active_agents state.

Definition closed (state : State) : list string :=
  if decide (current_stage state = closing)
  then take (stage_progress state) (active_agents state)
  else [].

(** The archive holds a statement for exactly the participants whose turn
    is over and did not fail. *)
Definition statements_inv (stmts : gmap string string) (over : list string)
    (failed : string -> Prop) : Prop :=
  (forall a, is_Some (stmts !! a) <-> a ∈ over ∧ ¬ failed a)
  ∧ (forall a, failed a -> a ∈ over).

(** The target of a pending answer is usable. *)
Definition target_ok (state : State) : Prop :=
  current_target state ≠ "" ∧ current_target state ∈ active_agents state.

(** What the scheduler returns in the questioning stage. *)
Definition questioning_next (state : State) (next : Node) : Prop :=
  if waiting_for_answer state then
    if decide (target_ok state) then next = Agent (current_target state)
    else next = Transition free_debate
  else
    if decide (length (questions_asked state) < length (active_agents state))
    then exists q, next = Agent q
                   ∧ min_authored (active_agents state)
                                  (questions_asked state) q
    else next = Transition free_debate.

(** The counters of each stage, in terms of the stream so far: [N]
    participants, [R] rounds. *)
Definition stage_inv (N R : nat) (c : Config) : Prop :=
  let st := cstate c in
  let p := stage_progress st in
  let qs := questions_asked st in
  let spoken := count is_spoken (trace c) in
  let wasted := count is_wasted (trace c) in
  let transitions := count is_transition (trace c) in
  match current_stage st with
  | opening =>
      transitions = 0 ∧ wasted = 0 ∧ spoken = p ∧ p ≤ N ∧ qs = []
      ∧ next_actor_rule st = Some (node c)
  | questioning =>
      transitions = 1 ∧ spoken = N + p
      ∧ p + (if waiting_for_answer st then 1 else 0) = 2 * length qs + wasted
      ∧ (waiting_for_answer st = true -> target_ok st ∧ qs ≠ [])
      ∧ questioning_next st (node c)
  | free_debate =>
      transitions = 2 ∧ spoken = 3 * N + wasted + p ∧ p ≤ N * R
      ∧ length qs = N ∧ next_actor_rule st = Some (node c)
  | closing =>
      transitions = 3 ∧ spoken = 3 * N + wasted + N * R + p ∧ p ≤ N
      ∧ length qs = N ∧ next_actor_rule st = Some (node c)
  end.

(** The turns each stage has had spoken, in terms of the stream so far. *)
Definition stage_counts (N R : nat) (c : Config) : Prop :=
  let st := cstate c in
  let p := stage_progress st in
  let said s := count (spoken_in s) (trace c) in
  let wasted := count is_wasted (trace c) in
  match current_stage st with
  | opening =>
      said opening = p ∧ said questioning = 0
      ∧ said free_debate = 0 ∧ said closing = 0
  | questioning =>
      said opening = N ∧ said questioning = p
      ∧ said free_debate = 0 ∧ said closing = 0
  | free_debate =>
      said opening = N ∧ said questioning = 2 * N + wasted
      ∧ said free_debate = p ∧ said closing = 0
  | closing =>
      said opening = N ∧ said questioning = 2 * N + wasted
      ∧ said free_debate = N * R ∧ said closing = p
  end.

Record Inv (agents : list string) (R : nat) (c : Config) : Prop := {
  inv_agents : active_agents (cstate c) = agents;
  inv_rounds : max_rounds (cstate c) = R;
  inv_total : total_messages (cstate c) = count is_spoken (trace c);
  inv_ledger : ledger_ok agents (questions_asked (cstate c));
  inv_questioners : NoDup (questioner <$> questions_asked (cstate c));
  inv_length : length (questions_asked (cstate c)) ≤ length agents;
  inv_cached :
    forall a, a ∈ first_round_rag_completed (cstate c) ->
              is_Some (agent_paper_cache (cstate c) !! a);
  inv_calls_nodup : NoDup (rag_calls (world c));
  inv_calls :
    forall a, a ∈ rag_calls (world c) -> a ∈ opened (cstate c);
  inv_opening :
    statements_inv (opening_statements (cstate c)) (opened (cstate c))
                   (failed_statement opening (trace c));
  inv_closing :
    statements_inv (closing_statements (cstate c)) (closed (cstate c))
                   (failed_statement closing (trace c));
  inv_stage : stage_inv (length agents) R c;
  inv_counts : stage_counts (length agents) R c
}.

(** What the scheduler returns in [state], stage by stage. *)
Definition scheduled (state : State) (next : Node) : Prop :=
  match current_stage state with
  | questioning => questioning_next state next
  | _ => next_actor_rule state = Some next
  end.

(** The two things the node of participant [a] does in a run: it hands
    over to the questioner the scheduler just drew, without a message, or
    it speaks its turn and hands over to whom the scheduler names next. *)
Inductive agent_step (E : Env) (c : Config) (a : string) : Config -> Prop :=
| step_hop q w1 :
    current_stage (cstate c) = questioning ->
    waiting_for_answer (cstate c) = false ->
    length (questions_asked (cstate c)) < length (active_agents (cstate c)) ->
    min_authored (active_agents (cstate c)) (questions_asked (cstate c)) q ->
    rag_calls w1 = rag_calls (world c) ->
    agent_step E c a
      (mkConfig (Agent q) (commit (cstate c) (update_messages [])) w1
         (trace c ++ [mkEvent (Agent a) (current_stage (cstate c))
                              (update_messages [])]))
| step_turn u st' w2 next w3 :
    cache_step (cstate c) a st' ->
    rag_step (cstate c) a (world c) w2 ->
    turn E st' a u ->
    scheduled (merge st' u) next ->
    rag_calls w3 = rag_calls w2 ->
    agent_step E c a
      (mkConfig next (commit st' u) w3
         (trace c ++ [mkEvent (Agent a) (current_stage (cstate c)) u])).

(** [n] supersteps of the graph. *)
Fixpoint steps (E : Env) (graph : list string) (n : nat) (c : Config)
  : option Config :=
  match n with
  | 0 => Some c
  | S n' =>
      match step E graph c with
      | Some c' => steps E graph n' c'
      | None => None
      end
  end.

(** ** Concrete debates *)

(** The participants of [test_four_stage_multi_agent_debate]. *)
Definition three_agents : list string :=
  ["tech_expert"; "sociologist"; "ethicist"].

Definition debate_3_2 : State := inputs "AI" 2 three_agents true 3.

(** Collaborators that always answer; the random source always yields
    [0]. *)
Definition env_steady : Env :=
  mkEnv (fun _ => 0) (fun _ => Ok "...") (fun _ _ _ _ => Ok "参考资料 1")
        true true.

(** As [env_steady], but the fifth number of the random source is [1]. *)
Definition env_mismatch : Env :=
  mkEnv (fun i => if decide (i = 4) then 1 else 0) (fun _ => Ok "...")
        (fun _ _ _ _ => Ok "参考资料 1") true true.

(** As [env_steady], but every call of the inference chain raises. *)
Definition env_no_inference : Env :=
  mkEnv (fun _ => 0) (fun _ => Raise "timeout")
        (fun _ _ _ _ => Ok "参考资料 1") true true.

(** As [env_steady], but the first call of the inference chain raises. *)
Definition env_first_fails : Env :=
  mkEnv (fun _ => 0)
        (fun i => if decide (i = 0) then Raise "timeout" else Ok "...")
        (fun _ _ _ _ => Ok "参考资料 1") true true.

(** As [env_steady], but the retrieval module finds nothing. *)
Definition env_nothing_found : Env :=
  mkEnv (fun _ => 0) (fun _ => Ok "...") (fun _ _ _ _ => Ok NO_MATERIAL)
        true true.

(** A state of the questioning stage in which the answer of
    ["sociologist"] is pending. *)
Definition pending_state : State :=
  let s := commit debate_3_2 (transition_update questioning) in
  commit s (question_update s "tech_expert" "sociologist" "技术专家: ?").

(** A state of the free-debate stage. *)
Definition free_debate_state : State :=
  commit debate_3_2 (transition_update free_debate).

(** How often the retrieval module was called for participant [a]. *)
Definition retrievals (w : World) (a : string) : nat :=
  length (filter (fun b => b = a) (rag_calls w)).

(** The questioning stage of [debate_3_2] before its first question. *)
Definition questioning_state : State :=
  commit debate_3_2 (transition_update questioning).

(** The outcome of a generator: how it left the cache and the call log;
    if it returned, a turn of the state it left; if it raised in opening or
    closing, the inference chain failed. *)
Definition generated (E : Env) (st : State) (a : string) (w : World)
    (res : Exc Update * State * World) : Prop :=
  cache_step st a res.1.2 ∧ rag_step st a w res.2
  ∧ match res.1.1 with
    | Ok u => turn E res.1.2 a u
    | Raise _ => statement_stage (current_stage st) -> ¬ always_infers E
    end.

(** * More of the code: vocabulary *)

From stdpp Require pretty.

(** ** Supersteps, as the functions compute them *)

(** The three supersteps of a run: a transition node announces its stage;
    the node of a participant the scheduler did not draw hands over
    without a message; the node of the scheduled participant speaks. Each
    is given with the calls that produce it. *)
Inductive exact_step (E : Env) (c c' : Config) : Prop :=
| exact_transition t next w1 :
    node c = Transition t ->
    determine_next_node E (merge (cstate c) (transition_update t)) (world c)
    = (Ok next, w1) ->
    c' = mkConfig next (commit (cstate c) (transition_update t)) w1
           (trace c ++ [mkEvent (Transition t) (current_stage (cstate c))
                                (transition_update t)]) ->
    exact_step E c c'
| exact_hop a q w1 :
    node c = Agent a ->
    determine_next_node E (cstate c) (world c) = (Ok (Agent q), w1) ->
    q ≠ a ->
    current_stage (cstate c) = questioning ->
    waiting_for_answer (cstate c) = false ->
    c' = mkConfig (Agent q) (commit (cstate c) (update_messages [])) w1
           (trace c ++ [mkEvent (Agent a) (current_stage (cstate c))
                                (update_messages [])]) ->
    exact_step E c c'
| exact_turn a w1 u st' w2 next w3 :
    node c = Agent a ->
    determine_next_node E (cstate c) (world c) = (Ok (Agent a), w1) ->
    _generate_agent_response E (cstate c) a w1 = (Ok u, st', w2) ->
    determine_next_node E (merge st' u) w2 = (Ok next, w3) ->
    c' = mkConfig next (commit st' u) w3
           (trace c ++ [mkEvent (Agent a) (current_stage (cstate c)) u]) ->
    exact_step E c c'.

(** ** Turns, with what they say *)

(** The update [_generate_agent_response] returns when the node of
    participant [a], entered with the oracles at [w], speaks [msg]: [st]
    is the state it was given and [st'] the state after its context
    lookup. The counters alone (an apology, the "not my question time"
    message, "no question to answer", a free-debate reply), or one of the
    four archiving updates. *)
Inductive said (E : Env) (st st' : State) (a msg : string) (w : World)
  : Update -> Prop :=
| said_plain : said E st st' a msg w (update_counters st msg)
| said_opening cached :
    current_stage st = opening ->
    said E st st' a msg w (opening_update st' a msg cached)
| said_question t w1 :
    current_stage st = questioning ->
    waiting_for_answer st = false ∨ current_target st ≠ a ->
    select_next_questioner_and_target E (active_agents st)
      (questions_asked st) w = (Ok (a, t), w1) ->
    said E st st' a msg w (question_update st' a t msg)
| said_answer :
    current_stage st = questioning ->
    waiting_for_answer st = true -> current_target st = a ->
    questions_asked st ≠ [] ->
    said E st st' a msg w (answer_update st' msg)
| said_closing :
    current_stage st = closing ->
    said E st st' a msg w (closing_update st' a msg).

(** ** The stream and the transcript *)

(** [msg] begins with the display name of participant [a]. *)
Definition named (a msg : string) : Prop :=
  exists info,
    roles_get AVAILABLE_ROLES a = Some info
    ∧ startswith msg (name info) = true.

(** The messages of the stream, in order. *)
Definition streamed (tr : list Event) : list string :=
  concat ((fun ev => u_messages (ev_update ev)) <$> tr).

(** The three kinds of item in the stream of a run: an empty update a
    participant's node returns in the questioning stage, a spoken turn of
    one message that begins with the speaker's name, and the announcement
    of a transition node. *)
Definition event_ok (ev : Event) : Prop :=
  match ev_node ev with
  | Agent a =>
      (ev_stage ev = questioning ∧ ev_update ev = update_messages [])
      ∨ (is_spoken ev = true
         ∧ exists msg, u_messages (ev_update ev) = [msg] ∧ named a msg)
  | Transition t =>
      t ≠ opening ∧ ev_update ev = transition_update t
  | END => False
  end.

(** ** The ledger, record by record *)

(** The question of a record is by its questioner, to somebody else. *)
Definition asked (qa : QA) : Prop :=
  questioner qa ≠ target qa ∧ named (questioner qa) (question qa).

(** The answer of a record is by its target. *)
Definition answered (qa : QA) : Prop := named (target qa) (answer qa).

(** Every record is answered by its target, but for the last one while its
    answer is pending: that one has no answer yet, and its target is the
    participant the cursor points at. *)
Definition ledger_answered (st : State) : Prop :=
  Forall asked (questions_asked st)
  ∧ if waiting_for_answer st
    then exists before qa,
           questions_asked st = before ++ [qa]
           ∧ Forall answered before
           ∧ answer qa = "" ∧ target qa = current_target st
    else Forall answered (questions_asked st).

(** Nobody has received more than one question while the ledger is not
    full, nor more than two when it is. *)
Definition received_bound (agents : list string) (qs : list QA) : Prop :=
  forall a,
    received qs a ≤ if decide (length qs < length agents) then 1 else 2.

(** ** How long a run takes *)

(** Collaborators with which no turn is lost: the inference chain answers
    every call, and the random source always yields the same number, so
    that the questioner a node draws on entry and the one its generator
    draws again are the one the scheduler drew. *)
Definition steady (E : Env) : Prop :=
  always_infers E ∧ forall i, rand E i = rand E 0.

(** The supersteps between a state and [END] when no turn is lost: the
    turns the stage still has, those of the later stages, and the
    transitions between them. *)
Definition remaining (N R : nat) (st : State) : nat :=
  match current_stage st with
  | opening => (N - stage_progress st) + 1 + 2 * N + 1 + N * R + 1 + N
  | questioning =>
      2 * (N - length (questions_asked st))
      + (if waiting_for_answer st then 1 else 0) + 1 + N * R + 1 + N
  | free_debate => (N * R - stage_progress st) + 1 + N
  | closing => N - stage_progress st
  end.

(** * The prompt formatters of [graph.py] *)

(** ** Strings *)

(** Strings are sequences of bytes, UTF-8 for the texts of the program.
    A sequence of whole characters occurs in a text at a character
    boundary only, so searching bytes finds what searching characters
    finds. *)

(** [sep.join(l)] *)
Fixpoint join (sep : string) (l : list string) : string :=
  match l with
  | [] => ""
  | x :: l' =>
      match l' with
      | [] => x
      | _ :: _ => x +:+ sep +:+ join sep l'
      end
  end.

(** [s.replace(old, new)] from left to right; [skip] bytes of a match
    just replaced are still to be passed over. *)
Fixpoint replace_from (skip : nat) (old new s : string) : string :=
  match s with
  | EmptyString => EmptyString
  | String c s' =>
      match skip with
      | S k => replace_from k old new s'
      | 0 =>
          if String.prefix old s
          then new +:+ replace_from (String.length old - 1) old new s'
          else String c (replace_from 0 old new s')
      end
  end.

(** [s.replace("", new)]: [new] before every character and at the end. *)
Fixpoint interleave (new s : string) : string :=
  match s with
  | EmptyString => new
  | String c s' => new +:+ String c (interleave new s')
  end.

Definition replace (s old new : string) : string :=
  if decide (old = "") then interleave new s else replace_from 0 old new s.

(** [sub in s] *)
Fixpoint contains (sub s : string) : bool :=
  String.prefix sub s
  || match s with
     | EmptyString => false
     | String _ s' => contains sub s'
     end.





(** ["\n"] and ["\n\n"] *)
Definition NEWLINE : string := String "010" EmptyString.
Definition BLANK_LINE : string := NEWLINE +:+ NEWLINE.

(** [message.replace(f"{agent_name}:", "").strip()] *)
Definition clean (agent_name message : string) : string :=
  strip (replace message (agent_name +:+ ":") "").

(** ** [format_opening_statements] *)

Definition NO_OPENING_STATEMENTS : string := "暂无开辩陈述。".

(** The loop over [active_agents]: one block for every participant that
    has a statement; a [KeyError] when such a participant is not in the
    registry. *)
Fixpoint opening_blocks (opening_statements : gmap string string)
    (active_agents : list string) : Exc (list string) :=
  match active_agents with
  | [] => Ok []
  | agent_key :: rest =>
      match opening_statements !! agent_key with
      | Some statement =>
          match roles_get AVAILABLE_ROLES agent_key with
          | None => Raise agent_key
          | Some agent_info =>
              let agent_name := name agent_info in
              let clean_statement := clean agent_name statement in
              match opening_blocks opening_statements rest with
              | Raise e => Raise e
              | Ok formatted =>
                  Ok ((agent_name +:+ ": " +:+ clean_statement) :: formatted)
              end
          end
      | None => opening_blocks opening_statements rest
      end
  end.

Definition format_opening_statements (opening_statements : gmap string string)
    (active_agents : list string) : Exc string :=
  if decide (opening_statements = ∅) then Ok NO_OPENING_STATEMENTS
  else
    match opening_blocks opening_statements active_agents with
    | Raise e => Raise e
    | Ok formatted => Ok (join BLANK_LINE formatted)
    end.

(** ** [format_qa_summary] *)

Definition NO_QA : string := "暂无提问回答记录。".

(** The loop [for i, qa in enumerate(questions_asked, 1)], from number
    [i] on: four lines for every record. *)
Fixpoint qa_lines (i : nat) (questions_asked : list QA)
  : Exc (list string) :=
  match questions_asked with
  | [] => Ok []
  | qa :: rest =>
      match roles_get AVAILABLE_ROLES (questioner qa) with
      | None => Raise (questioner qa)
      | Some questioner_info =>
          match roles_get AVAILABLE_ROLES (target qa) with
          | None => Raise (target qa)
          | Some target_info =>
              match qa_lines (i + 1) rest with
              | Raise e => Raise e
              | Ok formatted =>
                  Ok (("Q" +:+ pretty.pretty i +:+ ": " +:+ name questioner_info
                       +:+ " → " +:+ name target_info)
                      :: ("问题: " +:+ question qa)
                      :: ("回答: " +:+ answer qa)
                      :: "" :: formatted)
              end
          end
      end
  end.

Definition format_qa_summary (questions_asked : list QA) : Exc string :=
  if decide (questions_asked = []) then Ok NO_QA
  else
    match qa_lines 1 questions_asked with
    | Raise e => Raise e
    | Ok formatted => Ok (join NEWLINE formatted)
    end.

(** ** [format_agent_history] *)

Definition HISTORY_START : string := "这是自由辩论的开始。".

(** [l[-k:]]: the last [k] items, and all of them for [k = 0]. *)
Definition py_last {A} (k : nat) (l : list A) : list A :=
  if decide (k = 0) then l else drop (length l - k) l.

(** The speaker the formatter assumes for the message at
    [global_msg_idx] of the transcript:
    [active_agents[global_msg_idx % len(active_agents)]]. *)
Definition estimated_speaker (active_agents : list string)
    (global_msg_idx : nat) : Exc string :=
  if decide (length active_agents = 0)
  then Raise "integer division or modulo by zero"
  else
    match active_agents !! (global_msg_idx mod length active_agents) with
    | Some agent_key => Ok agent_key
    | None => Raise "list index out of range"
    end.

(** The loop over [recent_messages], the first of which is at
    [global_msg_idx] of the transcript. *)
Fixpoint history_blocks (active_agents : list string) (global_msg_idx : nat)
    (recent_messages : list string) : Exc (list string) :=
  match recent_messages with
  | [] => Ok []
  | message :: rest =>
      match estimated_speaker active_agents global_msg_idx with
      | Raise e => Raise e
      | Ok agent_key =>
          match roles_get AVAILABLE_ROLES agent_key with
          | None => Raise agent_key
          | Some agent_info =>
              let agent_name := name agent_info in
              let clean_message := clean agent_name message in
              match history_blocks active_agents (global_msg_idx + 1)
                                   rest with
              | Raise e => Raise e
              | Ok formatted_history =>
                  Ok ((agent_name +:+ ": " +:+ clean_message)
                      :: formatted_history)
              end
          end
      end
  end.

(** [recent_messages] *)
Definition recent (messages : list string) (max_show : nat) : list string :=
  if decide (max_show < length messages) then py_last max_show messages
  else messages.

(** [current_agent] and [current_round] are not read. *)
Definition format_agent_history (messages : list string)
    (active_agents : list string) (current_agent : string)
    (current_round max_show : nat) : Exc string :=
  if decide (messages = []) then Ok HISTORY_START
  else
    let recent_messages := recent messages max_show in
    match history_blocks active_agents
            (length messages - length recent_messages) recent_messages with
    | Raise e => Raise e
    | Ok formatted_history => Ok (join BLANK_LINE formatted_history)
    end.

(** * The page: [debates.py] *)

(** ** [display_debate_progress] *)

(** [stage_info[current_stage]["name"]] and [["total"]]; the stage is one
    of the four, so the default entry is not used. *)
Definition stage_name (current_stage : Stage) : string :=
  match current_stage with
  | opening => "开辩综述"
  | questioning => "提问回答"
  | free_debate => "自由辩论"
  | closing => "结辩综述"
  end.

Definition stage_total (current_stage : Stage) (active_agents : list string)
    (max_rounds : nat) : nat :=
  match current_stage with
  | opening => length active_agents
  | questioning => length active_agents * 2
  | free_debate => length active_agents * max_rounds
  | closing => length active_agents
  end.

(** The three metrics: the name of the stage; [progress_in_stage] and the
    total of the stage; and, for the overall progress, [total_messages]
    and [total_expected], of which the page prints
    [min(int((total_messages / total_expected) * 100), 100)] percent. *)
Record Metrics := mkMetrics {
  metric_stage : string;
  metric_progress : nat * nat;
  metric_overall : nat * nat
}.

(** The division raises [ZeroDivisionError] when [total_expected] is
    [0]. *)
Definition display_debate_progress (current_stage : Stage)
    (stage_progress : nat) (active_agents : list string) (max_rounds : nat)
  : Exc Metrics :=
  let total := stage_total current_stage active_agents max_rounds in
  let progress_in_stage := stage_progress `min` total in
  let total_messages :=
    match current_stage with
    | opening => stage_progress
    | questioning => length active_agents + stage_progress
    | free_debate =>
        length active_agents + length active_agents * 2 + stage_progress
    | closing =>
        length active_agents + length active_agents * 2
        + length active_agents * max_rounds + stage_progress
    end in
  let total_expected := length active_agents * (3 + max_rounds) in
  if decide (total_expected = 0) then Raise "division by zero"
  else Ok (mkMetrics (stage_name current_stage) (progress_in_stage, total)
                     (total_messages, total_expected)).

(** ** [parse_stage_and_message_type] *)

(** [last_message_type] is [state_info.get("last_message_type")]. *)
Definition parse_stage_and_message_type (current_stage : Stage)
    (message_content : string) (last_message_type : option string) : string :=
  match last_message_type with
  | Some message_type => message_type
  | None =>
      match current_stage with
      | questioning =>
          if contains "?" message_content || contains "？" message_content
          then "提问" else "回答"
      | opening => "开辩"
      | closing => "结辩"
      | free_debate => "辩论"
      end
  end.

(** ** The loop of [generate_response] over the stream *)

(** The name under which the graph has a node. *)
Definition node_key (n : Node) : string :=
  match n with
  | Agent agent_key => agent_key
  | Transition opening => "opening"
  | Transition questioning => "questioning"
  | Transition free_debate => "free_debate"
  | Transition closing => "closing"
  | END => "__end__"
  end.

(** [any(marker in message for marker in ["📝", "🎯", "🏁", "现在进入"])] *)
Definition marker (message : string) : bool :=
  contains "📝" message || contains "🎯" message || contains "🏁" message
  || contains "现在进入" message.

(** What the page puts on the screen: a message with its speaker, stage,
    round number and type ([display_agent_message]); the header of a stage
    ([display_stage_header]); the metrics ([display_debate_progress]). *)
Inductive Shown :=
| Message (agent_key message : string) (stage : Stage)
          (round_num : option Z) (message_type : string)
| Header (stage : Stage)
| Progress (metrics : Metrics).

(** The variables of the loop, [current_stage], [stage_progress] and
    [message_count], and the screen. *)
Record Page := mkPage {
  page_stage : Stage;
  page_progress : nat;
  message_count : nat;
  shown : list Shown
}.

Definition page0 : Page := mkPage opening 0 0 [].

(** [if "current_stage" in node_update: ...] and
    [if "stage_progress" in node_update: ...] *)
Definition track (p : Page) (node_update : Update) : Page :=
  mkPage (overwrite (page_stage p) (u_current_stage node_update))
         (overwrite (page_progress p) (u_stage_progress node_update))
         (message_count p) (shown p).

(** [display_debate_progress] inside a [try]: when it raises, nothing is
    put on the screen. *)
Definition show_progress (selected_agents : list string) (max_rounds : nat)
    (p : Page) : Page :=
  match display_debate_progress (page_stage p) (page_progress p)
                                selected_agents max_rounds with
  | Ok metrics =>
      mkPage (page_stage p) (page_progress p) (message_count p)
             (shown p ++ [Progress metrics])
  | Raise _ => p
  end.

Definition show_header (p : Page) : Page :=
  mkPage (page_stage p) (page_progress p) (message_count p)
         (shown p ++ [Header (page_stage p)]).

(** [((stage_progress - 1) // len(selected_agents)) + 1] *)
Definition round_of (stage_progress : nat) (selected_agents : list string)
  : Z :=
  ((Z.of_nat stage_progress - 1) `div` Z.of_nat (length selected_agents) + 1)%Z.

(** One message of the update of a participant's node. No update of
    [graph.py] has the key ["last_message_type"]. The node is one of
    [selected_agents], so the division of the round number is by a
    positive length. *)
Definition show_message (selected_agents : list string) (max_rounds : nat)
    (agent_key : string) (p : Page) (message : string) : Page :=
  if decide (message = "" ∨ strip message = "") then p
  else if marker message then show_header p
  else
    match roles_get AVAILABLE_ROLES agent_key with
    | None => p
    | Some agent_info =>
        let message_type :=
          parse_stage_and_message_type (page_stage p) message None in
        let round_num :=
          if decide (page_stage p = free_debate)
          then Some (round_of (page_progress p) selected_agents)
          else None in
        show_progress selected_agents max_rounds
          (mkPage (page_stage p) (page_progress p) (message_count p + 1)
                  (shown p ++ [Message agent_key message (page_stage p)
                                       round_num message_type]))
    end.

(** One message of the update of any other node. *)
Definition show_announcement (selected_agents : list string)
    (max_rounds : nat) (p : Page) (message : string) : Page :=
  if marker message
  then show_progress selected_agents max_rounds (show_header p)
  else p.

(** One item of the stream. *)
Definition show_update (selected_agents : list string) (max_rounds : nat)
    (p : Page) (ev : Event) : Page :=
  let node_update := ev_update ev in
  if decide (node_key (ev_node ev) ∈ selected_agents)
  then foldl (show_message selected_agents max_rounds (node_key (ev_node ev)))
             (track p node_update) (u_messages node_update)
  else foldl (show_announcement selected_agents max_rounds)
             (track p node_update) (u_messages node_update).

(** The page after the stream [tr]. *)
Definition show_stream (selected_agents : list string) (max_rounds : nat)
    (tr : list Event) : Page :=
  foldl (show_update selected_agents max_rounds) page0 tr.

(** The messages on the screen, in order. *)
Definition displayed (p : Page) : list string :=
  omap (fun item => match item with
                    | Message _ message _ _ _ => Some message
                    | _ => None
                    end) (shown p).

(** ** [preload_rag_for_all_agents] *)





(** ** The sidebar and the start button *)

(** The check boxes, one for each role of the registry, in its order. *)
Definition selected_agents (checked : string -> bool) : list string :=
  filter (fun agent_key => checked agent_key = true) AVAILABLE_ROLES.*1.

Definition can_start (selected_agents : list string) (topic_text : string)
  : bool :=
  bool_decide (3 ≤ length selected_agents)
  && bool_decide (length selected_agents ≤ 6)
  && bool_decide (strip topic_text ≠ "").

(** The number of messages the page announces:
    [opening_count + questioning_count + free_debate_count
     + closing_count]. *)
Definition announced_messages (selected_agents : list string)
    (max_rounds : nat) : nat :=
  length selected_agents + length selected_agents * 2
  + length selected_agents * max_rounds + length selected_agents.

(** ** What the page shows of a run *)

(** A byte that begins no white space character. *)
Definition solid (c : ascii) : bool :=
  negb (is_space c)
  && negb (Ascii.eqb c "194" || Ascii.eqb c "225" || Ascii.eqb c "226"
           || Ascii.eqb c "227").

(** An item on the screen of the run of [agents] with [R] rounds: a
    message is by a participant, begins with the speaker's name, holds no
    marker, has its type from stage and text, and has a round number in
    free debate only, from [1] to [R]. *)
Definition item_ok (agents : list string) (R : nat) (item : Shown) : Prop :=
  match item with
  | Message a msg s round_num message_type =>
      a ∈ agents ∧ named a msg ∧ marker msg = false
      ∧ message_type = parse_stage_and_message_type s msg None
      ∧ if decide (s = free_debate)
        then exists r, round_num = Some r ∧ (1 ≤ r ≤ Z.of_nat R)%Z
        else round_num = None
  | _ => True
  end.

(** ** Configurations of the concrete debates *)

(** The configuration [n] supersteps after [c], or the one the run has
    stopped in before. *)
Fixpoint after (E : Env) (graph : list string) (n : nat) (c : Config)
  : Config :=
  match n with
  | 0 => c
  | S n' =>
      match step E graph c with
      | Some c' => after E graph n' c'
      | None => c
      end
  end.

(** The debate of [three_agents] over two rounds with the collaborators
    of [env_steady], [n] supersteps on. *)
Definition debate_after (n : nat) : Config :=
  after env_steady three_agents n (start three_agents debate_3_2).

(** * Properties *)

(** ** Dictionaries *)

Lemma dict_get_dict_of f keys k :
  k ∈ keys -> dict_get (dict_of f keys) k = Some (f k).
Proof.
  induction keys as [|k0 keys IH]; intros Hin; [by apply elem_of_nil in Hin|].
  simpl. destruct (decide (k0 = k)) as [->|Hne]; [done|].
  apply IH. apply elem_of_cons in Hin as [->|]; [done|assumption].
Qed.

Lemma dict_get_dict_of_None f keys k :
  k ∉ keys -> dict_get (dict_of f keys) k = None.
Proof.
  induction keys as [|k0 keys IH]; intros Hin; [done|].
  simpl. apply not_elem_of_cons in Hin as [Hne Hin].
  destruct (decide (k0 = k)); [congruence|auto].
Qed.

Lemma dict_set_absent (d : Dict) k v :
  k ∉ d.*1 -> dict_set d k v = d ++ [(k, v)].
Proof.
  induction d as [|[k0 v0] d IH]; intros Hin; [done|].
  simpl in *. apply not_elem_of_cons in Hin as [Hne Hin].
  destruct (decide (k0 = k)); [congruence|]. by rewrite IH.
Qed.

Lemma dict_of_fst f keys : (dict_of f keys).*1 = keys.
Proof. induction keys as [|k keys IH]; [done|]. simpl. f_equal. exact IH. Qed.

Lemma dict_of_snd f keys : (dict_of f keys).*2 = f <$> keys.
Proof. induction keys as [|k keys IH]; [done|]. simpl. f_equal. exact IH. Qed.

Lemma dict_zero_NoDup keys :
  NoDup keys -> dict_zero keys = dict_of (fun _ => 0) keys.
Proof.
  unfold dict_zero. intros Hnd.
  enough (forall acc, NoDup (acc ++ keys) ->
            foldl (fun d k => dict_set d k 0) (dict_of (fun _ => 0) acc) keys
            = dict_of (fun _ => 0) (acc ++ keys)) as H by exact (H [] Hnd).
  clear Hnd. induction keys as [|k keys IH]; intros acc Hnd; simpl.
  - by rewrite app_nil_r.
  - rewrite dict_set_absent.
    + replace (dict_of (fun _ => 0) acc ++ [(k, 0)])
        with (dict_of (fun _ => 0) (acc ++ [k]))
        by (unfold dict_of; by rewrite fmap_app).
      rewrite IH; rewrite <- app_assoc; [done|exact Hnd].
    + rewrite dict_of_fst. apply NoDup_app in Hnd as (_ & Hdisj & _).
      intros Hin. apply (Hdisj k Hin). by left.
Qed.

Lemma dict_set_dict_of f keys k :
  NoDup keys -> k ∈ keys ->
  dict_set (dict_of f keys) k (f k + 1) = dict_of (bump f k) keys.
Proof.
  induction keys as [|k0 keys IH]; intros Hnd Hin;
    [by apply elem_of_nil in Hin|].
  apply NoDup_cons in Hnd as [Hk0 Hnd]. simpl.
  destruct (decide (k0 = k)) as [->|Hne].
  - unfold bump at 1. rewrite decide_True by done. f_equal.
    unfold dict_of. apply list_fmap_ext. intros i x Hx. unfold bump.
    rewrite decide_False; [done|]. intros ->.
    apply Hk0. by eapply list_elem_of_lookup_2.
  - unfold bump at 1. rewrite decide_False by congruence. f_equal.
    apply IH; [done|]. apply elem_of_cons in Hin as [->|]; [done|assumption].
Qed.

Lemma dict_incr_dict_of f keys k :
  NoDup keys -> k ∈ keys ->
  dict_incr (dict_of f keys) k = Ok (dict_of (bump f k) keys).
Proof.
  intros Hnd Hin. unfold dict_incr. rewrite dict_get_dict_of by done.
  by rewrite dict_set_dict_of.
Qed.

Lemma count_of_dict_of f keys k :
  k ∈ keys -> count_of (dict_of f keys) k = f k.
Proof. intros Hin. unfold count_of. by rewrite dict_get_dict_of. Qed.

Lemma py_min_spec (l : list nat) :
  l ≠ [] -> exists m, py_min l = Ok m ∧ m ∈ l ∧ forall x, x ∈ l -> m ≤ x.
Proof.
  destruct l as [|x l]; [done|]. intros _. exists (foldl Nat.min x l).
  split; [done|]. revert x. induction l as [|y l IH]; intros x; simpl.
  - split; [by left|]. intros z Hz. apply list_elem_of_singleton in Hz. lia.
  - destruct (IH (x `min` y)) as [Hin Hle]. split.
    + apply elem_of_cons in Hin as [Heq|Hin].
      * rewrite Heq. destruct (Nat.min_spec x y) as [[_ ->]|[_ ->]].
        -- by left.
        -- right. by left.
      * right. by right.
    + intros z Hz. apply elem_of_cons in Hz as [->|Hz].
      * specialize (Hle (x `min` y) ltac:(by left)). lia.
      * apply elem_of_cons in Hz as [->|Hz].
        -- specialize (Hle (x `min` y) ltac:(by left)). lia.
        -- apply Hle. by right.
Qed.

(** ** The selection *)

Lemma dict_of_ext f g keys :
  (forall k, k ∈ keys -> f k = g k) -> dict_of f keys = dict_of g keys.
Proof.
  intros Hfg. unfold dict_of. apply list_fmap_ext. intros i k Hk.
  f_equal. apply Hfg. by eapply list_elem_of_lookup_2.
Qed.

Lemma candidates_questioner_dict_of f keys m :
  candidates_questioner (dict_of f keys) m = filter (fun k => f k = m) keys.
Proof.
  unfold candidates_questioner, dict_of.
  induction keys as [|k keys IH]; [done|].
  rewrite fmap_cons. rewrite (filter_cons (fun k0 => f k0 = m)).
  rewrite (filter_cons (fun item : string * nat => item.2 = m)). cbn [snd].
  destruct (decide (f k = m)); [rewrite fmap_cons; cbn [fst]|];
    by rewrite IH.
Qed.

Lemma candidates_target_dict_of f keys l m :
  l ⊆ keys ->
  candidates_target (dict_of f keys) l m = filter (fun k => f k = m) l.
Proof.
  unfold candidates_target. intros Hsub.
  induction l as [|k l IH]; [done|].
  rewrite !filter_cons. rewrite count_of_dict_of by (apply Hsub; by left).
  rewrite IH; [done|]. intros x Hx. apply Hsub. by right.
Qed.

Lemma count_loop_spec agents qs : forall f g,
  NoDup agents -> ledger_ok agents qs ->
  count_loop qs (dict_of f agents) (dict_of g agents)
  = Ok (dict_of (fun a => f a + authored qs a) agents,
        dict_of (fun a => g a + received qs a) agents).
Proof.
  induction qs as [|qa qs IH]; intros f g Hnd Hok; simpl.
  - f_equal. f_equal; apply dict_of_ext; intros; unfold authored, received;
      simpl; lia.
  - destruct (Hok qa ltac:(by left)) as [Hq Ht].
    rewrite !dict_incr_dict_of by done.
    rewrite IH; [|done|intros x Hx; apply Hok; by right].
    f_equal. f_equal; apply dict_of_ext; intros k Hk;
      unfold authored, received, bump; rewrite filter_cons;
      destruct (decide _); simpl; lia.
Qed.

Lemma filter_iff_in {A} (P Q : A -> Prop) `{!forall x, Decision (P x)}
    `{!forall x, Decision (Q x)} (l : list A) :
  (forall x, x ∈ l -> (P x <-> Q x)) -> filter P l = filter Q l.
Proof.
  induction l as [|x l IH]; intros Hiff; [done|].
  rewrite !filter_cons.
  assert (Hl : filter P l = filter Q l).
  { apply IH. intros y Hy. apply Hiff. by right. }
  destruct (decide (P x)) as [HP|HP], (decide (Q x)) as [HQ|HQ].
  - by rewrite Hl.
  - exfalso. apply HQ, (Hiff x); [by left|done].
  - exfalso. apply HP, (Hiff x); [by left|done].
  - done.
Qed.

Section Selection.

Variable E : Env.

Lemma random_choice_Ok (seq : list string) w :
  seq ≠ [] ->
  exists x, seq !! (rand E (rand_pos w) mod length seq) = Some x
            ∧ random_choice E seq w = (Ok x, drawn w 1).
Proof.
  intros Hne. unfold random_choice.
  destruct (seq !! (rand E (rand_pos w) mod length seq)) as [x|] eqn:Hx.
  - by exists x.
  - apply lookup_ge_None in Hx. destruct seq; [done|]. simpl in Hx.
    pose proof (Nat.mod_upper_bound (rand E (rand_pos w)) (S (length seq))).
    lia.
Qed.

(** What a selection returns, and from which two candidate lists: the
    lists the code filters are the two lists of candidates. *)
Lemma select_lists agents qs w :
  NoDup agents -> ledger_ok agents qs -> 2 ≤ length agents ->
  exists cq ct q t,
    (NoDup cq ∧ forall a, a ∈ cq <-> min_authored agents qs a)
    ∧ cq !! (rand E (rand_pos w) mod length cq) = Some q
    ∧ (NoDup ct ∧ forall a, a ∈ ct <-> min_received agents qs q a)
    ∧ ct !! (rand E (rand_pos w + 1) mod length ct) = Some t
    ∧ select_next_questioner_and_target E agents qs w
      = (Ok (q, t), drawn w 2)
    ∧ cq = questioner_candidates agents qs
    ∧ ct = target_candidates agents qs q.
Proof.
  intros Hnd Hok Hlen. unfold select_next_questioner_and_target.
  rewrite dict_zero_NoDup by done. rewrite count_loop_spec by done.
  rewrite dict_of_snd.
  destruct (py_min_spec ((fun a => 0 + authored qs a) <$> agents))
    as (mq & -> & Hmq & Hmin).
  { destruct agents; [simpl in Hlen; lia|done]. }
  rewrite candidates_questioner_dict_of.
  set (cq := filter (fun k => 0 + authored qs k = mq) agents).
  assert (Hcq : forall a, a ∈ cq <-> min_authored agents qs a).
  { intros a. unfold cq. rewrite list_elem_of_filter. unfold min_authored.
    split.
    - intros [Ha Hin]. split; [done|]. intros b Hb.
      specialize (Hmin (0 + authored qs b)
                       ltac:(apply list_elem_of_fmap; eauto)). lia.
    - intros [Hin Hle]. split; [|done].
      apply list_elem_of_fmap in Hmq as (b & -> & Hb).
      specialize (Hle b Hb).
      specialize (Hmin (0 + authored qs a)
                       ltac:(apply list_elem_of_fmap; eauto)). lia. }
  destruct (random_choice_Ok cq w) as (q & Hq & ->).
  { apply list_elem_of_fmap in Hmq as (b & Hb1 & Hb2).
    intros Hnil. assert (b ∈ cq) as Hbc.
    { unfold cq. apply list_elem_of_filter. split; [lia|done]. }
    rewrite Hnil in Hbc. by apply elem_of_nil in Hbc. }
  assert (Hqin : q ∈ agents).
  { apply list_elem_of_lookup_2 in Hq. by apply Hcq in Hq as [? _]. }
  cbn zeta.
  assert (Hav : available_targets agents q ≠ []).
  { unfold available_targets. destruct agents as [|a1 [|a2 rest]];
      [simpl in Hlen; lia..|].
    apply NoDup_cons in Hnd as [Ha1 _].
    destruct (decide (a1 = q)) as [->|Hne].
    - rewrite filter_cons_False by (intros H; by apply H).
      rewrite filter_cons_True; [done|].
      intros ->. apply Ha1. by left.
    - by rewrite filter_cons_True. }
  destruct (py_min_spec ((count_of (dict_of (fun a => 0 + received qs a)
                                            agents))
                           <$> available_targets agents q))
    as (mt & -> & Hmt & Hmint).
  { by destruct (available_targets agents q). }
  assert (Hsub : available_targets agents q ⊆ agents).
  { intros x Hx. unfold available_targets in Hx.
    by apply list_elem_of_filter in Hx as [_ ?]. }
  rewrite candidates_target_dict_of by done.
  set (ct := filter (fun k => 0 + received qs k = mt)
                    (available_targets agents q)).
  assert (Hct : forall a, a ∈ ct <-> min_received agents qs q a).
  { intros a. unfold ct, available_targets.
    rewrite !list_elem_of_filter. unfold min_received. split.
    - intros (Ha & Hneq & Hin). split; [done|]. intros b Hb Hbq.
      assert (b ∈ available_targets agents q) as Hbav
        by (apply list_elem_of_filter; done).
      specialize (Hmint (count_of (dict_of (fun a => 0 + received qs a)
                                           agents) b)
                        ltac:(apply list_elem_of_fmap; eauto)).
      rewrite count_of_dict_of in Hmint by done. lia.
    - intros [[Hin Hneq] Hle]. split; [|done].
      apply list_elem_of_fmap in Hmt as (b & Hb1 & Hb2).
      pose proof (Hsub b Hb2) as Hbin.
      rewrite count_of_dict_of in Hb1 by done.
      apply list_elem_of_filter in Hb2 as [Hbq _].
      specialize (Hle b Hbin Hbq).
      assert (a ∈ available_targets agents q) as Haav
        by (apply list_elem_of_filter; done).
      specialize (Hmint (count_of (dict_of (fun a => 0 + received qs a)
                                           agents) a)
                        ltac:(apply list_elem_of_fmap; eauto)).
      rewrite count_of_dict_of in Hmint by done. lia. }
  destruct (random_choice_Ok ct (drawn w 1)) as (t & Ht & ->).
  { apply list_elem_of_fmap in Hmt as (b & Hb1 & Hb2).
    rewrite count_of_dict_of in Hb1 by auto.
    intros Hnil. assert (b ∈ ct) as Hbc.
    { unfold ct. apply list_elem_of_filter. split; [lia|done]. }
    rewrite Hnil in Hbc. by apply elem_of_nil in Hbc. }
  exists cq, ct, q, t. split; [|split; [|split; [|split; [|split; [|split]]]]].
  - split; [|done]. unfold cq. by apply NoDup_filter.
  - done.
  - split; [|done]. unfold ct, available_targets.
    by do 2 apply NoDup_filter.
  - exact Ht.
  - unfold drawn. simpl. f_equal. f_equal. lia.
  - unfold cq, questioner_candidates. apply filter_iff_in. intros a Ha.
    fold cq. rewrite Forall_forall. split.
    + intros Heq. assert (a ∈ cq) as Hin
        by (unfold cq; by apply list_elem_of_filter).
      apply Hcq in Hin as [_ Hle]. exact Hle.
    + intros Hle. assert (a ∈ cq) as Hin by (apply Hcq; by split).
      unfold cq in Hin. by apply list_elem_of_filter in Hin as [? _].
  - unfold ct, target_candidates, available_targets.
    rewrite list_filter_filter. apply filter_iff_in. intros a Ha.
    fold (available_targets agents q). rewrite Forall_forall. split.
    + intros [Heq Hneq]. assert (a ∈ ct) as Hin.
      { unfold ct, available_targets. rewrite !list_elem_of_filter. done. }
      apply Hct in Hin as [_ Hle]. split; [done|]. intros b Hb Hbq. auto.
    + intros [Hneq Hle]. assert (a ∈ ct) as Hin.
      { apply Hct. split; [done|]. intros b Hb Hbq. auto. }
      unfold ct, available_targets in Hin.
      rewrite !list_elem_of_filter in Hin. by destruct Hin as (? & ? & _).
Qed.

Lemma select_spec agents qs w :
  NoDup agents -> ledger_ok agents qs -> 2 ≤ length agents ->
  exists cq ct q t,
    (NoDup cq ∧ forall a, a ∈ cq <-> min_authored agents qs a)
    ∧ cq !! (rand E (rand_pos w) mod length cq) = Some q
    ∧ (NoDup ct ∧ forall a, a ∈ ct <-> min_received agents qs q a)
    ∧ ct !! (rand E (rand_pos w + 1) mod length ct) = Some t
    ∧ select_next_questioner_and_target E agents qs w
      = (Ok (q, t), drawn w 2).
Proof.
  intros Hnd Hok Hlen.
  destruct (select_lists agents qs w Hnd Hok Hlen)
    as (cq & ct & q & t & H1 & H2 & H3 & H4 & H5 & _).
  by exists cq, ct, q, t.
Qed.

End Selection.

(** ** The generators *)

Lemma valid_config_facts agents rounds :
  valid_config agents rounds ->
  NoDup agents ∧ Forall known_agent agents ∧ 3 ≤ length agents ≤ 6.
Proof.
  intros [Hg _]. unfold create_multi_agent_graph in Hg.
  destruct (decide (length agents < 3)); [done|].
  destruct (decide (6 < length agents)); [done|].
  destruct (list_find _ agents) as [[i a]|] eqn:Hfind; [done|].
  destruct (decide (NoDup agents)); [|done].
  split; [done|]. split; [|lia].
  apply Forall_forall. intros a Ha.
  eapply list_find_None in Hfind. rewrite Forall_forall in Hfind.
  specialize (Hfind a Ha). by apply dec_stable.
Qed.

Lemma known_agent_nonempty a : known_agent a -> a ≠ "".
Proof. intros [info Hinfo] ->. vm_compute in Hinfo. done. Qed.

Section Generators.

Variable E : Env.

Lemma others_ok agents a :
  Forall known_agent agents ->
  exists l, get_other_participants agents a = Ok l.
Proof.
  induction 1 as [|k agents [info Hk] _ [l IH]]; simpl; [eauto|].
  destruct (decide (k ≠ a)); [|eauto]. rewrite Hk, IH. eauto.
Qed.

Lemma get_rag_shape a topic st w txt st' w' :
  get_rag_context_for_agent E a topic st w = (txt, st', w') ->
  cache_step st a st' ∧ rag_step st a w w' ∧ llm_pos w' = llm_pos w.
Proof.
  unfold get_rag_context_for_agent, cache_step, rag_step, rag_call.
  intros H.
  destruct (negb (rag_enabled st) || negb (rag_module_ready E));
    [simplify_eq; auto|].
  destruct (roles_get AVAILABLE_ROLES a); [|simplify_eq; auto].
  destruct (decide _) as [[Hst Hnew]|_].
  - destruct (rag E a topic _ _) as [context|e].
    + destruct (decide _); simplify_eq; simpl; eauto 10.
    + simplify_eq; simpl; eauto 10.
  - destruct (agent_paper_cache st !! a); simplify_eq; auto.
Qed.

(** The lookup raises for an unregistered key only. *)
Lemma get_rag_known a info topic st w txt st' w' :
  roles_get AVAILABLE_ROLES a = Some info ->
  get_rag_context_for_agent E a topic st w = (txt, st', w') ->
  exists text, txt = Ok text.
Proof.
  unfold get_rag_context_for_agent, rag_call. intros -> H.
  destruct (negb (rag_enabled st) || negb (rag_module_ready E));
    [simplify_eq; eauto|].
  destruct (decide _).
  - destruct (rag E a topic _ _) as [context|e].
    + destruct (decide _); simplify_eq; eauto.
    + simplify_eq; eauto.
  - destruct (agent_paper_cache st !! a); simplify_eq; eauto.
Qed.

End Generators.

Section Turns.

Variable E : Env.

Lemma cache_step_counters st a st' msg :
  cache_step st a st' -> update_counters st msg = update_counters st' msg.
Proof. by intros [->|(_ & _ & ctx & ->)]. Qed.

Lemma pipe_invoke_can_infer w response w' :
  deepseek_ready E = true -> pipe_invoke E w = (Ok response, w') ->
  can_infer E.
Proof.
  intros Hready H. unfold pipe_invoke in H. split; [done|].
  simplify_eq. eauto.
Qed.

Lemma pipe_invoke_raises w e w' :
  pipe_invoke E w = (Raise e, w') -> ¬ always_infers E.
Proof.
  unfold pipe_invoke. intros H [_ Hall].
  injection H as Hllm _. specialize (Hall (llm_pos w)).
  by rewrite Hllm in Hall.
Qed.

Lemma pipe_invoke_rag w r w' :
  pipe_invoke E w = (r, w') -> rag_calls w' = rag_calls w.
Proof. unfold pipe_invoke. intros; by simplify_eq. Qed.

Lemma rag_step_trans st a w w1 w2 :
  rag_step st a w w1 -> rag_calls w2 = rag_calls w1 -> rag_step st a w w2.
Proof. intros [H|(?&?&H)] Heq; [left|right]; rewrite Heq; auto. Qed.

Lemma not_statement_stage s :
  s = questioning ∨ s = free_debate -> ¬ statement_stage s.
Proof. intros [-> | ->] [?|?]; done. Qed.

Lemma generated_opening st a w :
  known_agent a -> Forall known_agent (active_agents st) ->
  deepseek_ready E = true -> current_stage st = opening ->
  generated E st a w (_generate_opening_statement E st a w).
Proof.
  intros [info Hinfo] Hknown Hready Hst.
  unfold _generate_opening_statement, generated. rewrite Hinfo.
  destruct (others_ok (active_agents st) a Hknown) as [others ->].
  destruct (get_rag_context_for_agent E a (main_topic st) st w)
    as [[txt st1] w1] eqn:Hrag.
  destruct (get_rag_known E _ _ _ _ _ _ _ _ Hinfo Hrag) as [rag_text ->].
  apply get_rag_shape in Hrag as (Hc & Hr & _).
  destruct (pipe_invoke E w1) as [[response|e] w2] eqn:Hpipe; simpl.
  - split; [done|]. split.
    { eapply rag_step_trans; [done|by eapply pipe_invoke_rag]. }
    apply (turn_opening E st1 a (format_response (name info) response)
             (bool_decide (a ∈ first_round_rag_completed st1))).
    + by destruct Hc as [->|(_ & _ & ctx & ->)].
    + by eapply pipe_invoke_can_infer.
  - split; [done|]. split.
    { eapply rag_step_trans; [done|by eapply pipe_invoke_rag]. }
    intros _. by eapply pipe_invoke_raises.
Qed.

Lemma generated_free_debate st a w :
  current_stage st = free_debate ->
  generated E st a w (_generate_free_debate_response E st a w).
Proof.
  intros Hst.
  assert (Hno : statement_stage (current_stage st) -> ¬ always_infers E).
  { intros H. exfalso. revert H. apply not_statement_stage. auto. }
  unfold _generate_free_debate_response, generated.
  destruct (roles_get AVAILABLE_ROLES a) as [info|] eqn:Hinfo;
    [|simpl; split; [by left|split; [by left|done]]].
  destruct (decide _); [simpl; split; [by left|split; [by left|done]]|].
  destruct (get_other_participants _ a);
    [|simpl; split; [by left|split; [by left|done]]].
  destruct (get_rag_context_for_agent E a (main_topic st) st w)
    as [[txt st1] w1] eqn:Hrag.
  destruct (get_rag_known E _ _ _ _ _ _ _ _ Hinfo Hrag) as [rag_text ->].
  apply get_rag_shape in Hrag as (Hc & Hr & _).
  destruct (pipe_invoke E w1) as [[response|e] w2] eqn:Hpipe; simpl.
  - split; [done|]. split.
    { eapply rag_step_trans; [done|by eapply pipe_invoke_rag]. }
    constructor. by destruct Hc as [->|(_ & _ & ctx & ->)].
  - split; [done|]. split; [|done].
    eapply rag_step_trans; [done|by eapply pipe_invoke_rag].
Qed.

Lemma generated_closing st a w :
  known_agent a -> Forall known_agent (active_agents st) ->
  deepseek_ready E = true -> current_stage st = closing ->
  generated E st a w (_generate_closing_statement E st a w).
Proof.
  intros [info Hinfo] Hknown Hready Hst.
  unfold _generate_closing_statement, generated. rewrite Hinfo.
  destruct (get_rag_context_for_agent E a (main_topic st) st w)
    as [[txt st1] w1] eqn:Hrag.
  destruct (get_rag_known E _ _ _ _ _ _ _ _ Hinfo Hrag) as [rag_text ->].
  apply get_rag_shape in Hrag as (Hc & Hr & _).
  destruct (others_ok (active_agents st) a Hknown) as [others ->].
  destruct (pipe_invoke E w1) as [[response|e] w2] eqn:Hpipe; simpl.
  - split; [done|]. split.
    { eapply rag_step_trans; [done|by eapply pipe_invoke_rag]. }
    apply (turn_closing E st1 a (format_response (name info) response)).
    + by destruct Hc as [->|(_ & _ & ctx & ->)].
    + by eapply pipe_invoke_can_infer.
  - split; [done|]. split.
    { eapply rag_step_trans; [done|by eapply pipe_invoke_rag]. }
    intros _. by eapply pipe_invoke_raises.
Qed.

Lemma generated_answer st a w :
  deepseek_ready E = true -> current_stage st = questioning ->
  waiting_for_answer st = true -> current_target st = a ->
  generated E st a w (_generate_answer E st a w).
Proof.
  intros Hready Hst Hwait Htarget.
  assert (Hno : statement_stage (current_stage st) -> ¬ always_infers E).
  { intros H. exfalso. revert H. apply not_statement_stage. auto. }
  unfold _generate_answer, generated.
  destruct (roles_get AVAILABLE_ROLES a) as [info|] eqn:Hinfo;
    [|simpl; split; [by left|split; [by left|done]]].
  destruct (last (questions_asked st)) as [latest|] eqn:Hlast;
    [|simpl; split; [by left|split; [by left|by constructor]]].
  destruct (roles_get AVAILABLE_ROLES (questioner latest));
    [|simpl; split; [by left|split; [by left|done]]].
  destruct (get_other_participants _ a);
    [|simpl; split; [by left|split; [by left|done]]].
  destruct (get_rag_context_for_agent E a (main_topic st) st w)
    as [[txt st1] w1] eqn:Hrag.
  destruct (get_rag_known E _ _ _ _ _ _ _ _ Hinfo Hrag) as [rag_text ->].
  apply get_rag_shape in Hrag as (Hc & Hr & _).
  destruct (pipe_invoke E w1) as [[response|e] w2] eqn:Hpipe; simpl.
  - split; [done|]. split.
    { eapply rag_step_trans; [done|by eapply pipe_invoke_rag]. }
    assert (Hqs : questions_asked st1 = questions_asked st)
      by (by destruct Hc as [->|(_ & _ & ctx & ->)]).
    rewrite <- Hqs.
    apply (turn_answer E st1 a (format_response (name info) response)).
    + by destruct Hc as [->|(_ & _ & ctx & ->)].
    + by destruct Hc as [->|(_ & _ & ctx & ->)].
    + by destruct Hc as [->|(_ & _ & ctx & ->)].
    + rewrite Hqs. intros Hnil. by rewrite Hnil in Hlast.
    + by eapply pipe_invoke_can_infer.
  - split; [done|]. split; [|done].
    eapply rag_step_trans; [done|by eapply pipe_invoke_rag].
Qed.

Lemma select_rag agents qs w r w' :
  select_next_questioner_and_target E agents qs w = (r, w') ->
  rag_calls w' = rag_calls w ∧ llm_pos w' = llm_pos w.
Proof.
  unfold select_next_questioner_and_target, random_choice. intros H.
  repeat (case_match; simplify_eq; simpl in *); done.
Qed.

Lemma generated_question st a w :
  deepseek_ready E = true -> current_stage st = questioning ->
  waiting_for_answer st = false ∨ current_target st ≠ a ->
  NoDup (active_agents st) -> 2 ≤ length (active_agents st) ->
  ledger_ok (active_agents st) (questions_asked st) ->
  generated E st a w (_generate_question E st a w).
Proof.
  intros Hready Hst Hwait Hnd Hlen Hok.
  assert (Hno : statement_stage (current_stage st) -> ¬ always_infers E).
  { intros H. exfalso. revert H. apply not_statement_stage. auto. }
  unfold _generate_question, generated.
  destruct (roles_get AVAILABLE_ROLES a) as [info|] eqn:Hinfo;
    [|simpl; split; [by left|split; [by left|done]]].
  destruct (select_spec E _ _ w Hnd Hok Hlen)
    as (cq & ct & q & t & [_ Hcq] & Hq & [_ Hct] & Ht & ->).
  destruct (decide (a ≠ q)) as [Hne|Heq];
    [simpl; split; [by left|split; [by left|by constructor]]|].
  apply dec_stable in Heq. subst q.
  destruct (roles_get AVAILABLE_ROLES t);
    [|simpl; split; [by left|split; [by left|done]]].
  destruct (get_other_participants _ a);
    [|simpl; split; [by left|split; [by left|done]]].
  destruct (get_rag_context_for_agent E a (main_topic st) st (drawn w 2))
    as [[txt st1] w1] eqn:Hrag.
  destruct (get_rag_known E _ _ _ _ _ _ _ _ Hinfo Hrag) as [rag_text ->].
  apply get_rag_shape in Hrag as (Hc & Hr & _).
  assert (Hr' : rag_step st a w w1)
    by (by destruct Hr as [?|(?&?&?)]; [left|right]).
  destruct (pipe_invoke E w1) as [[response|e] w2] eqn:Hpipe; simpl.
  - split; [done|]. split.
    { eapply rag_step_trans; [done|by eapply pipe_invoke_rag]. }
    assert (Hqs : questions_asked st1 = questions_asked st)
      by (by destruct Hc as [->|(_ & _ & ctx & ->)]).
    assert (Hag : active_agents st1 = active_agents st)
      by (by destruct Hc as [->|(_ & _ & ctx & ->)]).
    rewrite <- Hqs.
    apply (turn_question E st1 a t (format_response (name info) response)).
    + by destruct Hc as [->|(_ & _ & ctx & ->)].
    + by destruct Hc as [->|(_ & _ & ctx & ->)].
    + rewrite Hqs, Hag. apply Hcq. by eapply list_elem_of_lookup_2.
    + rewrite Hag. apply list_elem_of_lookup_2 in Ht.
      by apply Hct in Ht as [[? _] _].
    + by eapply pipe_invoke_can_infer.
  - split; [done|]. split; [|done].
    eapply rag_step_trans; [done|by eapply pipe_invoke_rag].
Qed.

End Turns.

Section Response.

Variable E : Env.

(** A participant's turn never raises: it returns an update, and that
    update is a turn of the state the generator left. *)
Lemma response_shape st a w :
  known_agent a -> Forall known_agent (active_agents st) ->
  NoDup (active_agents st) -> 2 ≤ length (active_agents st) ->
  ledger_ok (active_agents st) (questions_asked st) ->
  exists u st' w',
    _generate_agent_response E st a w = (Ok u, st', w')
    ∧ cache_step st a st' ∧ rag_step st a w w' ∧ turn E st' a u.
Proof.
  intros Hka Hknown Hnd Hlen Hok. pose proof Hka as [info Hinfo].
  unfold _generate_agent_response.
  destruct (deepseek_ready E) eqn:Hready; simpl.
  2:{ unfold apology. rewrite Hinfo. eexists _, _, _. split; [done|].
      split; [by left|]. split; [by left|]. constructor.
      intros _ [Hr _]. congruence. }
  set (res := match current_stage st with
              | opening => _generate_opening_statement E st a w
              | questioning =>
                  if waiting_for_answer st
                     && bool_decide (current_target st = a)
                  then _generate_answer E st a w
                  else _generate_question E st a w
              | free_debate => _generate_free_debate_response E st a w
              | closing => _generate_closing_statement E st a w
              end).
  assert (Hgen : generated E st a w res).
  { unfold res. destruct (current_stage st) eqn:Hst.
    - by apply generated_opening.
    - destruct (waiting_for_answer st) eqn:Hwait; simpl.
      + case_bool_decide.
        * by apply generated_answer.
        * apply generated_question; auto.
      + apply generated_question; auto.
    - by apply generated_free_debate.
    - by apply generated_closing. }
  destruct res as [[[u|e] st'] w']; destruct Hgen as (Hc & Hr & Hturn);
    simpl in *.
  - eauto 10.
  - unfold apology. rewrite Hinfo. eexists _, _, _. split; [done|].
    split; [done|]. split; [done|].
    rewrite (cache_step_counters _ _ _ _ Hc). constructor.
    by destruct Hc as [->|(_ & _ & ctx & ->)].
Qed.

End Response.

(** ** The scheduler *)

Lemma count_snoc f tr ev :
  count f (tr ++ [ev]) = count f tr + (if f ev then 1 else 0).
Proof.
  unfold count. rewrite filter_app, length_app. f_equal.
  rewrite filter_cons, filter_nil. by destruct (f ev).
Qed.

Lemma failed_statement_snoc st tr ev a :
  failed_statement st (tr ++ [ev]) a
  <-> failed_statement st tr a
      ∨ (ev_node ev = Agent a ∧ ev_stage ev = st ∧ no_statement ev = true).
Proof.
  unfold failed_statement. split.
  - intros (ev' & Hin & H). apply elem_of_app in Hin as [Hin|Hin].
    + left. eauto.
    + apply list_elem_of_singleton in Hin as ->. by right.
  - intros [(ev' & Hin & H)|H].
    + exists ev'. split; [|done]. apply elem_of_app. by left.
    + exists ev. split; [|done]. apply elem_of_app. right. by left.
Qed.

Lemma count_said_silent s tr ev :
  is_spoken ev = false ->
  count (spoken_in s) (tr ++ [ev]) = count (spoken_in s) tr.
Proof. intros Hsp. rewrite count_snoc. unfold spoken_in. rewrite Hsp. simpl. lia. Qed.

Lemma count_said_spoken s tr ev :
  is_spoken ev = true ->
  count (spoken_in s) (tr ++ [ev])
  = count (spoken_in s) tr + (if bool_decide (ev_stage ev = s) then 1 else 0).
Proof. intros Hsp. rewrite count_snoc. unfold spoken_in. by rewrite Hsp. Qed.

Lemma div_round p N R : N ≠ 0 -> p / N + 1 ≤ R <-> p < N * R.
Proof.
  intros HN. split; intros H.
  - pose proof (Nat.mul_succ_div_gt p N HN). nia.
  - enough (p / N < R) by lia. by apply Nat.Div0.div_lt_upper_bound.
Qed.

Section Determine.

Variable E : Env.

Lemma agent_at_lookup agents i :
  i < length agents ->
  exists a, agents !! i = Some a ∧ agent_at agents i = Ok (Agent a).
Proof.
  intros Hi. destruct (lookup_lt_is_Some_2 agents i Hi) as [a Ha].
  exists a. unfold agent_at. by rewrite Ha.
Qed.

Lemma determine_follows_rule (state : State) (w : World) :
  current_stage state ≠ questioning ->
  (current_stage state = free_debate -> active_agents state ≠ []) ->
  exists next, next_actor_rule state = Some next
               ∧ determine_next_node E state w = (Ok next, w).
Proof.
  intros Hq Hne. unfold next_actor_rule, determine_next_node.
  destruct (current_stage state) eqn:Hst; [|done| |].
  - destruct (decide (stage_progress state < length (active_agents state)))
      as [Hlt|Hge]; [|eauto].
    destruct (agent_at_lookup _ _ Hlt) as (a & Ha & ->).
    rewrite Ha. eauto.
  - specialize (Hne eq_refl).
    assert (HN : length (active_agents state) ≠ 0)
      by (revert Hne; destruct (active_agents state);
          [intros []; reflexivity|intros _; simpl; lia]).
    destruct (decide (length (active_agents state) = 0)); [done|].
    destruct (decide (_ ≤ max_rounds state)); [|eauto].
    destruct (agent_at_lookup (active_agents state)
                (stage_progress state mod length (active_agents state)))
      as (a & Ha & ->).
    { by apply Nat.mod_upper_bound. }
    rewrite Ha. eauto.
  - destruct (decide (stage_progress state < length (active_agents state)))
      as [Hlt|Hge]; [|eauto].
    destruct (agent_at_lookup _ _ Hlt) as (a & Ha & ->).
    rewrite Ha. eauto.
Qed.

(** The scheduler never raises on a well-formed state, leaves the call log
    alone, and returns what the rule of the stage says. *)
Lemma determine_spec st w :
  NoDup (active_agents st) -> 2 ≤ length (active_agents st) ->
  ledger_ok (active_agents st) (questions_asked st) ->
  exists next w',
    determine_next_node E st w = (Ok next, w')
    ∧ rag_calls w' = rag_calls w
    ∧ match current_stage st with
      | questioning => questioning_next st next
      | _ => next_actor_rule st = Some next ∧ w' = w
      end.
Proof.
  intros Hnd Hlen Hok.
  destruct (decide (current_stage st = questioning)) as [Hq|Hq].
  - unfold determine_next_node, questioning_next. rewrite Hq.
    destruct (waiting_for_answer st).
    + unfold target_ok. destruct (decide _); eauto.
    + destruct (decide _); [|eauto].
      destruct (select_spec E _ _ w Hnd Hok Hlen)
        as (cq & ct & q & t & [_ Hcq] & Hq' & _ & _ & ->).
      eexists _, _. split; [done|]. split; [done|].
      exists q. split; [done|]. apply Hcq. by eapply list_elem_of_lookup_2.
  - destruct (determine_follows_rule st w) as (next & Hrule & Hdet); [done|..].
    { intros _ Hnil. rewrite Hnil in Hlen. simpl in Hlen. lia. }
    exists next, w. split; [done|]. split; [done|].
    by destruct (current_stage st).
Qed.

End Determine.

(** ** The invariant: start and transitions *)

Section Preservation.

Variable E : Env.

Lemma Inv_start agents R topic enable_rag max_refs :
  2 ≤ length agents ->
  Inv agents R (start agents (inputs topic R agents enable_rag max_refs)).
Proof.
  intros Hlen.
  assert (Hno : forall s a, ¬ failed_statement s [] a).
  { intros s a (ev & Hev & _). by apply elem_of_nil in Hev. }
  apply Build_Inv; simpl.
  - done.
  - done.
  - done.
  - intros qa Hqa. by apply elem_of_nil in Hqa.
  - constructor.
  - lia.
  - intros a Ha. by apply elem_of_nil in Ha.
  - constructor.
  - intros a Ha. by apply elem_of_nil in Ha.
  - split.
    + intros a. rewrite lookup_empty. unfold opened. simpl. split.
      * by intros [? ?].
      * intros [Ha _]. by apply elem_of_nil in Ha.
    + intros a Ha. by apply Hno in Ha.
  - split.
    + intros a. rewrite lookup_empty. unfold closed. simpl. split.
      * by intros [? ?].
      * intros [Ha _]. by apply elem_of_nil in Ha.
    + intros a Ha. by apply Hno in Ha.
  - unfold stage_inv, next_actor_rule. simpl.
    destruct agents as [|a0 rest]; [simpl in Hlen; lia|]. simpl.
    repeat split; try done; lia.
  - unfold stage_counts. simpl. done.
Qed.

Lemma transition_event_counts t s tr :
  let ev := mkEvent (Transition t) s (transition_update t) in
  count is_spoken (tr ++ [ev]) = count is_spoken tr
  ∧ count is_wasted (tr ++ [ev]) = count is_wasted tr
  ∧ count is_transition (tr ++ [ev]) = count is_transition tr + 1
  ∧ forall s' a, failed_statement s' (tr ++ [ev]) a
                 <-> failed_statement s' tr a.
Proof.
  intros ev. rewrite !count_snoc. repeat split; try (simpl; lia).
  - rewrite failed_statement_snoc. intros [?|[? _]]; done.
  - intros ?. rewrite failed_statement_snoc. by left.
Qed.

Lemma Inv_transition agents R c t c' :
  NoDup agents -> 2 ≤ length agents ->
  Inv agents R c -> node c = Transition t ->
  step E agents c = Some c' -> Inv agents R c'.
Proof.
  intros Hnd Hlen HI Hnode Hstep.
  destruct HI as [Hag Hro Htot Hled Hqn Hqlen Hcached Hcnd Hcalls Hopen Hclose
                  Hstage Hcounts].
  destruct c as [nd st w tr].
  simpl in *. subst nd agents R. unfold step in Hstep. simpl in Hstep.
  unfold handle_stage_transition in Hstep.
  destruct (transition_event_counts t (current_stage st) tr)
    as (Hsp & Hwa & Htr & Hfail).
  assert (Ht : (current_stage st = opening ∧ t = questioning
                ∧ stage_progress st = length (active_agents st))
               ∨ (current_stage st = questioning ∧ t = free_debate
                  ∧ waiting_for_answer st = false
                  ∧ length (questions_asked st) = length (active_agents st))
               ∨ (current_stage st = free_debate ∧ t = closing
                  ∧ stage_progress st = length (active_agents st) * max_rounds st)).
  { unfold stage_inv in Hstage. simpl in Hstage.
    unfold next_actor_rule, questioning_next in Hstage.
    destruct (current_stage st).
    - destruct Hstage as (_ & _ & _ & Hp & _ & Hrule).
      destruct (decide _); [by destruct (_ !! _)|]. simplify_eq.
      left. repeat split; lia.
    - destruct Hstage as (_ & _ & _ & Hw & Hnext).
      destruct (waiting_for_answer st).
      + destruct (Hw eq_refl) as [Hok _]. by rewrite decide_True in Hnext.
      + destruct (decide _); [by destruct Hnext as (? & ? & _)|].
        simplify_eq. right. left. repeat split; lia.
    - destruct Hstage as (_ & _ & Hp & _ & Hrule).
      destruct (decide _) as [Hr|Hr]; [by destruct (_ !! _)|].
      simplify_eq. right. right. repeat split; [done..|].
      rewrite div_round in Hr by lia. lia.
    - destruct Hstage as (_ & _ & _ & _ & Hrule).
      destruct (decide _); [by destruct (_ !! _)|done]. }
  destruct (determine_spec E (merge st (transition_update t)) w)
    as (next & w' & Hdet & Hrag & Hnext).
  { done. }
  { done. }
  { simpl.
    destruct Ht as [(_ & -> & _)|[(_ & -> & _)|(_ & -> & _)]]; simpl;
      [|done..]. intros qa Hqa. by apply elem_of_nil in Hqa. }
  rewrite Hdet in Hstep.
  destruct Ht as [(Hst & -> & Hp)|[(Hst & -> & Hwait & Hqs)|(Hst & -> & Hp)]];
    simpl in Hstep; simplify_eq.
  - (* opening -> questioning *)
    unfold stage_inv in Hstage. simpl in Hstage.
    rewrite Hst in Hstage.
    destruct Hstage as (HK & HW & HS & _ & Hnil & _).
    apply Build_Inv; simpl.
    + done.
    + done.
    + by rewrite Hsp.
    + intros qa Hqa. by apply elem_of_nil in Hqa.
    + constructor.
    + lia.
    + done.
    + by rewrite Hrag.
    + rewrite Hrag. intros a Ha. apply Hcalls in Ha.
      unfold opened in *. simpl in *. rewrite Hst in *. simpl in *.
      by eapply subseteq_take.
    + destruct Hopen as [Hiff Hf]. unfold opened in *. simpl in *.
      rewrite Hst in *. simpl in *. rewrite Hp in *.
      rewrite take_ge in * by lia. split.
      * intros a. rewrite Hfail. apply Hiff.
      * intros a. rewrite Hfail. apply Hf.
    + destruct Hclose as [Hiff Hf]. unfold closed in *. simpl in *.
      rewrite Hst in *. simpl in *. split.
      * intros a. rewrite Hfail. apply Hiff.
      * intros a. rewrite Hfail. apply Hf.
    + unfold stage_inv. simpl. rewrite Hsp, Hwa, Htr.
      simpl in Hnext. repeat split; try done; lia.
    + unfold stage_counts in *. simpl in *.
      rewrite !count_said_silent, ?Hwa by done. rewrite Hst in Hcounts.
      destruct Hcounts as (? & ? & ? & ?). repeat split; lia.
  - (* questioning -> free debate *)
    unfold stage_inv in Hstage. simpl in Hstage.
    rewrite Hst, Hwait in Hstage.
    destruct Hstage as (HK & HS & HP & _ & _).
    apply Build_Inv; simpl.
    + done.
    + done.
    + by rewrite Hsp.
    + done.
    + done.
    + done.
    + done.
    + by rewrite Hrag.
    + rewrite Hrag. intros a Ha. apply Hcalls in Ha.
      unfold opened in *. simpl in *. by rewrite Hst in *.
    + destruct Hopen as [Hiff Hf]. unfold opened in *. simpl in *.
      rewrite Hst in *. simpl in *. split.
      * intros a. rewrite Hfail. apply Hiff.
      * intros a. rewrite Hfail. apply Hf.
    + destruct Hclose as [Hiff Hf]. unfold closed in *. simpl in *.
      rewrite Hst in *. simpl in *. split.
      * intros a. rewrite Hfail. apply Hiff.
      * intros a. rewrite Hfail. apply Hf.
    + unfold stage_inv. simpl. rewrite Hsp, Hwa, Htr.
      simpl in Hnext. destruct Hnext as [Hnext _].
      repeat split; try done; lia.
    + unfold stage_counts in *. simpl in *.
      rewrite !count_said_silent, ?Hwa by done. rewrite Hst in Hcounts.
      destruct Hcounts as (? & ? & ? & ?). repeat split; lia.
  - (* free debate -> closing *)
    unfold stage_inv in Hstage. simpl in Hstage.
    rewrite Hst in Hstage.
    destruct Hstage as (HK & HS & _ & Hqs & _).
    apply Build_Inv; simpl.
    + done.
    + done.
    + by rewrite Hsp.
    + done.
    + done.
    + done.
    + done.
    + by rewrite Hrag.
    + rewrite Hrag. intros a Ha. apply Hcalls in Ha.
      unfold opened in *. simpl in *. by rewrite Hst in *.
    + destruct Hopen as [Hiff Hf]. unfold opened in *. simpl in *.
      rewrite Hst in *. simpl in *. split.
      * intros a. rewrite Hfail. apply Hiff.
      * intros a. rewrite Hfail. apply Hf.
    + destruct Hclose as [Hiff Hf]. unfold closed in *. simpl in *.
      rewrite Hst in *. simpl in *. split.
      * intros a. rewrite Hfail. apply Hiff.
      * intros a. rewrite Hfail. apply Hf.
    + unfold stage_inv. simpl. rewrite Hsp, Hwa, Htr.
      simpl in Hnext. destruct Hnext as [Hnext _].
      repeat split; try done; lia.
    + unfold stage_counts in *. simpl in *.
      rewrite !count_said_silent, ?Hwa by done. rewrite Hst in Hcounts.
      destruct Hcounts as (? & ? & ? & ?). repeat split; lia.
Qed.

End Preservation.

(** ** The ledger *)

Lemma set_last_answer_snoc l x r :
  set_last_answer (l ++ [x]) r
  = l ++ [mkQA (questioner x) (target x) (question x) r].
Proof.
  unfold set_last_answer. rewrite reverse_snoc. by rewrite reverse_involutive.
Qed.

Lemma set_last_answer_facts qs r :
  questioner <$> set_last_answer qs r = questioner <$> qs
  ∧ target <$> set_last_answer qs r = target <$> qs
  ∧ length (set_last_answer qs r) = length qs.
Proof.
  destruct qs as [|x l _] using rev_ind; [done|].
  rewrite set_last_answer_snoc, !fmap_app, !length_app. done.
Qed.

Lemma ledger_ok_alt agents qs :
  ledger_ok agents qs
  <-> (forall a, a ∈ questioner <$> qs -> a ∈ agents)
      ∧ (forall a, a ∈ target <$> qs -> a ∈ agents).
Proof.
  unfold ledger_ok. split.
  - intros H. split; intros a (qa & -> & Hqa)%list_elem_of_fmap;
      by apply H in Hqa as [? ?].
  - intros [Hq Ht] qa Hqa. split; [apply Hq|apply Ht];
      apply list_elem_of_fmap; eauto.
Qed.

Lemma ledger_ok_answer agents qs r :
  ledger_ok agents qs -> ledger_ok agents (set_last_answer qs r).
Proof.
  rewrite !ledger_ok_alt.
  destruct (set_last_answer_facts qs r) as (-> & -> & _). done.
Qed.

Lemma ledger_ok_snoc agents qs qa :
  ledger_ok agents qs -> questioner qa ∈ agents -> target qa ∈ agents ->
  ledger_ok agents (qs ++ [qa]).
Proof.
  intros Hok Hq Ht x Hx. apply elem_of_app in Hx as [Hx|Hx]; [by apply Hok|].
  by apply list_elem_of_singleton in Hx as ->.
Qed.

Lemma authored_pos qs a : a ∈ questioner <$> qs <-> 0 < authored qs a.
Proof.
  unfold authored. induction qs as [|qa qs IH].
  - simpl. split; [by intros ?%elem_of_nil|lia].
  - rewrite fmap_cons, elem_of_cons, filter_cons, IH.
    destruct (decide (questioner qa = a)) as [->|Hne]; simpl.
    + split; [lia|auto].
    + split; [by intros [?|?]|auto].
Qed.

Lemma authored_NoDup qs a : NoDup (questioner <$> qs) -> authored qs a ≤ 1.
Proof.
  unfold authored. induction qs as [|qa qs IH]; [simpl; lia|].
  rewrite fmap_cons. intros [Hnotin Hnd]%NoDup_cons. rewrite filter_cons.
  destruct (decide (questioner qa = a)) as [Heq|Hne]; simpl; [|auto].
  rewrite Heq, authored_pos in Hnotin. unfold authored in Hnotin. lia.
Qed.

(** A participant with the fewest questions asked has asked none while
    the ledger is shorter than the list of participants. *)
Lemma min_authored_fresh agents qs a :
  NoDup agents -> ledger_ok agents qs ->
  NoDup (questioner <$> qs) -> length qs < length agents ->
  min_authored agents qs a -> a ∉ questioner <$> qs.
Proof.
  intros Hnd Hok Hq Hlen [Ha Hmin] Hin.
  destruct (decide (Forall (fun b => b ∈ questioner <$> qs) agents))
    as [Hall|Hex].
  - rewrite Forall_forall in Hall.
    pose proof (NoDup_submseteq _ _ Hnd Hall) as Hle.
    apply submseteq_length in Hle. rewrite length_fmap in Hle. lia.
  - apply not_Forall_Exists in Hex; [|apply _].
    apply Exists_exists in Hex as (b & Hb & Hnb).
    specialize (Hmin b Hb). simpl in Hnb.
    rewrite authored_pos in Hin, Hnb. lia.
Qed.

(** A full ledger without a repeated questioner has every participant as
    questioner exactly once. *)
Lemma full_ledger_once agents qs a :
  NoDup agents -> ledger_ok agents qs ->
  NoDup (questioner <$> qs) -> length qs = length agents ->
  a ∈ agents -> authored qs a = 1.
Proof.
  intros Hnd Hok Hq Hlen Ha.
  pose proof (authored_NoDup qs a Hq) as Hle.
  enough (0 < authored qs a) by lia. apply authored_pos.
  apply ledger_ok_alt in Hok as [Hsub _].
  pose proof (NoDup_submseteq _ _ Hq Hsub) as Hsm.
  apply submseteq_length_Permutation in Hsm;
    [|rewrite length_fmap; lia].
  by rewrite Hsm.
Qed.

(** ** The step of a participant's node *)

Section AgentStep.

Variable E : Env.

Lemma cache_step_core st a st' :
  cache_step st a st' ->
  active_agents st' = active_agents st
  ∧ questions_asked st' = questions_asked st
  ∧ current_stage st' = current_stage st.
Proof. by intros [->|(_ & _ & ctx & ->)]. Qed.

Lemma turn_merge_ok st a u :
  turn E st a u -> a ∈ active_agents st ->
  ledger_ok (active_agents st) (questions_asked st) ->
  ledger_ok (active_agents st) (questions_asked (merge st u)).
Proof.
  intros Hturn Ha Hok. destruct Hturn; simpl; try done.
  - by apply ledger_ok_snoc.
  - by apply ledger_ok_answer.
Qed.

Lemma scheduled_of_spec st next (w' w : World) :
  match current_stage st with
  | questioning => questioning_next st next
  | _ => next_actor_rule st = Some next ∧ w' = w
  end -> scheduled st next.
Proof. unfold scheduled. destruct (current_stage st); tauto. Qed.

(** The step of a participant's node, in a configuration of the
    invariant, is one of the two of [agent_step]. *)
Lemma agent_step_cases agents R c a c' :
  NoDup agents -> Forall known_agent agents -> 2 ≤ length agents ->
  Inv agents R c -> node c = Agent a ->
  step E agents c = Some c' ->
  a ∈ agents ∧ agent_step E c a c'.
Proof.
  intros Hnd Hknown Hlen HI Hnode Hstep.
  destruct HI as [Hag Hro Htot Hled Hqn Hqlen Hcached Hcnd Hcalls Hopen Hclose
                  Hstage Hcounts].
  destruct c as [nd st w tr]. simpl in *. subst nd agents R.
  unfold step in Hstep. simpl in Hstep.
  destruct (decide (a ∈ active_agents st)) as [Hin|]; [|done].
  split; [done|].
  destruct (agent_node E a st w) as [[cmd st1] w1] eqn:Hrun.
  simplify_eq. unfold agent_node in Hrun.
  destruct (determine_spec E st w Hnd Hlen Hled)
    as (next & w0 & Hdet & Hrag0 & Hnext).
  rewrite Hdet in Hrun.
  assert (Hcase : next = Agent a
            ∨ (current_stage st = questioning
               ∧ waiting_for_answer st = false
               ∧ length (questions_asked st) < length (active_agents st)
               ∧ exists q, next = Agent q ∧ q ≠ a
                   ∧ min_authored (active_agents st) (questions_asked st) q)).
  { unfold stage_inv in Hstage. simpl in Hstage.
    destruct (current_stage st).
    - destruct Hstage as (_ & _ & _ & _ & _ & Hrule).
      destruct Hnext as [Hnext _]. left. congruence.
    - destruct Hstage as (_ & _ & _ & Hw & Hn).
      unfold questioning_next in *.
      destruct (waiting_for_answer st).
      + destruct (Hw eq_refl) as [Hok _].
        destruct (decide (target_ok st)); [left; congruence|done].
      + destruct (decide (length (questions_asked st)
                            < length (active_agents st))); [|done].
        destruct Hnext as (q & -> & Hq).
        destruct (decide (q = a)) as [->|Hne]; [by left|].
        right. eauto 10.
    - destruct Hstage as (_ & _ & _ & _ & Hrule).
      destruct Hnext as [Hnext _]. left. congruence.
    - destruct Hstage as (_ & _ & _ & _ & Hrule).
      destruct Hnext as [Hnext _]. left. congruence. }
  destruct Hcase as [->|(Hst & Hwait & Hl & q & -> & Hne & Hq)].
  - simpl in Hrun. rewrite decide_False in Hrun by (intros H; by apply H).
    assert (Hka : known_agent a)
      by (rewrite Forall_forall in Hknown; auto).
    destruct (response_shape E st a w0 Hka Hknown Hnd Hlen Hled)
      as (u & st' & w2 & Hresp & Hc & Hr & Hturn).
    rewrite Hresp in Hrun.
    destruct (cache_step_core _ _ _ Hc) as (Hag' & Hqs' & Hst').
    destruct (determine_spec E (merge st' u) w2)
      as (next' & w3 & Hdet' & Hrag3 & Hnext').
    { simpl. by rewrite Hag'. }
    { simpl. by rewrite Hag'. }
    { change (active_agents (merge st' u)) with (active_agents st').
      apply (turn_merge_ok st' a u); rewrite ?Hag', ?Hqs'; done. }
    rewrite Hdet' in Hrun. injection Hrun as <- <- <-. simpl.
    apply (step_turn E (mkConfig (Agent a) st w tr) a u st' w2 next' w3);
      simpl; try done.
    + destruct Hr as [Hr|(? & ? & Hr)]; [left|right]; rewrite Hr, ?Hrag0;
        auto.
    + by eapply scheduled_of_spec.
  - simpl in Hrun. rewrite decide_True in Hrun by congruence.
    injection Hrun as <- <- <-. simpl.
    by apply (step_hop E (mkConfig (Agent a) st w tr) a q w0).
Qed.

End AgentStep.

(** ** The invariant: turns *)

Section TurnFacts.

Variable E : Env.

Lemma turn_event st a u s :
  turn E st a u ->
  is_spoken (mkEvent (Agent a) s u) = true
  ∧ is_transition (mkEvent (Agent a) s u) = false.
Proof. by destruct 1. Qed.

Lemma hop_event a s :
  let ev := mkEvent (Agent a) s (update_messages []) in
  is_spoken ev = false ∧ is_transition ev = false ∧ is_wasted ev = false
  ∧ no_statement ev = false.
Proof. done. Qed.

Lemma not_in_take (agents : list string) p a :
  NoDup agents -> agents !! p = Some a -> a ∉ take p agents.
Proof.
  intros Hnd Hp (i & Hi & Hlt)%elem_of_take.
  pose proof (NoDup_lookup _ _ _ _ Hnd Hi Hp). lia.
Qed.

(** The marked participants stay cached over a turn. *)
Lemma cached_step st a st' u :
  (forall b, b ∈ first_round_rag_completed st ->
             is_Some (agent_paper_cache st !! b)) ->
  cache_step st a st' -> turn E st' a u ->
  forall b, b ∈ first_round_rag_completed (commit st' u) ->
            is_Some (agent_paper_cache (commit st' u) !! b).
Proof.
  intros Hcached Hc Hturn.
  assert (Hst' : forall b, b ∈ first_round_rag_completed st' ->
                           is_Some (agent_paper_cache st' !! b)).
  { destruct Hc as [->|(_ & _ & ctx & ->)]; [done|]. simpl.
    intros b [Hb|Hb%list_elem_of_singleton]%elem_of_app.
    - destruct (decide (a = b)) as [->|Hne].
      + rewrite lookup_insert_eq. eauto.
      + rewrite lookup_insert_ne by done. auto.
    - subst b. rewrite lookup_insert_eq. eauto. }
  destruct Hturn; simpl; try done. by destruct cached.
Qed.

End TurnFacts.

Section Turn.

Variable E : Env.

Lemma statements_inv_same stmts over tr ev s :
  (ev_stage ev ≠ s ∨ no_statement ev = false) ->
  statements_inv stmts over (failed_statement s tr) ->
  statements_inv stmts over (failed_statement s (tr ++ [ev])).
Proof.
  intros Hev [Hiff Hf].
  assert (Hsame : forall a, failed_statement s (tr ++ [ev]) a
                            <-> failed_statement s tr a).
  { intros a. rewrite failed_statement_snoc. split; [|by left].
    intros [?|(_ & Hs & Hno)]; [done|]. destruct Hev; congruence. }
  split; intros a; rewrite Hsame; auto.
Qed.

Lemma Inv_hop agents R c a q w1 :
  Inv agents R c -> node c = Agent a ->
  current_stage (cstate c) = questioning ->
  waiting_for_answer (cstate c) = false ->
  length (questions_asked (cstate c)) < length (active_agents (cstate c)) ->
  min_authored (active_agents (cstate c)) (questions_asked (cstate c)) q ->
  rag_calls w1 = rag_calls (world c) ->
  Inv agents R
    (mkConfig (Agent q) (commit (cstate c) (update_messages [])) w1
       (trace c ++ [mkEvent (Agent a) (current_stage (cstate c))
                            (update_messages [])])).
Proof.
  intros HI Hnode Hst Hwait Hl Hq Hrag.
  destruct HI as [Hag Hro Htot Hled Hqn Hqlen Hcached Hcnd Hcalls Hopen Hclose
                  Hstage Hcounts].
  destruct c as [nd st w tr]. simpl in *. subst nd agents R.
  destruct (hop_event a (current_stage st)) as (Hsp & Htr & Hwa & Hno).
  apply Build_Inv; simpl.
  - done.
  - done.
  - rewrite count_snoc, Hsp. lia.
  - done.
  - done.
  - done.
  - done.
  - by rewrite Hrag.
  - rewrite Hrag. intros b Hb. apply Hcalls in Hb.
    unfold opened in *. simpl. by rewrite Hst in *.
  - unfold opened in *. simpl. rewrite Hst in *. simpl in *.
    apply statements_inv_same; [by right|done].
  - unfold closed in *. simpl. rewrite Hst in *. simpl in *.
    apply statements_inv_same; [by right|done].
  - unfold stage_inv in *. simpl in *. rewrite !count_snoc, Hsp, Htr, Hwa.
    rewrite Hst, Hwait in *.
    destruct Hstage as (HK & HS & HP & Hw & Hn).
    repeat split; try lia; try done.
    unfold questioning_next. simpl. rewrite Hwait.
    rewrite decide_True by done. eauto.
  - unfold stage_counts in *. simpl in *.
    rewrite !count_said_silent by done. rewrite count_snoc, Hwa.
    by rewrite Hst in *.
Qed.

End Turn.

Section TurnCore.

Variable E : Env.

(** What every turn does to the fields the scheduler reads. *)
Lemma turn_commit_core st a st' u :
  cache_step st a st' -> turn E st' a u ->
  current_stage (commit st' u) = current_stage st
  ∧ stage_progress (commit st' u) = stage_progress st + 1
  ∧ total_messages (commit st' u) = total_messages st + 1
  ∧ active_agents (commit st' u) = active_agents st
  ∧ max_rounds (commit st' u) = max_rounds st.
Proof.
  intros Hc Hturn.
  destruct Hc as [->|(_ & _ & ctx & ->)]; by destruct Hturn.
Qed.

Lemma calls_step st a st' u w w2 :
  NoDup (active_agents st) -> NoDup (rag_calls w) ->
  (forall b, b ∈ rag_calls w -> b ∈ opened st) ->
  (current_stage st = opening ->
   active_agents st !! stage_progress st = Some a) ->
  cache_step st a st' -> turn E st' a u -> rag_step st a w w2 ->
  NoDup (rag_calls w2)
  ∧ forall b, b ∈ rag_calls w2 -> b ∈ opened (commit st' u).
Proof.
  intros Hnd Hcnd Hcalls Hat Hc Hturn Hr.
  destruct (turn_commit_core _ _ _ _ Hc Hturn) as (Hst & Hp & _ & Hag & _).
  unfold opened in *. rewrite Hst, Hp, Hag.
  destruct (decide (current_stage st = opening)) as [Hop|Hop].
  - specialize (Hat Hop). replace (stage_progress st + 1)
      with (S (stage_progress st)) by lia.
    rewrite (take_S_r _ _ _ Hat).
    pose proof (not_in_take _ _ _ Hnd Hat) as Hnotin.
    destruct Hr as [->|(_ & _ & ->)].
    + split; [done|]. intros b Hb. apply elem_of_app. left. auto.
    + split.
      * apply NoDup_app. split; [done|]. split; [|apply NoDup_singleton].
        intros b Hb ->%list_elem_of_singleton. auto.
      * intros b [Hb|Hb]%elem_of_app; apply elem_of_app; auto.
  - destruct Hr as [->|(? & _)]; done.
Qed.

End TurnCore.

Lemma statements_inv_iff stmts over (f g : string -> Prop) :
  (forall b, f b <-> g b) ->
  statements_inv stmts over f -> statements_inv stmts over g.
Proof.
  intros Hfg [Hiff Hf]. split; intros b; rewrite <- Hfg; auto.
Qed.

(** The turn of [a] failed: the archive stays, [a] joins the failed. *)
Lemma statements_inv_failed stmts over (failed : string -> Prop) a :
  a ∉ over -> statements_inv stmts over failed ->
  statements_inv stmts (over ++ [a]) (fun b => failed b ∨ b = a).
Proof.
  intros Hnotin [Hiff Hf]. split; intros b.
  - rewrite Hiff, elem_of_app, list_elem_of_singleton. split.
    + intros [Hb Hnf]. split; [by left|]. intros [?| ->]; done.
    + intros [[Hb| ->] Hnf]; [|tauto]. split; [done|tauto].
  - rewrite elem_of_app, list_elem_of_singleton. intros [?| ->]; auto.
Qed.

(** The turn of [a] archived a statement. *)
Lemma statements_inv_archived stmts over (failed : string -> Prop) a r :
  a ∉ over -> statements_inv stmts over failed ->
  statements_inv (<[a := r]> stmts) (over ++ [a]) failed.
Proof.
  intros Hnotin [Hiff Hf]. split; intros b.
  - rewrite elem_of_app, list_elem_of_singleton.
    destruct (decide (a = b)) as [->|Hne].
    + rewrite lookup_insert_eq. split; [|eauto].
      intros _. split; [by right|]. intros Hb. by apply Hf in Hb.
    + rewrite lookup_insert_ne, Hiff by done. split.
      * intros [? ?]. auto.
      * intros [[?| ->] ?]; done.
  - intros Hb. apply elem_of_app. left. auto.
Qed.

Section Statements.

Variable E : Env.

Lemma opening_statements_step st a st' u tr :
  NoDup (active_agents st) ->
  (current_stage st = opening ->
   active_agents st !! stage_progress st = Some a) ->
  cache_step st a st' -> turn E st' a u ->
  statements_inv (opening_statements st) (opened st)
                 (failed_statement opening tr) ->
  statements_inv (opening_statements (commit st' u)) (opened (commit st' u))
    (failed_statement opening
       (tr ++ [mkEvent (Agent a) (current_stage st) u])).
Proof.
  intros Hnd Hat Hc Hturn Hinv.
  destruct (turn_commit_core E _ _ _ _ Hc Hturn) as (Hst & Hp & _ & Hag & _).
  destruct (cache_step_core _ _ _ Hc) as (_ & _ & Hst').
  unfold opened in *. rewrite Hst, Hp, Hag.
  destruct (decide (current_stage st = opening)) as [Hop|Hop].
  - specialize (Hat Hop). replace (stage_progress st + 1)
      with (S (stage_progress st)) by lia.
    rewrite (take_S_r _ _ _ Hat).
    pose proof (not_in_take _ _ _ Hnd Hat) as Hnotin.
    assert (Hos : opening_statements st' = opening_statements st)
      by (by destruct Hc as [->|(_ & _ & ctx & ->)]).
    destruct Hturn; simpl; rewrite ?Hos; try congruence.
    + eapply statements_inv_iff;
        [|by apply statements_inv_failed].
      intros b. rewrite failed_statement_snoc. simpl.
      split; intros [?|Hev]; auto.
      * subst b. right. by rewrite Hop.
      * right. destruct Hev as (Hev & _). congruence.
    + apply statements_inv_same; [by right|].
      by apply statements_inv_archived.
  - assert (Hos : opening_statements (commit st' u) = opening_statements st).
    { destruct Hc as [->|(_ & _ & ctx & ->)]; destruct Hturn; simpl;
        congruence. }
    rewrite Hos. apply statements_inv_same; [by left|done].
Qed.

Lemma closing_statements_step st a st' u tr :
  NoDup (active_agents st) ->
  (current_stage st = closing ->
   active_agents st !! stage_progress st = Some a) ->
  cache_step st a st' -> turn E st' a u ->
  statements_inv (closing_statements st) (closed st)
                 (failed_statement closing tr) ->
  statements_inv (closing_statements (commit st' u)) (closed (commit st' u))
    (failed_statement closing
       (tr ++ [mkEvent (Agent a) (current_stage st) u])).
Proof.
  intros Hnd Hat Hc Hturn Hinv.
  destruct (turn_commit_core E _ _ _ _ Hc Hturn) as (Hst & Hp & _ & Hag & _).
  destruct (cache_step_core _ _ _ Hc) as (_ & _ & Hst').
  unfold closed in *. rewrite Hst, Hp, Hag.
  destruct (decide (current_stage st = closing)) as [Hop|Hop].
  - specialize (Hat Hop). replace (stage_progress st + 1)
      with (S (stage_progress st)) by lia.
    rewrite (take_S_r _ _ _ Hat).
    pose proof (not_in_take _ _ _ Hnd Hat) as Hnotin.
    assert (Hos : closing_statements st' = closing_statements st)
      by (by destruct Hc as [->|(_ & _ & ctx & ->)]).
    destruct Hturn; simpl; rewrite ?Hos; try congruence.
    + eapply statements_inv_iff;
        [|by apply statements_inv_failed].
      intros b. rewrite failed_statement_snoc. simpl.
      split; intros [?|Hev]; auto.
      * subst b. right. by rewrite Hop.
      * right. destruct Hev as (Hev & _). congruence.
    + apply statements_inv_same; [by right|].
      by apply statements_inv_archived.
  - assert (Hos : closing_statements (commit st' u) = closing_statements st).
    { destruct Hc as [->|(_ & _ & ctx & ->)]; destruct Hturn; simpl;
        congruence. }
    rewrite Hos. apply statements_inv_same; [by left|done].
Qed.

End Statements.

Lemma rule_agent_linear st a :
  current_stage st = opening ∨ current_stage st = closing ->
  next_actor_rule st = Some (Agent a) ->
  stage_progress st < length (active_agents st)
  ∧ active_agents st !! stage_progress st = Some a.
Proof.
  unfold next_actor_rule. intros [-> | ->] Hrule;
    (destruct (decide _); [|done]);
    (destruct (active_agents st !! stage_progress st) eqn:Hat;
     simplify_eq/=; done).
Qed.

Lemma rule_agent_free_debate st a :
  current_stage st = free_debate -> length (active_agents st) ≠ 0 ->
  next_actor_rule st = Some (Agent a) ->
  stage_progress st < length (active_agents st) * max_rounds st.
Proof.
  unfold next_actor_rule. intros -> HN Hrule.
  destruct (decide _) as [Hr|]; [|done]. by apply div_round in Hr.
Qed.

Section InvTurn.

Variable E : Env.

Lemma Inv_turn agents R c a u st' w2 next w3 :
  NoDup agents -> Forall known_agent agents -> 2 ≤ length agents ->
  Inv agents R c -> node c = Agent a -> a ∈ agents ->
  cache_step (cstate c) a st' ->
  rag_step (cstate c) a (world c) w2 ->
  turn E st' a u ->
  scheduled (merge st' u) next ->
  rag_calls w3 = rag_calls w2 ->
  Inv agents R
    (mkConfig next (commit st' u) w3
       (trace c ++ [mkEvent (Agent a) (current_stage (cstate c)) u])).
Proof.
  intros Hnd Hknown Hlen HI Hnode Hin Hc Hr Hturn Hsched Hrag.
  destruct HI as [Hag Hro Htot Hled Hqn Hqlen Hcached Hcnd Hcalls Hopen Hclose
                  Hstage Hcounts].
  destruct c as [nd st w tr]. simpl in *. subst nd agents R.
  destruct (turn_commit_core E _ _ _ _ Hc Hturn)
    as (Hst & Hp & Htotal & Hagents & Hrounds).
  destruct (cache_step_core _ _ _ Hc) as (Hag' & Hqs' & Hst').
  destruct (turn_event E _ _ _ (current_stage st) Hturn) as [Hsp Htr].
  unfold stage_inv in Hstage. simpl in Hstage.
  (* whom the rule designated *)
  assert (Hat : forall s, s = opening ∨ s = closing -> current_stage st = s ->
                  stage_progress st < length (active_agents st)
                  ∧ active_agents st !! stage_progress st = Some a).
  { intros s Hs Hcur. apply rule_agent_linear; [by rewrite Hcur|].
    rewrite Hcur in Hstage. destruct Hs as [-> | ->].
    - by destruct Hstage as (_ & _ & _ & _ & _ & ?).
    - by destruct Hstage as (_ & _ & _ & _ & ?). }
  (* the questioning stage: an answer is due from [a], or a question *)
  assert (Hquest : current_stage st = questioning ->
            if waiting_for_answer st then current_target st = a
            else length (questions_asked st) < length (active_agents st)).
  { intros Hcur. rewrite Hcur in Hstage.
    destruct Hstage as (_ & _ & _ & Hw & Hn). unfold questioning_next in Hn.
    destruct (waiting_for_answer st).
    - destruct (Hw eq_refl) as [Hok _].
      rewrite decide_True in Hn by done. congruence.
    - by destruct (decide (length (questions_asked st)
                           < length (active_agents st))). }
  (* the ledger after the turn *)
  assert (Hledger :
    ledger_ok (active_agents st) (questions_asked (commit st' u))
    ∧ NoDup (questioner <$> questions_asked (commit st' u))
    ∧ length (questions_asked (commit st' u)) ≤ length (active_agents st)).
  { destruct Hturn as [msg Hwhy|r cached Hs Hci|t r Hs Hwt Hmin Ht Hci
                       |r Hs Hwt Hct Hne Hci|r Hs Hci];
      simpl; rewrite ?Hqs'; try done.
    - rewrite Hst' in Hs. specialize (Hquest Hs).
      rewrite Hag', Hqs' in *.
      assert (Hw : waiting_for_answer st = false).
      { destruct (waiting_for_answer st) eqn:Hw; [|done].
        assert (waiting_for_answer st' = true ∧ current_target st' = a)
          as [? ?]
          by (by destruct Hc as [->|(_ & _ & ctx & ->)]).
        destruct Hwt; congruence. }
      rewrite Hw in Hquest. split; [|split].
      + by apply ledger_ok_snoc.
      + rewrite fmap_app. apply NoDup_app. split; [done|].
        split; [|apply NoDup_singleton].
        intros b Hb ->%list_elem_of_singleton. revert Hb.
        by apply (min_authored_fresh (active_agents st)).
      + rewrite length_app. simpl. lia.
    - destruct (set_last_answer_facts (questions_asked st) r)
        as (Hq1 & Hq2 & Hq3).
      rewrite Hq1, Hq3. split; [|done]. by apply ledger_ok_answer. }
  destruct Hledger as (Hled' & Hqn' & Hqlen').
  destruct (calls_step E st a st' u w w2) as [Hcnd' Hcalls']; try done.
  { intros Hcur. by apply (Hat opening); [left|]. }
  apply Build_Inv; simpl.
  - done.
  - done.
  - rewrite count_snoc, Hsp. destruct Hturn; simpl in *; lia.
  - done.
  - done.
  - done.
  - by apply (cached_step E st a).
  - by rewrite Hrag.
  - by rewrite Hrag.
  - apply (opening_statements_step E); try done.
    intros Hcur. by apply (Hat opening); [left|].
  - apply (closing_statements_step E); try done.
    intros Hcur. by apply (Hat closing); [right|].
  - unfold stage_inv. cbn [cstate node trace world].
    rewrite !count_snoc, Hsp, Htr.
    unfold scheduled in Hsched.
    change (current_stage (merge st' u))
      with (current_stage (commit st' u)) in Hsched.
    change (next_actor_rule (merge st' u))
      with (next_actor_rule (commit st' u)) in Hsched.
    change (questioning_next (merge st' u))
      with (questioning_next (commit st' u)) in Hsched.
    rewrite Hst in *. rewrite Hp.
    assert (Hwa : is_wasted (mkEvent (Agent a) (current_stage st) u)
                  = bool_decide (current_stage st = questioning)
                    && bool_decide (u_questions_asked u = None))
      by (unfold is_wasted; by rewrite Hsp).
    rewrite Hwa. clear Hwa.
    destruct (current_stage st) eqn:Hcur.
    + destruct Hstage as (HK & HW & HS & HP & Hnil & Hrule).
      destruct (Hat opening (or_introl eq_refl) eq_refl) as [Hlt _].
      assert (Hqs : questions_asked (commit st' u) = []).
      { destruct Hturn; simpl; congruence. }
      rewrite Hqs. simpl. repeat split; try lia; done.
    + destruct Hstage as (HK & HS & HP & Hw & Hn).
      specialize (Hquest eq_refl).
      assert (Hwt : waiting_for_answer st' = waiting_for_answer st
                    ∧ current_target st' = current_target st)
        by (by destruct Hc as [->|(_ & _ & ctx & ->)]).
      destruct Hwt as [Hwt Htg].
      destruct Hturn as [msg Hwhy|r cached Hs Hci|t r Hs Hwt' Hmin Ht Hci
                         |r Hs Hwt' Hct Hne Hci|r Hs Hci];
        simpl in *; try congruence.
      * rewrite Hwt, Hqs'. split; [lia|]. split; [lia|].
        split; [destruct (waiting_for_answer st); lia|].
        split; [|done]. intros Hw1. destruct (Hw Hw1) as [[Hne Hin'] Hqne].
        split; [|done]. unfold target_ok. simpl. by rewrite Htg, Hag'.
      * assert (Hw0 : waiting_for_answer st = false).
        { destruct (waiting_for_answer st); [|done].
          destruct Hwt'; congruence. }
        rewrite Hw0 in *. rewrite Hqs', length_app. simpl.
        split; [lia|]. split; [lia|]. split; [lia|]. split; [|done].
        intros _. split; [|by destruct (questions_asked st)].
        unfold target_ok. simpl. split; [|done].
        apply known_agent_nonempty.
        rewrite Forall_forall in Hknown. apply Hknown.
        by rewrite Hag' in Ht.
      * destruct (set_last_answer_facts (questions_asked st') r)
          as (_ & _ & Hq3).
        rewrite Hq3, Hqs'. rewrite <- Hwt, Hwt' in HP.
        split; [lia|]. split; [lia|]. split; [lia|]. split; [done|done].
    + destruct Hstage as (HK & HS & HP & Hqs & Hrule).
      pose proof (rule_agent_free_debate st a Hcur ltac:(lia) Hrule) as Hlt.
      assert (Hqs2 : questions_asked (commit st' u) = questions_asked st).
      { destruct Hturn; simpl; congruence. }
      rewrite Hqs2. simpl. repeat split; try lia; done.
    + destruct Hstage as (HK & HS & HP & Hqs & Hrule).
      destruct (Hat closing (or_intror eq_refl) eq_refl) as [Hlt _].
      assert (Hqs2 : questions_asked (commit st' u) = questions_asked st).
      { destruct Hturn; simpl; congruence. }
      rewrite Hqs2. simpl. repeat split; try lia; done.
  - unfold stage_counts in *. cbn [cstate node trace world] in *.
    rewrite !count_said_spoken, count_snoc by done.
    assert (Hwa : is_wasted (mkEvent (Agent a) (current_stage st) u)
                  = bool_decide (current_stage st = questioning)
                    && bool_decide (u_questions_asked u = None))
      by (unfold is_wasted; by rewrite Hsp).
    rewrite Hwa, Hst, Hp. cbn [ev_stage].
    destruct (current_stage st); simpl;
      destruct Hcounts as (? & ? & ? & ?); repeat split; lia.
Qed.

End InvTurn.

(** ** Runs *)

Section Reachable.

Variable E : Env.

Lemma step_Inv agents R c c' :
  NoDup agents -> Forall known_agent agents -> 2 ≤ length agents ->
  Inv agents R c -> step E agents c = Some c' -> Inv agents R c'.
Proof.
  intros Hnd Hknown Hlen HI Hstep.
  destruct (node c) as [a|t|] eqn:Hnode.
  - destruct (agent_step_cases E agents R c a c') as [Ha Hcases]; try done.
    destruct Hcases.
    + by apply Inv_hop.
    + by apply (Inv_turn E agents R c a u st' w2 next w3).
  - by apply (Inv_transition E agents R c t c').
  - unfold step in Hstep. by rewrite Hnode in Hstep.
Qed.

(** Every configuration of a run from a valid initial state satisfies the
    invariant. *)
Lemma reachable_Inv agents R topic enable_rag max_refs c :
  valid_config agents R ->
  reachable E agents (inputs topic R agents enable_rag max_refs) c ->
  Inv agents R c.
Proof.
  intros Hvalid Hreach.
  destruct (valid_config_facts _ _ Hvalid) as (Hnd & Hknown & Hlen & _).
  induction Hreach as [|c c' _ IH Hstep].
  - apply Inv_start. lia.
  - apply (step_Inv agents R c c'); try done. lia.
Qed.

Lemma run_reachable graph s0 n : forall c,
  reachable E graph s0 c ->
  match run E graph n c with
  | Finished c' => reachable E graph s0 c' ∧ node c' = END
  | RecursionLimit c' => reachable E graph s0 c'
  | NoSuchNode c' =>
      reachable E graph s0 c' ∧ node c' ≠ END ∧ step E graph c' = None
  end.
Proof.
  induction n as [|n IH]; intros c Hreach; simpl.
  - done.
  - destruct (node c) eqn:Hnode; [| |by split].
    + destruct (step E graph c) as [c'|] eqn:Hstep.
      * apply IH. by eapply reach_step.
      * repeat split; congruence.
    + destruct (step E graph c) as [c'|] eqn:Hstep.
      * apply IH. by eapply reach_step.
      * repeat split; congruence.
Qed.

End Reachable.

Section Runs.

Variable E : Env.

Lemma steps_reachable graph s0 n : forall c c',
  reachable E graph s0 c -> steps E graph n c = Some c' ->
  reachable E graph s0 c'.
Proof.
  induction n as [|n IH]; intros c c' Hreach Hsteps; simpl in Hsteps.
  - by simplify_eq.
  - destruct (step E graph c) as [c1|] eqn:Hstep; [|done].
    eapply IH; [|done]. by eapply reach_step.
Qed.

Lemma finished_reachable graph s0 n c :
  run E graph n (start graph s0) = Finished c ->
  reachable E graph s0 c ∧ node c = END.
Proof.
  intros Hrun.
  pose proof (run_reachable E graph s0 n (start graph s0) (reach_start _ _ _))
    as H.
  by rewrite Hrun in H.
Qed.

(** [END] is scheduled in the closing stage only, after the last closing
    turn. *)
Lemma Inv_END agents R c :
  Inv agents R c -> node c = END ->
  current_stage (cstate c) = closing
  ∧ stage_progress (cstate c) = length agents
  ∧ length (questions_asked (cstate c)) = length agents.
Proof.
  intros HI Hnode. destruct HI as [Hag _ _ _ _ _ _ _ _ _ _ Hstage _].
  unfold stage_inv in Hstage. rewrite Hnode in Hstage.
  unfold next_actor_rule, questioning_next in Hstage.
  destruct (current_stage (cstate c)).
  - destruct Hstage as (_ & _ & _ & _ & _ & Hrule).
    destruct (decide _); [|done]. by destruct (_ !! _).
  - destruct Hstage as (_ & _ & _ & Hw & Hn).
    destruct (waiting_for_answer (cstate c)).
    + destruct (decide _); [done|]. done.
    + destruct (decide _); [by destruct Hn as (? & ? & _)|done].
  - destruct Hstage as (_ & _ & _ & _ & Hrule).
    destruct (decide _); [|done]. by destruct (_ !! _).
  - destruct Hstage as (_ & _ & Hp & Hqs & Hrule).
    destruct (decide _) as [|Hge]; [by destruct (_ !! _)|].
    rewrite Hag in Hge. repeat split; [lia|done].
Qed.

(** Without a working inference chain no question is ever recorded. *)
Lemma no_inference_no_question agents R topic enable_rag max_refs c :
  valid_config agents R -> ¬ can_infer E ->
  reachable E agents (inputs topic R agents enable_rag max_refs) c ->
  questions_asked (cstate c) = [].
Proof.
  intros Hvalid Hno Hreach.
  destruct (valid_config_facts _ _ Hvalid) as (Hnd & Hknown & Hlen & _).
  induction Hreach as [|c c' Hreach IH Hstep]; [done|].
  pose proof (reachable_Inv E _ _ _ _ _ _ Hvalid Hreach) as HI.
  destruct (node c) as [a|t|] eqn:Hnode.
  - destruct (agent_step_cases E agents R c a c') as [_ Hcases]; try done;
      [lia|].
    destruct Hcases as [|u st' w2 next w3 Hc _ Hturn _ _]; [done|].
    destruct (cache_step_core _ _ _ Hc) as (_ & Hqs & _).
    destruct Hturn; simpl; try congruence; done.
  - unfold step in Hstep. rewrite Hnode in Hstep.
    destruct (is_stage_node (Transition t)); [|done].
    destruct (handle_stage_transition E (cstate c) t (world c))
      as [cmd w1] eqn:Hh.
    simplify_eq. unfold handle_stage_transition in Hh.
    destruct (determine_next_node E _ (world c)) as [[next|e] w'];
      simplify_eq; simpl; [|done].
    unfold transition_update. simpl. by case_bool_decide.
  - unfold step in Hstep. by rewrite Hnode in Hstep.
Qed.

End Runs.

Section Finished.

Variable E : Env.

(** The counts of a finished run: every participant spoke once in
    opening, asked once and answered once, spoke once per round and once
    in closing; on top of that come the turns the questioning stage
    wasted. *)
Lemma finished_counts agents R topic enable_rag max_refs n c :
  valid_config agents R ->
  run E agents n (start agents (inputs topic R agents enable_rag max_refs))
  = Finished c ->
  count (spoken_in opening) (trace c) = length agents
  ∧ count (spoken_in questioning) (trace c)
    = 2 * length agents + count is_wasted (trace c)
  ∧ count (spoken_in free_debate) (trace c) = length agents * R
  ∧ count (spoken_in closing) (trace c) = length agents
  ∧ count is_spoken (trace c)
    = length agents * (4 + R) + count is_wasted (trace c)
  ∧ count is_transition (trace c) = 3.
Proof.
  intros Hvalid Hrun. apply finished_reachable in Hrun as [Hreach Hend].
  pose proof (reachable_Inv E _ _ _ _ _ _ Hvalid Hreach) as HI.
  destruct (Inv_END _ _ _ HI Hend) as (Hst & Hp & _).
  destruct HI as [_ _ _ _ _ _ _ _ _ _ _ Hstage Hcounts].
  unfold stage_inv in Hstage. unfold stage_counts in Hcounts.
  rewrite Hst in Hstage, Hcounts.
  destruct Hstage as (HK & HS & _). destruct Hcounts as (? & ? & ? & ?).
  repeat split; try done; lia.
Qed.

(** Without a working inference chain the run never reaches [END]. *)
Lemma no_inference_never_ends agents R topic enable_rag max_refs n :
  valid_config agents R -> ¬ can_infer E ->
  finished (run E agents n
              (start agents (inputs topic R agents enable_rag max_refs))) = None.
Proof.
  intros Hvalid Hno.
  destruct (run E agents n _) as [c| |] eqn:Hrun; [|done..]. exfalso.
  apply finished_reachable in Hrun as [Hreach Hend].
  pose proof (reachable_Inv E _ _ _ _ _ _ Hvalid Hreach) as HI.
  destruct (Inv_END _ _ _ HI Hend) as (_ & _ & Hqs).
  rewrite (no_inference_no_question E _ _ _ _ _ _ Hvalid Hno Hreach) in Hqs.
  destruct (valid_config_facts _ _ Hvalid) as (_ & _ & Hlen & _).
  simpl in Hqs. lia.
Qed.

End Finished.

Lemma filter_eq_not_in (l : list string) a :
  a ∉ l -> filter (fun b => b = a) l = [].
Proof.
  induction l as [|y l IH]; [done|]. intros [Hne Hin]%not_elem_of_cons.
  rewrite filter_cons, decide_False by done. auto.
Qed.

Lemma NoDup_filter_eq_length (l : list string) a :
  NoDup l -> length (filter (fun b => b = a) l) ≤ 1.
Proof.
  induction 1 as [|x l Hx _ IH]; [simpl; lia|].
  rewrite filter_cons. destruct (decide (x = a)) as [->|]; [|done].
  rewrite filter_eq_not_in by done. simpl. lia.
Qed.

Section NoFailure.

Variable E : Env.

Lemma step_trace graph c c' :
  step E graph c = Some c' ->
  exists u, trace c' = trace c ++ [mkEvent (node c) (current_stage (cstate c))
                                           u].
Proof.
  unfold step. intros Hstep. destruct (node c) as [a|t|]; [| |done].
  - destruct (decide _); [|done].
    destruct (agent_node E a (cstate c) (world c)) as [[cmd st1] w1].
    simplify_eq. simpl. eauto.
  - destruct (is_stage_node _); [|done].
    destruct (handle_stage_transition E (cstate c) t (world c)) as [cmd w1].
    simplify_eq. simpl. eauto.
Qed.

(** When the inference chain answers every call, no opening or closing
    turn of a run is without its statement. *)
Lemma always_infers_no_failure agents R topic enable_rag max_refs c :
  valid_config agents R -> always_infers E ->
  reachable E agents (inputs topic R agents enable_rag max_refs) c ->
  forall s a, statement_stage s -> ¬ failed_statement s (trace c) a.
Proof.
  intros Hvalid Hall Hreach.
  destruct (valid_config_facts _ _ Hvalid) as (Hnd & Hknown & Hlen & _).
  induction Hreach as [|c c' Hreach IH Hstep].
  - intros s a _ (ev & Hev & _). by apply elem_of_nil in Hev.
  - pose proof (reachable_Inv E _ _ _ _ _ _ Hvalid Hreach) as HI.
    intros s a Hs Hfailed.
    destruct (node c) as [b|t|] eqn:Hnode.
    + destruct (agent_step_cases E agents R c b c') as [_ Hcases];
        try done; [lia|].
      destruct Hcases as [|u st' w2 next w3 Hc _ Hturn _ _].
      * simpl in Hfailed. apply failed_statement_snoc in Hfailed
          as [Hf|(_ & _ & Hno)]; [by eapply IH|done].
      * simpl in Hfailed. apply failed_statement_snoc in Hfailed
          as [Hf|(_ & Hst & Hno)]; [by eapply IH|].
        simpl in Hst, Hno. subst s.
        destruct (cache_step_core _ _ _ Hc) as (_ & _ & Hst').
        destruct Hturn as [msg Hwhy|r cached Hst1 Hci|t r Hst1 _ _ _ _
                          |r Hst1 _ _ _ _|r Hst1 Hci].
        -- rewrite Hst' in Hwhy. by apply Hwhy.
        -- done.
        -- rewrite Hst' in Hst1. rewrite Hst1 in Hs. by destruct Hs.
        -- rewrite Hst' in Hst1. rewrite Hst1 in Hs. by destruct Hs.
        -- done.
    + destruct (step_trace _ _ _ Hstep) as [u Htrace].
      rewrite Htrace, Hnode in Hfailed.
      apply failed_statement_snoc in Hfailed as [Hf|(_ & _ & Hno)];
        [by eapply IH|done].
    + unfold step in Hstep. by rewrite Hnode in Hstep.
Qed.

End NoFailure.

(** * More of the code: lemmas *)

(** ** Supersteps *)

Section Exact.

Variable E : Env.

(** The transition a configuration of the invariant is about to make. *)
Lemma transition_cases agents R c t :
  2 ≤ length agents -> Inv agents R c -> node c = Transition t ->
  let st := cstate c in
  (current_stage st = opening ∧ t = questioning
   ∧ stage_progress st = length agents)
  ∨ (current_stage st = questioning ∧ t = free_debate
     ∧ waiting_for_answer st = false
     ∧ length (questions_asked st) = length agents)
  ∨ (current_stage st = free_debate ∧ t = closing
     ∧ stage_progress st = length agents * R).
Proof.
  intros Hlen HI Hnode. cbv zeta.
  destruct HI as [Hag Hro Htot Hled Hqn Hqlen Hcached Hcnd Hcalls Hopen Hclose
                  Hstage Hcounts].
  destruct c as [nd st w tr]. simpl in *. subst nd agents R.
  unfold stage_inv in Hstage. simpl in Hstage.
  unfold next_actor_rule, questioning_next in Hstage.
  destruct (current_stage st).
  - destruct Hstage as (_ & _ & _ & Hp & _ & Hrule).
    destruct (decide _); [by destruct (_ !! _)|]. simplify_eq.
    left. repeat split; lia.
  - destruct Hstage as (_ & _ & _ & Hw & Hnext).
    destruct (waiting_for_answer st).
    + destruct (Hw eq_refl) as [Hok _]. by rewrite decide_True in Hnext.
    + destruct (decide _); [by destruct Hnext as (? & ? & _)|].
      simplify_eq. right. left. repeat split; lia.
  - destruct Hstage as (_ & _ & Hp & _ & Hrule).
    destruct (decide _) as [Hr|Hr]; [by destruct (_ !! _)|].
    simplify_eq. right. right. repeat split; [done..|].
    rewrite div_round in Hr by lia. lia.
  - destruct Hstage as (_ & _ & _ & _ & Hrule).
    destruct (decide _); [by destruct (_ !! _)|done].
Qed.

(** A superstep from a configuration of the invariant is one of the three
    of [exact_step]. *)
Lemma step_exact agents R c c' :
  NoDup agents -> Forall known_agent agents -> 2 ≤ length agents ->
  Inv agents R c -> step E agents c = Some c' -> exact_step E c c'.
Proof.
  intros Hnd Hknown Hlen HI Hstep.
  destruct (node c) as [a|t|] eqn:Hnode.
  - pose proof HI as HI'.
    destruct HI as [Hag Hro Htot Hled Hqn Hqlen Hcached Hcnd Hcalls Hopen
                    Hclose Hstage Hcounts].
    destruct c as [nd st w tr]. simpl in *. subst nd agents R.
    unfold step in Hstep. simpl in Hstep.
    destruct (decide (a ∈ active_agents st)) as [Hin|]; [|done].
    destruct (agent_node E a st w) as [[cmd st1] w1] eqn:Hrun.
    simplify_eq. unfold agent_node in Hrun.
    destruct (determine_spec E st w Hnd Hlen Hled)
      as (next & w0 & Hdet & Hrag0 & Hnext).
    rewrite Hdet in Hrun.
    assert (Hcase : next = Agent a
              ∨ (current_stage st = questioning
                 ∧ waiting_for_answer st = false
                 ∧ exists q, next = Agent q ∧ q ≠ a)).
    { unfold stage_inv in Hstage. simpl in Hstage.
      destruct (current_stage st).
      - destruct Hstage as (_ & _ & _ & _ & _ & Hrule).
        destruct Hnext as [Hnext _]. left. congruence.
      - destruct Hstage as (_ & _ & _ & Hw & Hn).
        unfold questioning_next in *.
        destruct (waiting_for_answer st).
        + destruct (Hw eq_refl) as [Hok _].
          destruct (decide (target_ok st)); [left; congruence|done].
        + destruct (decide (length (questions_asked st)
                              < length (active_agents st))); [|done].
          destruct Hnext as (q & -> & Hq).
          destruct (decide (q = a)) as [->|Hne]; [by left|].
          right. eauto 10.
      - destruct Hstage as (_ & _ & _ & _ & Hrule).
        destruct Hnext as [Hnext _]. left. congruence.
      - destruct Hstage as (_ & _ & _ & _ & Hrule).
        destruct Hnext as [Hnext _]. left. congruence. }
    destruct Hcase as [->|(Hst & Hwait & q & -> & Hne)].
    + simpl in Hrun. rewrite decide_False in Hrun by (intros H; by apply H).
      assert (Hka : known_agent a)
        by (rewrite Forall_forall in Hknown; auto).
      destruct (response_shape E st a w0 Hka Hknown Hnd Hlen Hled)
        as (u & st' & w2 & Hresp & Hc & Hr & Hturn).
      rewrite Hresp in Hrun.
      destruct (cache_step_core _ _ _ Hc) as (Hag' & Hqs' & Hst').
      destruct (determine_spec E (merge st' u) w2)
        as (next' & w3 & Hdet' & Hrag3 & Hnext').
      { simpl. by rewrite Hag'. }
      { simpl. by rewrite Hag'. }
      { change (active_agents (merge st' u)) with (active_agents st').
        apply (turn_merge_ok E st' a u); rewrite ?Hag', ?Hqs'; done. }
      rewrite Hdet' in Hrun. injection Hrun as <- <- <-. simpl.
      by apply (exact_turn E (mkConfig (Agent a) st w tr) _ a w0 u st' w2
                           next' w3).
    + simpl in Hrun. rewrite decide_True in Hrun by congruence.
      injection Hrun as <- <- <-. simpl.
      by apply (exact_hop E (mkConfig (Agent a) st w tr) _ a q w0).
  - pose proof (transition_cases agents R c t Hlen HI Hnode) as Ht. cbv zeta in Ht.
    destruct HI as [Hag Hro Htot Hled Hqn Hqlen Hcached Hcnd Hcalls Hopen
                    Hclose Hstage Hcounts].
    destruct c as [nd st w tr]. simpl in *. subst nd agents R.
    unfold step in Hstep. simpl in Hstep.
    unfold handle_stage_transition in Hstep.
    destruct (determine_spec E (merge st (transition_update t)) w)
      as (next & w' & Hdet & Hrag & Hnext).
    { done. }
    { done. }
    { simpl.
      destruct Ht as [(_ & -> & _)|[(_ & -> & _)|(_ & -> & _)]]; simpl;
        [|done..]. intros qa Hqa. by apply elem_of_nil in Hqa. }
    rewrite Hdet in Hstep.
    destruct Ht as [(Hst & -> & Hp)|[(Hst & -> & Hwait & Hqs)|(Hst & -> & Hp)]];
      simpl in Hstep; simplify_eq;
      by eapply (exact_transition E (mkConfig (Transition _) st w tr)).
  - unfold step in Hstep. by rewrite Hnode in Hstep.
Qed.

End Exact.

(** ** The graph has the node to run *)

Section Progress.

Variable E : Env.

Lemma Inv_node_in_graph agents R c a :
  Inv agents R c -> node c = Agent a -> a ∈ agents.
Proof.
  intros HI Hnode.
  destruct HI as [Hag Hro Htot Hled Hqn Hqlen Hcached Hcnd Hcalls Hopen Hclose
                  Hstage Hcounts].
  destruct c as [nd st w tr]. simpl in *. subst nd agents R.
  unfold stage_inv in Hstage. simpl in Hstage.
  unfold next_actor_rule, questioning_next in Hstage.
  destruct (current_stage st).
  - destruct Hstage as (_ & _ & _ & _ & _ & Hrule).
    destruct (decide _); [|done].
    destruct (active_agents st !! stage_progress st) eqn:Hl; simplify_eq/=.
    by eapply list_elem_of_lookup_2.
  - destruct Hstage as (_ & _ & _ & Hw & Hnext).
    destruct (waiting_for_answer st).
    + destruct (Hw eq_refl) as [Hok _]. rewrite decide_True in Hnext by done.
      simplify_eq. apply Hok.
    + destruct (decide _); [|done].
      destruct Hnext as (q & ? & Hq & _). by simplify_eq.
  - destruct Hstage as (_ & _ & _ & _ & Hrule).
    destruct (decide _); [|done].
    destruct (active_agents st !! _) eqn:Hl; simplify_eq/=.
    by eapply list_elem_of_lookup_2.
  - destruct Hstage as (_ & _ & _ & _ & Hrule).
    destruct (decide _); [|done].
    destruct (active_agents st !! stage_progress st) eqn:Hl; simplify_eq/=.
    by eapply list_elem_of_lookup_2.
Qed.

Lemma step_defined agents R c :
  2 ≤ length agents -> Inv agents R c -> node c ≠ END ->
  is_Some (step E agents c).
Proof.
  intros Hlen HI Hnode. unfold step.
  destruct (node c) as [a|t|] eqn:Hn; [| |done].
  - rewrite decide_True by (by eapply Inv_node_in_graph).
    by destruct (agent_node E a (cstate c) (world c)) as [[cmd st1] w1].
  - pose proof (transition_cases agents R c t Hlen HI Hn) as Ht.
    cbv zeta in Ht.
    destruct (handle_stage_transition E (cstate c) t (world c)) as [cmd w1].
    by destruct Ht as [(_ & -> & _)|[(_ & -> & _)|(_ & -> & _)]].
Qed.

End Progress.

(** ** What a turn says *)

Lemma prefix_app (p s : string) : String.prefix p (p +:+ s) = true.
Proof.
  induction p as [|c p IH]; simpl; [by destruct s|].
  destruct (ascii_dec c c); [exact IH|done].
Qed.

Lemma format_response_named agent_name response :
  startswith (format_response agent_name response) agent_name = true.
Proof.
  unfold format_response.
  destruct (startswith (strip response) agent_name) eqn:Hs; [done|].
  apply prefix_app.
Qed.

Section Said.

Variable E : Env.

Lemma apology_exact st a text info u :
  roles_get AVAILABLE_ROLES a = Some info ->
  apology st a text = Ok u ->
  u = update_counters st (name info +:+ text).
Proof. unfold apology. intros ->. congruence. Qed.

Lemma opening_exact st a w res st' w' info :
  roles_get AVAILABLE_ROLES a = Some info ->
  _generate_opening_statement E st a w = (res, st', w') ->
  cache_step st a st'
  ∧ forall u, res = Ok u ->
      exists msg cached,
        startswith msg (name info) = true
        ∧ u = opening_update st' a msg cached.
Proof.
  intros Hinfo. unfold _generate_opening_statement. rewrite Hinfo.
  destruct (get_other_participants (active_agents st) a).
  2:{ intros [= <- <- <-]. split; [by left|done]. }
  destruct (get_rag_context_for_agent E a (main_topic st) st w)
    as [[txt st1] w1] eqn:Hrag.
  destruct (get_rag_known E _ _ _ _ _ _ _ _ Hinfo Hrag) as [rag_text ->].
  apply get_rag_shape in Hrag as (Hc & _).
  destruct (pipe_invoke E w1) as [[resp|e] w2]; intros [= <- <- <-];
    (split; [done|]); [|done].
  intros u [= <-].
  eexists _, _. split; [apply format_response_named|reflexivity].
Qed.

Lemma closing_exact st a w res st' w' info :
  roles_get AVAILABLE_ROLES a = Some info ->
  _generate_closing_statement E st a w = (res, st', w') ->
  cache_step st a st'
  ∧ forall u, res = Ok u ->
      exists msg,
        startswith msg (name info) = true ∧ u = closing_update st' a msg.
Proof.
  intros Hinfo. unfold _generate_closing_statement. rewrite Hinfo.
  destruct (get_rag_context_for_agent E a (main_topic st) st w)
    as [[txt st1] w1] eqn:Hrag.
  destruct (get_rag_known E _ _ _ _ _ _ _ _ Hinfo Hrag) as [rag_text ->].
  apply get_rag_shape in Hrag as (Hc & _).
  destruct (get_other_participants (active_agents st) a).
  2:{ by intros [= <- <- <-]. }
  destruct (pipe_invoke E w1) as [[resp|e] w2]; intros [= <- <- <-];
    (split; [done|]); [|done].
  intros u [= <-].
  eexists. split; [apply format_response_named|reflexivity].
Qed.

Lemma free_debate_exact st a w res st' w' info :
  roles_get AVAILABLE_ROLES a = Some info ->
  _generate_free_debate_response E st a w = (res, st', w') ->
  cache_step st a st'
  ∧ forall u, res = Ok u ->
      exists msg,
        startswith msg (name info) = true ∧ u = update_counters st msg.
Proof.
  intros Hinfo. unfold _generate_free_debate_response. rewrite Hinfo.
  destruct (decide (length (active_agents st) = 0)).
  { intros [= <- <- <-]. split; [by left|done]. }
  destruct (get_other_participants (active_agents st) a).
  2:{ intros [= <- <- <-]. split; [by left|done]. }
  destruct (get_rag_context_for_agent E a (main_topic st) st w)
    as [[txt st1] w1] eqn:Hrag.
  destruct (get_rag_known E _ _ _ _ _ _ _ _ Hinfo Hrag) as [rag_text ->].
  apply get_rag_shape in Hrag as (Hc & _).
  destruct (pipe_invoke E w1) as [[resp|e] w2]; intros [= <- <- <-];
    (split; [done|]); [|done].
  intros u [= <-].
  eexists. split; [apply format_response_named|].
  symmetry. by eapply cache_step_counters.
Qed.

Lemma question_exact st a w res st' w' info :
  roles_get AVAILABLE_ROLES a = Some info ->
  _generate_question E st a w = (res, st', w') ->
  cache_step st a st'
  ∧ forall u, res = Ok u ->
      exists msg,
        startswith msg (name info) = true
        ∧ (u = update_counters st msg
           ∨ exists t w1,
               select_next_questioner_and_target E (active_agents st)
                 (questions_asked st) w = (Ok (a, t), w1)
               ∧ u = question_update st' a t msg).
Proof.
  intros Hinfo. unfold _generate_question. rewrite Hinfo.
  destruct (select_next_questioner_and_target E (active_agents st)
              (questions_asked st) w) as [[[q t]|e] w1] eqn:Hsel.
  2:{ intros [= <- <- <-]. split; [by left|done]. }
  destruct (decide (a ≠ q)) as [Hne|Heq].
  { intros [= <- <- <-]. split; [by left|]. intros u [= <-].
    eexists. split; [apply prefix_app|]. by left. }
  apply dec_stable in Heq as <-.
  destruct (roles_get AVAILABLE_ROLES t).
  2:{ intros [= <- <- <-]. split; [by left|done]. }
  destruct (get_other_participants (active_agents st) a).
  2:{ intros [= <- <- <-]. split; [by left|done]. }
  destruct (get_rag_context_for_agent E a (main_topic st) st w1)
    as [[txt st1] w2] eqn:Hrag.
  destruct (get_rag_known E _ _ _ _ _ _ _ _ Hinfo Hrag) as [rag_text ->].
  apply get_rag_shape in Hrag as (Hc & _).
  destruct (pipe_invoke E w2) as [[resp|e] w3]; intros [= <- <- <-];
    (split; [done|]); [|done].
  intros u [= <-].
  eexists. split; [apply format_response_named|]. right.
  destruct (cache_step_core _ _ _ Hc) as (_ & Hqs & _).
  exists t, w1. split; [done|].
  unfold question_update. by rewrite Hqs.
Qed.

Lemma answer_exact st a w res st' w' info :
  roles_get AVAILABLE_ROLES a = Some info ->
  _generate_answer E st a w = (res, st', w') ->
  cache_step st a st'
  ∧ forall u, res = Ok u ->
      exists msg,
        startswith msg (name info) = true
        ∧ (u = update_counters st msg
           ∨ (questions_asked st ≠ [] ∧ u = answer_update st' msg)).
Proof.
  intros Hinfo. unfold _generate_answer. rewrite Hinfo.
  destruct (last (questions_asked st)) as [qa|] eqn:Hlast.
  2:{ intros [= <- <- <-]. split; [by left|]. intros u [= <-].
      eexists. split; [apply prefix_app|]. by left. }
  destruct (roles_get AVAILABLE_ROLES (questioner qa)).
  2:{ intros [= <- <- <-]. split; [by left|done]. }
  destruct (get_other_participants (active_agents st) a).
  2:{ intros [= <- <- <-]. split; [by left|done]. }
  destruct (get_rag_context_for_agent E a (main_topic st) st w)
    as [[txt st1] w1] eqn:Hrag.
  destruct (get_rag_known E _ _ _ _ _ _ _ _ Hinfo Hrag) as [rag_text ->].
  apply get_rag_shape in Hrag as (Hc & _).
  destruct (pipe_invoke E w1) as [[resp|e] w2]; intros [= <- <- <-];
    (split; [done|]); [|done].
  intros u [= <-].
  eexists. split; [apply format_response_named|]. right.
  destruct (cache_step_core _ _ _ Hc) as (_ & Hqs & _).
  split; [by intros Hnil; rewrite Hnil in Hlast|].
  unfold answer_update. by rewrite Hqs.
Qed.

(** Whatever a participant's node says begins with the participant's
    display name, and its update is one of the five of [said]. *)
Lemma response_exact st a w u st' w' info :
  roles_get AVAILABLE_ROLES a = Some info ->
  _generate_agent_response E st a w = (Ok u, st', w') ->
  cache_step st a st'
  ∧ exists msg, startswith msg (name info) = true ∧ said E st st' a msg w u.
Proof.
  intros Hinfo. unfold _generate_agent_response.
  assert (Hplain : forall text,
            apology st a text = Ok u ->
            exists msg, startswith msg (name info) = true
                        ∧ said E st st' a msg w u).
  { intros text Hu.
    apply (apology_exact _ _ _ info) in Hu as ->; [|done].
    eexists. split; [apply prefix_app|constructor]. }
  destruct (negb (deepseek_ready E)).
  { intros [= Hu <- <-]. split; [by left|]. by eapply Hplain. }
  destruct (current_stage st) eqn:Hst.
  - destruct (_generate_opening_statement E st a w) as [[res st1] w1]
      eqn:Hgen.
    apply (opening_exact _ _ _ _ _ _ info) in Hgen as [Hc Hu]; [|done].
    destruct res as [u1|e]; intros [= Hr <- <-]; (split; [done|]).
    + subst u1. destruct (Hu u eq_refl) as (msg & cached & Hs & ->).
      eexists. split; [done|by constructor].
    + by eapply Hplain.
  - destruct (waiting_for_answer st && bool_decide (current_target st = a))
      eqn:Hans.
    + apply andb_true_iff in Hans as [Hw Ht]. apply bool_decide_eq_true in Ht.
      destruct (_generate_answer E st a w) as [[res st1] w1] eqn:Hgen.
      apply (answer_exact _ _ _ _ _ _ info) in Hgen as [Hc Hu]; [|done].
      destruct res as [u1|e]; intros [= Hr <- <-]; (split; [done|]).
      * subst u1. destruct (Hu u eq_refl) as (msg & Hs & [->|[Hne ->]]);
          eexists; (split; [done|]); by constructor.
      * by eapply Hplain.
    + assert (Hnot : waiting_for_answer st = false ∨ current_target st ≠ a).
      { apply andb_false_iff in Hans as [?|Ht]; [by left|right].
        by apply bool_decide_eq_false in Ht. }
      destruct (_generate_question E st a w) as [[res st1] w1] eqn:Hgen.
      apply (question_exact _ _ _ _ _ _ info) in Hgen as [Hc Hu]; [|done].
      destruct res as [u1|e]; intros [= Hr <- <-]; (split; [done|]).
      * subst u1.
        destruct (Hu u eq_refl) as (msg & Hs & [->|(t & w2 & Hsel & ->)]);
          eexists; (split; [done|]); [constructor|].
        by eapply said_question.
      * by eapply Hplain.
  - destruct (_generate_free_debate_response E st a w) as [[res st1] w1]
      eqn:Hgen.
    apply (free_debate_exact _ _ _ _ _ _ info) in Hgen as [Hc Hu]; [|done].
    destruct res as [u1|e]; intros [= Hr <- <-]; (split; [done|]).
    + subst u1. destruct (Hu u eq_refl) as (msg & Hs & ->).
      eexists. split; [done|by constructor].
    + by eapply Hplain.
  - destruct (_generate_closing_statement E st a w) as [[res st1] w1]
      eqn:Hgen.
    apply (closing_exact _ _ _ _ _ _ info) in Hgen as [Hc Hu]; [|done].
    destruct res as [u1|e]; intros [= Hr <- <-]; (split; [done|]).
    + subst u1. destruct (Hu u eq_refl) as (msg & Hs & ->).
      eexists. split; [done|by constructor].
    + by eapply Hplain.
Qed.

End Said.

(** ** The stream and the transcript *)

Lemma streamed_snoc tr ev :
  streamed (tr ++ [ev]) = streamed tr ++ u_messages (ev_update ev).
Proof.
  unfold streamed. rewrite fmap_app, concat_app. simpl.
  by rewrite app_nil_r.
Qed.

Lemma cache_step_messages st a st' :
  cache_step st a st' -> messages st' = messages st.
Proof. by intros [->|(_ & _ & ctx & ->)]. Qed.

Lemma said_message E st st' a msg w u :
  said E st st' a msg w u ->
  u_messages u = [msg] ∧ u_current_stage u = None.
Proof. by destruct 1. Qed.

Lemma event_ok_length tr :
  Forall event_ok tr ->
  length (streamed tr) = count is_spoken tr + count is_transition tr.
Proof.
  induction tr as [|ev tr IH] using rev_ind; [done|].
  rewrite Forall_app, Forall_singleton. intros [Htr Hev].
  rewrite streamed_snoc, length_app, !count_snoc, (IH Htr).
  unfold event_ok in Hev.
  destruct ev as [nd s u]. simpl in *. destruct nd as [a|t|]; [| |done].
  - destruct Hev as [[_ ->]|(Hsp & msg & Hm & _)].
    + simpl. lia.
    + rewrite Hsp, Hm. unfold is_spoken in Hsp. simpl in Hsp.
      apply andb_true_iff in Hsp as [_ Hnt].
      apply negb_true_iff in Hnt. rewrite Hnt. simpl. lia.
  - destruct Hev as [Ht ->]. simpl. lia.
Qed.

Section Stream.

Variable E : Env.

(** The transcript is what the stream carried, and every item of the
    stream is of one of the three kinds. *)
Lemma reachable_stream agents R topic enable_rag max_refs c :
  valid_config agents R ->
  reachable E agents (inputs topic R agents enable_rag max_refs) c ->
  messages (cstate c) = streamed (trace c) ∧ Forall event_ok (trace c).
Proof.
  intros Hvalid Hreach.
  destruct (valid_config_facts _ _ Hvalid) as (Hnd & Hknown & Hlen & _).
  induction Hreach as [|c c' Hreach IH Hstep]; [by split|].
  destruct IH as [Hmsgs Hevs].
  pose proof (reachable_Inv E _ _ _ _ _ _ Hvalid Hreach) as HI.
  assert (Hlen2 : 2 ≤ length agents) by lia.
  destruct (step_exact E agents R c c' Hnd Hknown Hlen2 HI Hstep)
    as [t next w1 Hnode Hdet ->|a q w1 Hnode Hdet Hne Hst Hw ->
        |a w1 u st' w2 next w3 Hnode Hdet Hresp Hdet' ->]; simpl.
  - rewrite streamed_snoc, Hmsgs. split; [done|].
    rewrite Forall_app, Forall_singleton. split; [done|].
    unfold event_ok. simpl. split; [|done].
    pose proof (transition_cases agents R c t Hlen2 HI Hnode) as Ht.
    cbv zeta in Ht.
    by destruct Ht as [(_ & -> & _)|[(_ & -> & _)|(_ & -> & _)]].
  - rewrite streamed_snoc, Hmsgs. split; [done|].
    rewrite Forall_app, Forall_singleton. split; [done|].
    unfold event_ok. simpl. by left.
  - assert (Hin : a ∈ agents) by (by eapply Inv_node_in_graph).
    assert (Hka : known_agent a) by (rewrite Forall_forall in Hknown; auto).
    destruct Hka as [info Hinfo].
    destruct (response_exact E _ _ _ _ _ _ info Hinfo Hresp)
      as (Hc & msg & Hs & Hsaid).
    destruct (said_message _ _ _ _ _ _ _ Hsaid) as [Hm Hcs].
    rewrite streamed_snoc, (cache_step_messages _ _ _ Hc), Hmsgs.
    split; [done|].
    rewrite Forall_app, Forall_singleton. split; [done|].
    unfold event_ok. simpl. right. split.
    + unfold is_spoken, is_transition. simpl. rewrite Hm, Hcs. done.
    + exists msg. split; [done|]. by exists info.
Qed.

End Stream.

(** ** The ledger, record by record *)

Lemma cache_step_fields st a st' :
  cache_step st a st' ->
  waiting_for_answer st' = waiting_for_answer st
  ∧ current_target st' = current_target st
  ∧ current_questioner st' = current_questioner st
  ∧ stage_progress st' = stage_progress st
  ∧ total_messages st' = total_messages st
  ∧ max_rounds st' = max_rounds st
  ∧ opening_statements st' = opening_statements st
  ∧ closing_statements st' = closing_statements st.
Proof. by intros [->|(_ & _ & ctx & ->)]. Qed.

Lemma received_alt qs a :
  received qs a = length (filter (fun b => b = a) (target <$> qs)).
Proof.
  unfold received. induction qs as [|qa qs IH]; [done|].
  rewrite fmap_cons, !filter_cons.
  destruct (decide (target qa = a)); simpl; by rewrite IH.
Qed.

Lemma received_pos qs a : a ∈ target <$> qs <-> 0 < received qs a.
Proof.
  rewrite received_alt. split.
  - intros Hin.
    assert (Ha : a ∈ filter (fun b => b = a) (target <$> qs))
      by (by apply list_elem_of_filter).
    destruct (filter _ _); [by apply elem_of_nil in Ha|simpl; lia].
  - intros Hpos.
    destruct (filter (fun b => b = a) (target <$> qs)) as [|b l] eqn:Hf;
      [simpl in Hpos; lia|].
    assert (Hb : b ∈ filter (fun b => b = a) (target <$> qs))
      by (rewrite Hf; left).
    apply list_elem_of_filter in Hb as [-> ?]. done.
Qed.

Lemma received_snoc qs qa a :
  received (qs ++ [qa]) a
  = received qs a + (if decide (target qa = a) then 1 else 0).
Proof.
  unfold received. rewrite filter_app, length_app, filter_cons, filter_nil.
  by destruct (decide (target qa = a)).
Qed.

Lemma received_answer qs r a :
  received (set_last_answer qs r) a = received qs a.
Proof.
  rewrite !received_alt.
  by destruct (set_last_answer_facts qs r) as (_ & -> & _).
Qed.

(** Among [agents], with fewer records than the others of [q] are, one
    other than [q] has received nothing. *)
Lemma unasked_other agents qs q :
  NoDup agents -> q ∈ agents -> length qs + 1 < length agents ->
  exists b, b ∈ agents ∧ b ≠ q ∧ received qs b = 0.
Proof.
  intros Hnd Hq Hlen.
  set (others := filter (fun b => b ≠ q) agents).
  destruct (decide (Exists (fun b => received qs b = 0) others)) as [Hex|Hno].
  - apply Exists_exists in Hex as (b & Hb & H0).
    apply list_elem_of_filter in Hb as [? ?]. eauto.
  - exfalso. apply not_Exists_Forall in Hno; [|intros ?; apply _].
    assert (Hsub : others ⊆ target <$> qs).
    { intros b Hb. apply received_pos.
      rewrite Forall_forall in Hno. specialize (Hno b Hb). simpl in Hno.
      lia. }
    assert (Hndo : NoDup others) by (by apply NoDup_filter).
    pose proof (submseteq_length _ _ (NoDup_submseteq _ _ Hndo Hsub)) as Hle.
    rewrite length_fmap in Hle.
    assert (Hall : length agents ≤ length others + 1).
    { assert (Hsub' : agents ⊆ q :: others).
      { intros b Hb. destruct (decide (b = q)) as [->|Hne]; [left|right].
        by apply list_elem_of_filter. }
      pose proof (submseteq_length _ _ (NoDup_submseteq _ _ Hnd Hsub')).
      simpl in *. lia. }
    lia.
Qed.

Lemma received_bound_question agents qs q t r :
  NoDup agents -> q ∈ agents -> length qs < length agents ->
  min_received agents qs q t ->
  received_bound agents qs ->
  received_bound agents (qs ++ [mkQA q t r ""]).
Proof.
  intros Hnd Hq Hlen [[Ht Hne] Hmin] Hb a.
  rewrite received_snoc, length_app. simpl.
  specialize (Hb a). rewrite decide_True in Hb by done.
  destruct (decide (length qs + 1 < length agents)) as [Hl|Hl].
  - destruct (decide (t = a)) as [<-|]; [|lia].
    destruct (unasked_other agents qs q Hnd Hq Hl) as (b & Hb1 & Hb2 & Hb0).
    specialize (Hmin b Hb1 Hb2). lia.
  - destruct (decide (t = a)); lia.
Qed.

Lemma received_bound_answer agents qs r :
  received_bound agents qs -> received_bound agents (set_last_answer qs r).
Proof.
  intros Hb a. rewrite received_answer.
  destruct (set_last_answer_facts qs r) as (_ & _ & ->). apply Hb.
Qed.

Section Ledger.

Variable E : Env.

Lemma determine_waiting st w a w1 :
  current_stage st = questioning -> waiting_for_answer st = true ->
  determine_next_node E st w = (Ok (Agent a), w1) ->
  current_target st = a.
Proof.
  unfold determine_next_node. intros -> ->.
  destruct (decide _); intros [= ]; done.
Qed.

Lemma determine_asking st w a w1 :
  current_stage st = questioning -> waiting_for_answer st = false ->
  determine_next_node E st w = (Ok (Agent a), w1) ->
  length (questions_asked st) < length (active_agents st).
Proof.
  unfold determine_next_node. intros -> ->.
  destruct (decide _); [done|]. intros [= ].
Qed.

(** The records of the ledger in the configurations of a run. *)
Lemma reachable_ledger agents R topic enable_rag max_refs c :
  valid_config agents R ->
  reachable E agents (inputs topic R agents enable_rag max_refs) c ->
  ledger_answered (cstate c)
  ∧ received_bound agents (questions_asked (cstate c)).
Proof.
  intros Hvalid Hreach.
  destruct (valid_config_facts _ _ Hvalid) as (Hnd & Hknown & Hlen & _).
  assert (Hlen2 : 2 ≤ length agents) by lia.
  induction Hreach as [|c c' Hreach IH Hstep].
  { split; [split; simpl; constructor|]. intros a. simpl.
    rewrite decide_True by lia. unfold received. simpl. lia. }
  destruct IH as [[Hasked Hans] Hbound].
  pose proof (reachable_Inv E _ _ _ _ _ _ Hvalid Hreach) as HI.
  destruct (step_exact E agents R c c' Hnd Hknown Hlen2 HI Hstep)
    as [t next w1 Hnode Hdet ->|a q w1 Hnode Hdet Hne Hst Hw ->
        |a w1 u st' w2 next w3 Hnode Hdet Hresp Hdet' ->]; simpl.
  - pose proof (transition_cases agents R c t Hlen2 HI Hnode) as Ht.
    cbv zeta in Ht. unfold ledger_answered. simpl.
    destruct Ht as [(_ & -> & _)|[(_ & -> & Hw & _)|(Hst & -> & _)]]; simpl.
    + split; [split; constructor|]. intros a. simpl.
      rewrite decide_True by lia. unfold received. simpl. lia.
    + done.
    + done.
  - done.
  - assert (Hin : a ∈ agents) by (by eapply Inv_node_in_graph).
    assert (Hka : known_agent a) by (rewrite Forall_forall in Hknown; auto).
    destruct Hka as [info Hinfo].
    destruct (response_exact E _ _ _ _ _ _ info Hinfo Hresp)
      as (Hc & msg & Hs & Hsaid).
    assert (Hnamed : named a msg) by (by exists info).
    destruct (cache_step_core _ _ _ Hc) as (Hag' & Hqs' & Hst').
    destruct (cache_step_fields _ _ _ Hc) as (Hw' & Hct' & _).
    destruct HI as [Hag _ _ Hled _ _ _ _ _ _ _ _ _].
    unfold ledger_answered in *.
    destruct Hsaid as [|cached Hst|t w4 Hst Hnot Hsel|Hst Hw Hct Hnil|Hst];
      simpl; rewrite ?Hqs', ?Hw', ?Hct'; try done.
    + (* a question *)
      assert (Hwait : waiting_for_answer (cstate c) = false).
      { destruct Hnot as [?|Hnot]; [done|].
        destruct (waiting_for_answer (cstate c)) eqn:Hw; [|done].
        by destruct Hnot; eapply determine_waiting. }
      rewrite Hwait in Hans.
      pose proof (determine_asking _ _ _ _ Hst Hwait Hdet) as Hl.
      rewrite Hag in Hl, Hsel.
      destruct (select_spec E agents (questions_asked (cstate c)) w1
                  Hnd Hled Hlen2)
        as (cq & ct & q' & t' & _ & _ & [_ Hct] & Ht' & Hsel').
      rewrite Hsel' in Hsel. injection Hsel as -> -> _.
      apply list_elem_of_lookup_2, Hct in Ht'.
      split; [split|].
      * apply Forall_app. split; [done|]. apply Forall_singleton.
        split; simpl; [|done]. destruct Ht' as [[_ ?] _]. congruence.
      * by exists (questions_asked (cstate c)), (mkQA a t msg "").
      * by apply received_bound_question.
    + (* an answer *)
      rewrite Hw in Hans.
      destruct Hans as (before & qa & Hqs & Hbefore & Hempty & Htarget).
      rewrite Hqs, set_last_answer_snoc in *.
      rewrite Forall_app, Forall_singleton in Hasked.
      destruct Hasked as [Hasked1 Hasked2].
      split; [split|].
      * apply Forall_app. split; [done|]. by apply Forall_singleton.
      * apply Forall_app. split; [done|]. apply Forall_singleton.
        unfold answered. simpl. congruence.
      * rewrite <- set_last_answer_snoc. by apply received_bound_answer.
Qed.

End Ledger.

(** ** The context cache along a run *)

Lemma said_cache E st st' a msg w u :
  said E st st' a msg w u ->
  agent_paper_cache (commit st' u) = agent_paper_cache st'
  ∧ first_round_rag_completed (commit st' u) = first_round_rag_completed st'.
Proof. destruct 1; try done. simpl. by destruct cached. Qed.

Section Cache.

Variable E : Env.

(** One superstep leaves the cache as it was, or adds the entry and the
    mark of a participant that had neither. *)
Lemma step_cache agents R c c' :
  NoDup agents -> Forall known_agent agents -> 2 ≤ length agents ->
  Inv agents R c -> step E agents c = Some c' ->
  (agent_paper_cache (cstate c') = agent_paper_cache (cstate c)
   ∧ first_round_rag_completed (cstate c')
     = first_round_rag_completed (cstate c))
  ∨ exists a context,
      a ∈ agents
      ∧ (a ∉ first_round_rag_completed (cstate c))
      ∧ agent_paper_cache (cstate c')
        = <[a := context]> (agent_paper_cache (cstate c))
      ∧ first_round_rag_completed (cstate c')
        = first_round_rag_completed (cstate c) ++ [a].
Proof.
  intros Hnd Hknown Hlen HI Hstep.
  destruct (step_exact E agents R c c' Hnd Hknown Hlen HI Hstep)
    as [t next w1 Hnode Hdet ->|a q w1 Hnode Hdet Hne Hst Hw ->
        |a w1 u st' w2 next w3 Hnode Hdet Hresp Hdet' ->]; simpl.
  - by left.
  - by left.
  - assert (Hin : a ∈ agents) by (by eapply Inv_node_in_graph).
    assert (Hka : known_agent a) by (rewrite Forall_forall in Hknown; auto).
    destruct Hka as [info Hinfo].
    destruct (response_exact E _ _ _ _ _ _ info Hinfo Hresp)
      as (Hc & msg & Hs & Hsaid).
    destruct (said_cache _ _ _ _ _ _ _ Hsaid) as [Hcache Hmarks].
    simpl in Hcache, Hmarks. rewrite Hcache, Hmarks.
    destruct Hc as [->|(_ & Hnot & context & ->)]; [by left|].
    right. by exists a, context.
Qed.

(** Only marked participants have a cache entry. *)
Lemma reachable_cache_keys agents R topic enable_rag max_refs c :
  valid_config agents R ->
  reachable E agents (inputs topic R agents enable_rag max_refs) c ->
  forall a, is_Some (agent_paper_cache (cstate c) !! a) ->
            a ∈ first_round_rag_completed (cstate c).
Proof.
  intros Hvalid Hreach.
  destruct (valid_config_facts _ _ Hvalid) as (Hnd & Hknown & Hlen & _).
  assert (Hlen2 : 2 ≤ length agents) by lia.
  induction Hreach as [|c c' Hreach IH Hstep].
  { intros a. simpl. rewrite lookup_empty. by intros [? ?]. }
  pose proof (reachable_Inv E _ _ _ _ _ _ Hvalid Hreach) as HI.
  destruct (step_cache agents R c c' Hnd Hknown Hlen2 HI Hstep)
    as [[-> ->]|(b & context & _ & Hnot & -> & ->)]; [done|].
  intros a. rewrite elem_of_app, list_elem_of_singleton.
  destruct (decide (a = b)) as [->|Hne]; [by right|].
  rewrite lookup_insert_ne by done. left. by apply IH.
Qed.

(** Only participants have a cache entry. *)
Lemma reachable_cache_agents agents R topic enable_rag max_refs c :
  valid_config agents R ->
  reachable E agents (inputs topic R agents enable_rag max_refs) c ->
  forall a, is_Some (agent_paper_cache (cstate c) !! a) -> a ∈ agents.
Proof.
  intros Hvalid Hreach.
  destruct (valid_config_facts _ _ Hvalid) as (Hnd & Hknown & Hlen & _).
  assert (Hlen2 : 2 ≤ length agents) by lia.
  induction Hreach as [|c c' Hreach IH Hstep].
  { intros a. simpl. rewrite lookup_empty. by intros [? ?]. }
  pose proof (reachable_Inv E _ _ _ _ _ _ Hvalid Hreach) as HI.
  destruct (step_cache agents R c c' Hnd Hknown Hlen2 HI Hstep)
    as [[-> _]|(b & context & Hb & _ & -> & _)]; [done|].
  intros a. destruct (decide (a = b)) as [->|Hne]; [done|].
  rewrite lookup_insert_ne by done. apply IH.
Qed.

(** An entry of the cache, and a mark, stay for the rest of the run. *)
Lemma steps_cache agents R topic enable_rag max_refs n : forall c c',
  valid_config agents R ->
  reachable E agents (inputs topic R agents enable_rag max_refs) c ->
  steps E agents n c = Some c' ->
  (forall a context,
     agent_paper_cache (cstate c) !! a = Some context ->
     agent_paper_cache (cstate c') !! a = Some context)
  ∧ (forall a, a ∈ first_round_rag_completed (cstate c) ->
               a ∈ first_round_rag_completed (cstate c')).
Proof.
  induction n as [|n IH]; intros c c' Hvalid Hreach Hsteps; simpl in Hsteps.
  { by simplify_eq. }
  destruct (step E agents c) as [c1|] eqn:Hstep; [|done].
  destruct (valid_config_facts _ _ Hvalid) as (Hnd & Hknown & Hlen & _).
  assert (Hlen2 : 2 ≤ length agents) by lia.
  pose proof (reachable_Inv E _ _ _ _ _ _ Hvalid Hreach) as HI.
  pose proof (reachable_cache_keys _ _ _ _ _ _ Hvalid Hreach) as Hkeys.
  assert (Hreach1 : reachable E agents
                      (inputs topic R agents enable_rag max_refs) c1)
    by (by eapply reach_step).
  destruct (IH c1 c' Hvalid Hreach1 Hsteps) as [IHc IHm].
  destruct (step_cache agents R c c1 Hnd Hknown Hlen2 HI Hstep)
    as [[Hc Hm]|(b & context & _ & Hnot & Hc & Hm)].
  - split.
    + intros a x Ha. apply IHc. by rewrite Hc.
    + intros a Ha. apply IHm. by rewrite Hm.
  - split.
    + intros a x Ha. apply IHc. rewrite Hc.
      rewrite lookup_insert_ne; [done|]. intros <-.
      apply Hnot, Hkeys. by rewrite Ha.
    + intros a Ha. apply IHm. rewrite Hm. apply elem_of_app. by left.
Qed.

End Cache.

(** ** How long a run takes *)

Lemma count_spoken_transition tr :
  count is_spoken tr + count is_transition tr ≤ length tr.
Proof.
  induction tr as [|ev tr IH] using rev_ind; [done|].
  rewrite !count_snoc, length_app. simpl.
  destruct (is_spoken ev) eqn:Hs; [|destruct (is_transition ev); lia].
  unfold is_spoken in Hs. destruct (ev_node ev); try done.
  apply andb_true_iff in Hs as [_ Hnt]. apply negb_true_iff in Hnt.
  rewrite Hnt. lia.
Qed.

Section Steady.

Variable E : Env.

Hypothesis Hrand : forall i, rand E i = rand E 0.

Lemma random_choice_const seq w w' :
  (random_choice E seq w).1 = (random_choice E seq w').1.
Proof.
  unfold random_choice. rewrite (Hrand (rand_pos w)), (Hrand (rand_pos w')).
  by destruct (seq !! _).
Qed.

Lemma select_const agents qs w w' :
  (select_next_questioner_and_target E agents qs w).1
  = (select_next_questioner_and_target E agents qs w').1.
Proof.
  unfold select_next_questioner_and_target.
  destruct (count_loop qs (dict_zero agents) (dict_zero agents))
    as [[qc tc]|e]; [|done].
  destruct (py_min qc.*2) as [m|e]; [|done].
  pose proof (random_choice_const (candidates_questioner qc m) w w') as H1.
  destruct (random_choice E (candidates_questioner qc m) w) as [[q|e] w1];
    destruct (random_choice E (candidates_questioner qc m) w')
      as [[q'|e'] w1']; simpl in H1; simplify_eq; [|done].
  destruct (py_min _) as [mt|e]; [|done].
  match goal with
  | |- context [random_choice E ?l w1] =>
      pose proof (random_choice_const l w1 w1') as H2;
      destruct (random_choice E l w1) as [[t|e] w2];
      destruct (random_choice E l w1') as [[t'|e'] w2']
  end; simpl in H2; by simplify_eq.
Qed.

Lemma determine_const st w w' :
  (determine_next_node E st w).1 = (determine_next_node E st w').1.
Proof.
  unfold determine_next_node.
  destruct (current_stage st); try by repeat case_decide.
  destruct (waiting_for_answer st); [by case_decide|].
  case_decide; [|done].
  pose proof (select_const (active_agents st) (questions_asked st) w w') as Hsel.
  destruct (select_next_questioner_and_target E _ _ w) as [[[q t]|e] w1];
    destruct (select_next_questioner_and_target E _ _ w')
      as [[[q' t']|e'] w1']; simpl in Hsel; by simplify_eq.
Qed.

End Steady.

Lemma determine_commit E s u w :
  determine_next_node E (commit s u) w = determine_next_node E (merge s u) w.
Proof. reflexivity. Qed.

Lemma determine_hop E s w :
  determine_next_node E (commit s (update_messages [])) w
  = determine_next_node E s w.
Proof. reflexivity. Qed.

Lemma said_counters E st st' a msg w u :
  cache_step st a st' -> said E st st' a msg w u ->
  current_stage (commit st' u) = current_stage st
  ∧ stage_progress (commit st' u) = stage_progress st + 1
  ∧ total_messages (commit st' u) = total_messages st + 1
  ∧ active_agents (commit st' u) = active_agents st
  ∧ max_rounds (commit st' u) = max_rounds st.
Proof.
  intros Hc Hsaid.
  destruct (cache_step_core _ _ _ Hc) as (Hag & _ & Hst).
  destruct (cache_step_fields _ _ _ Hc) as (_ & _ & _ & Hp & Ht & Hr & _).
  destruct Hsaid; simpl; rewrite ?Hag, ?Hst, ?Hp, ?Ht, ?Hr; done.
Qed.

Section Termination.

Variable E : Env.

Hypothesis Hsteady : steady E.

Lemma pipe_invoke_steady w :
  exists resp,
    pipe_invoke E w
    = (Ok resp, mkWorld (rand_pos w) (llm_pos w + 1) (rag_calls w)).
Proof.
  destruct Hsteady as [[_ Hllm] _]. unfold pipe_invoke.
  specialize (Hllm (llm_pos w)). destruct (llm E (llm_pos w)); [eauto|done].
Qed.

Lemma question_steady st a t w w1 info :
  roles_get AVAILABLE_ROLES a = Some info ->
  Forall known_agent (active_agents st) ->
  t ∈ active_agents st ->
  select_next_questioner_and_target E (active_agents st) (questions_asked st) w
  = (Ok (a, t), w1) ->
  exists msg st' w',
    _generate_question E st a w = (Ok (question_update st' a t msg), st', w').
Proof.
  intros Hinfo Hknown Ht Hsel. unfold _generate_question.
  rewrite Hinfo, Hsel. rewrite decide_False by (intros H; by apply H).
  assert (Hkt : known_agent t) by (rewrite Forall_forall in Hknown; auto).
  destruct Hkt as [tinfo ->].
  destruct (others_ok (active_agents st) a Hknown) as [l ->].
  destruct (get_rag_context_for_agent E a (main_topic st) st w1)
    as [[txt st1] w2] eqn:Hrag.
  destruct (get_rag_known E _ _ _ _ _ _ _ _ Hinfo Hrag) as [rag_text ->].
  apply get_rag_shape in Hrag as (Hc & _).
  destruct (cache_step_core _ _ _ Hc) as (_ & Hqs & _).
  destruct (pipe_invoke_steady w2) as [resp ->].
  eexists _, _, _. unfold question_update. by rewrite Hqs.
Qed.

Lemma answer_steady st a w info qa :
  roles_get AVAILABLE_ROLES a = Some info ->
  Forall known_agent (active_agents st) ->
  last (questions_asked st) = Some qa ->
  questioner qa ∈ active_agents st ->
  exists msg st' w',
    _generate_answer E st a w = (Ok (answer_update st' msg), st', w').
Proof.
  intros Hinfo Hknown Hlast Hq. unfold _generate_answer.
  rewrite Hinfo, Hlast.
  assert (Hkq : known_agent (questioner qa))
    by (rewrite Forall_forall in Hknown; auto).
  destruct Hkq as [qinfo ->].
  destruct (others_ok (active_agents st) a Hknown) as [l ->].
  destruct (get_rag_context_for_agent E a (main_topic st) st w)
    as [[txt st1] w1] eqn:Hrag.
  destruct (get_rag_known E _ _ _ _ _ _ _ _ Hinfo Hrag) as [rag_text ->].
  apply get_rag_shape in Hrag as (Hc & _).
  destruct (cache_step_core _ _ _ Hc) as (_ & Hqs & _).
  destruct (pipe_invoke_steady w1) as [resp ->].
  eexists _, _, _. unfold answer_update. by rewrite Hqs.
Qed.

(** With steady collaborators every superstep brings the run one step
    closer to [END], and the node to run is the one the scheduler names
    for the state. *)
Lemma step_remaining agents R c c' :
  NoDup agents -> Forall known_agent agents -> 2 ≤ length agents ->
  Inv agents R c ->
  (forall w, (determine_next_node E (cstate c) w).1 = Ok (node c)) ->
  step E agents c = Some c' ->
  remaining (length agents) R (cstate c)
  = S (remaining (length agents) R (cstate c'))
  ∧ forall w, (determine_next_node E (cstate c') w).1 = Ok (node c').
Proof.
  intros Hnd Hknown Hlen HI Hsched Hstep.
  destruct Hsteady as [[Hready Hllm] Hrand].
  destruct (step_exact E agents R c c' Hnd Hknown Hlen HI Hstep)
    as [t next w1 Hnode Hdet ->|a q w1 Hnode Hdet Hne Hst Hw ->
        |a w1 u st' w2 next w3 Hnode Hdet Hresp Hdet' ->]; simpl.
  - split.
    + pose proof (transition_cases agents R c t Hlen HI Hnode) as Ht.
      cbv zeta in Ht. unfold remaining. simpl.
      destruct Ht as [(-> & -> & Hp)|[(-> & -> & -> & Hk)|(-> & -> & Hp)]];
        simpl; lia.
    + intros w. rewrite determine_commit.
      rewrite (determine_const E Hrand _ w (world c)). by rewrite Hdet.
  - specialize (Hsched (world c)). rewrite Hdet, Hnode in Hsched.
    simpl in Hsched. congruence.
  - assert (Hin : a ∈ agents) by (by eapply Inv_node_in_graph).
    assert (Hka : known_agent a) by (rewrite Forall_forall in Hknown; auto).
    destruct Hka as [info Hinfo].
    destruct (response_exact E _ _ _ _ _ _ info Hinfo Hresp)
      as (Hc & msg & Hs & Hsaid).
    destruct (said_counters _ _ _ _ _ _ _ Hc Hsaid)
      as (Hst' & Hp' & _ & _ & _).
    split.
    2:{ intros w. rewrite determine_commit.
        rewrite (determine_const E Hrand _ w w2). by rewrite Hdet'. }
    destruct HI as [Hag Hro _ Hled _ Hqlen _ _ _ _ _ Hstage _].
    unfold stage_inv in Hstage. rewrite Hnode in Hstage.
    unfold remaining. rewrite Hst', Hp'.
    destruct (current_stage (cstate c)) eqn:Hst.
    + destruct Hstage as (_ & _ & _ & _ & _ & Hrule).
      apply rule_agent_linear in Hrule as [Hlt _]; [|by left].
      rewrite Hag in Hlt. lia.
    + destruct Hstage as (_ & _ & _ & Hwq & _).
      destruct (waiting_for_answer (cstate c)) eqn:Hw.
      * (* the answer *)
        pose proof (determine_waiting E _ _ _ _ Hst Hw Hdet) as Hct.
        destruct (Hwq eq_refl) as [_ Hnil].
        destruct (last (questions_asked (cstate c))) as [qa|] eqn:Hlast.
        2:{ by apply last_None in Hlast. }
        assert (Hqa : questioner qa ∈ active_agents (cstate c)).
        { rewrite Hag. apply Hled. apply last_Some in Hlast as [l ->].
          apply elem_of_app. right. left. }
        rewrite <- Hag in Hknown.
        destruct (answer_steady (cstate c) a w1 info qa Hinfo Hknown Hlast Hqa)
          as (msg' & st1 & w' & Hgen).
        unfold _generate_agent_response in Hresp.
        rewrite Hready, Hst, Hw, Hct, bool_decide_eq_true_2 in Hresp by done.
        simpl in Hresp. rewrite Hgen in Hresp.
        injection Hresp as <- <- <-. simpl.
        destruct (set_last_answer_facts (questions_asked st1) msg')
          as (_ & _ & ->).
        destruct (cache_step_core _ _ _ Hc) as (_ & -> & _). lia.
      * (* a question *)
        pose proof (determine_asking E _ _ _ _ Hst Hw Hdet) as Hk.
        assert (Hsel : exists t w0,
                  select_next_questioner_and_target E
                    (active_agents (cstate c)) (questions_asked (cstate c))
                    w1 = (Ok (a, t), w0)
                  ∧ t ∈ active_agents (cstate c)).
        { unfold determine_next_node in Hdet. rewrite Hst, Hw in Hdet.
          rewrite decide_True in Hdet by done.
          rewrite <- Hag in Hnd, Hlen, Hled.
          destruct (select_spec E _ _ w1 Hnd Hled Hlen)
            as (cq & ct & q' & t' & _ & _ & [_ Hct] & Ht' & Hsel').
          apply list_elem_of_lookup_2, Hct in Ht' as [[Ht' _] _].
          pose proof (select_const E Hrand (active_agents (cstate c))
                        (questions_asked (cstate c)) (world c) w1) as Heq.
          destruct (select_next_questioner_and_target E _ _ (world c))
            as [[[q t]|e] w0]; [|done].
          rewrite Hsel' in Heq. simpl in Heq. simplify_eq.
          eauto. }
        destruct Hsel as (t & w0 & Hsel & Ht).
        rewrite <- Hag in Hknown.
        destruct (question_steady (cstate c) a t w1 w0 info Hinfo Hknown Ht
                    Hsel) as (msg' & st1 & w' & Hgen).
        unfold _generate_agent_response in Hresp.
        rewrite Hready, Hst, Hw in Hresp. simpl in Hresp.
        rewrite Hgen in Hresp. injection Hresp as <- <- <-. simpl.
        rewrite length_app. simpl.
        destruct (cache_step_core _ _ _ Hc) as (_ & -> & _).
        rewrite Hag in Hk. lia.
    + destruct Hstage as (_ & _ & _ & _ & Hrule).
      apply rule_agent_free_debate in Hrule; [|done|rewrite Hag; lia].
      rewrite Hag, Hro in Hrule. lia.
    + destruct Hstage as (_ & _ & _ & _ & Hrule).
      apply rule_agent_linear in Hrule as [Hlt _]; [|by right].
      rewrite Hag in Hlt. lia.
Qed.

(** With steady collaborators a run reaches [END] in as many supersteps
    as [remaining] says, whatever fuel is left beyond them. *)
Lemma run_steady agents R topic enable_rag max_refs n : forall c,
  valid_config agents R ->
  reachable E agents (inputs topic R agents enable_rag max_refs) c ->
  (forall w, (determine_next_node E (cstate c) w).1 = Ok (node c)) ->
  remaining (length agents) R (cstate c) < n ->
  exists c',
    run E agents n c = Finished c'
    ∧ length (trace c')
      = length (trace c) + remaining (length agents) R (cstate c).
Proof.
  induction n as [|n IH]; intros c Hvalid Hreach Hsched Hrem; [lia|].
  destruct (valid_config_facts _ _ Hvalid) as (Hnd & Hknown & Hlen & _).
  assert (Hlen2 : 2 ≤ length agents) by lia.
  pose proof (reachable_Inv E _ _ _ _ _ _ Hvalid Hreach) as HI.
  destruct (decide (node c = END)) as [Hend|Hend].
  - exists c.
    destruct (Inv_END _ _ _ HI Hend) as (Hst & Hp & _).
    destruct c as [nd st w tr]. simpl in *. subst nd.
    split; [done|]. unfold remaining. rewrite Hst, Hp. lia.
  - destruct (step_defined E agents R c Hlen2 HI Hend) as [c1 Hstep].
    destruct (step_remaining agents R c c1 Hnd Hknown Hlen2 HI Hsched Hstep)
      as [Heq Hsched1].
    destruct (IH c1) as (c' & Hrun & Htrace); try done.
    { by eapply reach_step. }
    { lia. }
    exists c'. split.
    + simpl. rewrite Hstep.
      destruct (node c) eqn:Hn; done.
    + rewrite Htrace. destruct (step_trace E agents c c1 Hstep) as [u ->].
      rewrite length_app. simpl. lia.
Qed.

End Termination.

(** ** The selection on any list of participants *)

Lemma dict_get_is_Some (d : Dict) k : is_Some (dict_get d k) <-> k ∈ d.*1.
Proof.
  induction d as [|[k' v] d IH]; simpl.
  - split; [by intros [? ?]|by intros ?%elem_of_nil].
  - destruct (decide (k' = k)) as [->|Hne].
    + split; [left|by eexists].
    + rewrite IH, elem_of_cons. split; [by right|].
      intros [?|?]; [congruence|done].
Qed.

Lemma dict_set_keys (d : Dict) k v k' :
  k' ∈ (dict_set d k v).*1 <-> k' = k ∨ k' ∈ d.*1.
Proof.
  induction d as [|[k0 v0] d IH]; simpl.
  - rewrite list_elem_of_singleton, elem_of_nil. tauto.
  - destruct (decide (k0 = k)) as [->|Hne]; simpl.
    + rewrite !elem_of_cons. tauto.
    + rewrite !elem_of_cons, IH. tauto.
Qed.

Lemma dict_zero_keys keys k : k ∈ (dict_zero keys).*1 <-> k ∈ keys.
Proof.
  unfold dict_zero.
  assert (H : forall d, k ∈ (foldl (fun d k => dict_set d k 0) d keys).*1
                        <-> k ∈ d.*1 ∨ k ∈ keys).
  { induction keys as [|k0 keys IH]; intros d; simpl.
    - rewrite elem_of_nil. tauto.
    - rewrite IH, dict_set_keys, elem_of_cons. tauto. }
  rewrite H. simpl. rewrite elem_of_nil. tauto.
Qed.

Lemma dict_incr_keys (d d' : Dict) k :
  dict_incr d k = Ok d' -> forall k', k' ∈ d'.*1 <-> k' ∈ d.*1.
Proof.
  unfold dict_incr. destruct (dict_get d k) as [v|] eqn:Hget; [|done].
  intros [= <-] k'. rewrite dict_set_keys.
  assert (k ∈ d.*1) by (apply dict_get_is_Some; by rewrite Hget).
  split; [by intros [->|?]|by right].
Qed.

Lemma dict_incr_Ok (d : Dict) k : is_ok (dict_incr d k) = true <-> k ∈ d.*1.
Proof.
  rewrite <- dict_get_is_Some. unfold dict_incr.
  destruct (dict_get d k); simpl.
  - split; [by eexists|done].
  - split; [done|by intros [? ?]].
Qed.

Lemma count_loop_Ok qs : forall qc tc,
  is_ok (count_loop qs qc tc) = true
  <-> forall qa, qa ∈ qs -> questioner qa ∈ qc.*1 ∧ target qa ∈ tc.*1.
Proof.
  induction qs as [|qa qs IH]; intros qc tc; simpl.
  - split; [by intros _ ? ?%elem_of_nil|done].
  - pose proof (dict_incr_Ok qc (questioner qa)) as Hq.
    pose proof (dict_incr_Ok tc (target qa)) as Ht.
    destruct (dict_incr qc (questioner qa)) as [qc'|e] eqn:Hqc.
    2:{ simpl in Hq. split; [done|]. intros H.
        destruct (H qa) as [? _]; [left|]. by apply Hq. }
    destruct (dict_incr tc (target qa)) as [tc'|e] eqn:Htc.
    2:{ simpl in Ht. split; [done|]. intros H.
        destruct (H qa) as [_ ?]; [left|]. by apply Ht. }
    rewrite IH. simpl in Hq, Ht.
    pose proof (dict_incr_keys _ _ _ Hqc) as Hkq.
    pose proof (dict_incr_keys _ _ _ Htc) as Hkt.
    split.
    + intros H qa' [->|Hin]%elem_of_cons.
      * split; [by apply Hq|by apply Ht].
      * destruct (H qa' Hin) as [H1 H2]. by rewrite <- Hkq, <- Hkt.
    + intros H qa' Hin. destruct (H qa') as [H1 H2]; [by right|].
      by rewrite Hkq, Hkt.
Qed.

Lemma count_loop_keys qs : forall qc tc qc' tc',
  count_loop qs qc tc = Ok (qc', tc') ->
  forall k, (k ∈ qc'.*1 <-> k ∈ qc.*1) ∧ (k ∈ tc'.*1 <-> k ∈ tc.*1).
Proof.
  induction qs as [|qa qs IH]; intros qc tc qc' tc'; simpl.
  - by intros [= <- <-].
  - destruct (dict_incr qc (questioner qa)) as [qc1|e] eqn:Hqc; [|done].
    destruct (dict_incr tc (target qa)) as [tc1|e] eqn:Htc; [|done].
    intros Hloop k. destruct (IH _ _ _ _ Hloop k) as [H1 H2].
    rewrite H1, H2.
    by rewrite (dict_incr_keys _ _ _ Hqc), (dict_incr_keys _ _ _ Htc).
Qed.

Lemma py_min_Ok (l : list nat) : is_ok (py_min l) = true <-> l ≠ [].
Proof. by destruct l. Qed.

Lemma candidates_questioner_nonempty (qc : Dict) m :
  m ∈ qc.*2 -> candidates_questioner qc m ≠ [].
Proof.
  intros Hm. apply list_elem_of_fmap in Hm as ([k v] & -> & Hin).
  unfold candidates_questioner. intros Hnil.
  assert (Hk : k ∈ (filter (fun item => item.2 = v) qc).*1).
  { apply list_elem_of_fmap. exists (k, v). split; [done|].
    by apply list_elem_of_filter. }
  simpl in Hnil. rewrite Hnil in Hk. by apply elem_of_nil in Hk.
Qed.

Lemma candidates_questioner_keys (qc : Dict) m q :
  q ∈ candidates_questioner qc m -> q ∈ qc.*1.
Proof.
  unfold candidates_questioner.
  intros ([k v] & -> & [_ Hin]%list_elem_of_filter)%list_elem_of_fmap.
  apply list_elem_of_fmap. by exists (k, v).
Qed.

Lemma candidates_target_nonempty tc available m :
  m ∈ count_of tc <$> available -> candidates_target tc available m ≠ [].
Proof.
  intros (t & -> & Hin)%list_elem_of_fmap. unfold candidates_target.
  intros Hnil.
  assert (Ht : t ∈ filter (fun agent => count_of tc agent = count_of tc t)
                          available) by (by apply list_elem_of_filter).
  rewrite Hnil in Ht. by apply elem_of_nil in Ht.
Qed.

Section SelectionErrors.

Variable E : Env.

Lemma random_choice_Some seq w r w' :
  random_choice E seq w = (Ok r, w') -> r ∈ seq ∧ w' = drawn w 1.
Proof.
  unfold random_choice.
  destruct (seq !! _) as [x|] eqn:Hl; [|done].
  intros [= <- <-]. split; [by eapply list_elem_of_lookup_2|done].
Qed.

(** The selection succeeds exactly on a ledger between participants of
    whom two are different; it then returns two different participants
    and has drawn two numbers. *)
Lemma select_Ok agents qs w :
  (is_ok (select_next_questioner_and_target E agents qs w).1 = true
   <-> ledger_ok agents qs ∧ exists a b, a ∈ agents ∧ b ∈ agents ∧ a ≠ b)
  ∧ forall q t w',
      select_next_questioner_and_target E agents qs w = (Ok (q, t), w') ->
      q ∈ agents ∧ t ∈ agents ∧ t ≠ q ∧ w' = drawn w 2.
Proof.
  unfold select_next_questioner_and_target.
  pose proof (count_loop_Ok qs (dict_zero agents) (dict_zero agents)) as Hloop.
  destruct (count_loop qs (dict_zero agents) (dict_zero agents))
    as [[qc tc]|e] eqn:Hcl.
  2:{ simpl in *. split; [|done]. split; [done|]. intros [Hled _].
      apply Hloop. intros qa Hqa. rewrite !dict_zero_keys. by apply Hled. }
  assert (Hled : ledger_ok agents qs).
  { intros qa Hqa. destruct Hloop as [Hloop _].
    specialize (Hloop eq_refl qa Hqa). by rewrite !dict_zero_keys in Hloop. }
  pose proof (count_loop_keys _ _ _ _ _ Hcl) as Hkeys.
  assert (Hqk : forall k, k ∈ qc.*1 <-> k ∈ agents).
  { intros k. destruct (Hkeys k) as [-> _]. apply dict_zero_keys. }
  destruct (py_min qc.*2) as [m|e] eqn:Hmin.
  2:{ simpl. split; [|done]. split; [done|]. intros (_ & a & _ & Ha & _).
      destruct qc as [|[k v] qc]; [|done].
      apply Hqk in Ha. by apply elem_of_nil in Ha. }
  assert (Hm : m ∈ qc.*2).
  { destruct (py_min_spec qc.*2) as (m' & Hm' & Hin & _).
    - intros Hnil. by rewrite Hnil in Hmin.
    - congruence. }
  pose proof (candidates_questioner_nonempty qc m Hm) as Hcq.
  destruct (random_choice_Ok E _ w Hcq) as (q & Hq & ->).
  apply list_elem_of_lookup_2, candidates_questioner_keys, Hqk in Hq.
  destruct (py_min (count_of tc <$> available_targets agents q))
    as [mt|e] eqn:Hmint.
  2:{ simpl. split; [|done]. split; [done|].
      intros (_ & a & b & Ha & Hb & Hab).
      assert (Hnil : available_targets agents q = [])
        by (by destruct (available_targets agents q)).
      assert (Hex : exists x, x ∈ agents ∧ x ≠ q).
      { destruct (decide (a = q)) as [->|]; [exists b|exists a]; auto. }
      destruct Hex as (x & Hx & Hxq).
      assert (Hin : x ∈ available_targets agents q)
        by (by apply list_elem_of_filter).
      rewrite Hnil in Hin. by apply elem_of_nil in Hin. }
  assert (Hmt : mt ∈ count_of tc <$> available_targets agents q).
  { destruct (py_min_spec (count_of tc <$> available_targets agents q))
      as (m' & Hm' & Hin & _).
    - intros Hnil. by rewrite Hnil in Hmint.
    - congruence. }
  pose proof (candidates_target_nonempty tc _ mt Hmt) as Hct.
  destruct (random_choice_Ok E _ (drawn w 1) Hct) as (t & Ht & ->).
  apply list_elem_of_lookup_2 in Ht.
  apply list_elem_of_filter in Ht as [_ Ht].
  apply list_elem_of_filter in Ht as [Htq Ht].
  simpl. split.
  - split; [|done]. intros _. split; [done|]. exists t, q. auto.
  - intros q' t' w' [= <- <- <-]. repeat split; try done.
    unfold drawn. simpl. f_equal. lia.
Qed.

End SelectionErrors.

(** ** The scheduler on any state *)

Section Range.

Variable E : Env.

Lemma agent_at_Ok agents i :
  i < length agents -> exists a, a ∈ agents ∧ agent_at agents i = Ok (Agent a).
Proof.
  intros Hi. destruct (agent_at_lookup agents i Hi) as (a & Hl & ->).
  exists a. split; [by eapply list_elem_of_lookup_2|done].
Qed.

(** What the scheduler returns is a participant of the state, the
    transition to the stage after the current one, or, in closing, the
    end. *)
Lemma determine_range st w next w' :
  determine_next_node E st w = (Ok next, w') ->
  match next with
  | Agent a => a ∈ active_agents st
  | Transition t =>
      (current_stage st = opening ∧ t = questioning)
      ∨ (current_stage st = questioning ∧ t = free_debate)
      ∨ (current_stage st = free_debate ∧ t = closing)
  | END => current_stage st = closing
  end.
Proof.
  unfold determine_next_node. destruct (current_stage st) eqn:Hst.
  - case_decide as Hp.
    + destruct (agent_at_Ok _ _ Hp) as (a & Ha & ->). by intros [= <- <-].
    + intros [= <- <-]. auto.
  - destruct (waiting_for_answer st).
    + case_decide as Ht; intros [= <- <-]; [apply Ht|auto].
    + case_decide; [|intros [= <- <-]; auto].
      destruct (select_next_questioner_and_target E _ _ w)
        as [[[q t]|e] w1] eqn:Hsel; [|done].
      intros [= <- <-]. by apply (select_Ok E) in Hsel as (? & _).
  - case_decide as Hz; [done|]. case_decide.
    + assert (Hp : stage_progress st `mod` length (active_agents st)
                   < length (active_agents st))
        by (by apply Nat.mod_upper_bound).
      destruct (agent_at_Ok _ _ Hp) as (a & Ha & ->). by intros [= <- <-].
    + intros [= <- <-]. auto.
  - case_decide as Hp.
    + destruct (agent_at_Ok _ _ Hp) as (a & Ha & ->). by intros [= <- <-].
    + by intros [= <- <-].
Qed.

(** The scheduler raises in two cases only: in free debate without
    participants, and when it has to draw a questioner and the selection
    raises. *)
Lemma determine_raises st w :
  is_ok (determine_next_node E st w).1 = false
  <-> (current_stage st = free_debate ∧ active_agents st = [])
      ∨ (current_stage st = questioning ∧ waiting_for_answer st = false
         ∧ length (questions_asked st) < length (active_agents st)
         ∧ is_ok (select_next_questioner_and_target E (active_agents st)
                    (questions_asked st) w).1 = false).
Proof.
  unfold determine_next_node. destruct (current_stage st) eqn:Hst.
  - case_decide as Hp.
    + destruct (agent_at_Ok _ _ Hp) as (a & Ha & ->). simpl.
      split; [done|]. by intros [[? _]|[? _]].
    + simpl. split; [done|]. by intros [[? _]|[? _]].
  - destruct (waiting_for_answer st).
    + case_decide; simpl; (split; [done|]);
        by intros [[? _]|(_ & ? & _)].
    + case_decide as Hl.
      * destruct (select_next_questioner_and_target E _ _ w)
          as [[[q t]|e] w1]; simpl.
        -- split; [done|]. by intros [[? _]|(_ & _ & _ & ?)].
        -- split; [by right|done].
      * simpl. split; [done|]. intros [[? _]|(_ & _ & ? & _)]; done.
  - case_decide as Hz.
    + simpl. split; [|done]. intros _. left. split; [done|].
      by apply nil_length_inv.
    + case_decide.
      * assert (Hp : stage_progress st `mod` length (active_agents st)
                     < length (active_agents st))
          by (by apply Nat.mod_upper_bound).
        destruct (agent_at_Ok _ _ Hp) as (a & Ha & ->). simpl.
        split; [done|]. intros [[_ Hnil]|[? _]]; [|done].
        by rewrite Hnil in Hz.
      * simpl. split; [done|]. intros [[_ Hnil]|[? _]]; [|done].
        by rewrite Hnil in Hz.
  - case_decide as Hp.
    + destruct (agent_at_Ok _ _ Hp) as (a & Ha & ->). simpl.
      split; [done|]. by intros [[? _]|[? _]].
    + simpl. split; [done|]. by intros [[? _]|[? _]].
Qed.

End Range.

(** ** The prompt formatters *)

Lemma opening_blocks_Ok opening_statements agents :
  is_ok (opening_blocks opening_statements agents) = true
  <-> forall a, a ∈ agents -> is_Some (opening_statements !! a) ->
                known_agent a.
Proof.
  induction agents as [|a agents IH]; simpl.
  - split; [by intros _ ? ?%elem_of_nil|done].
  - destruct (opening_statements !! a) as [statement|] eqn:Hs.
    + destruct (roles_get AVAILABLE_ROLES a) as [info|] eqn:Hinfo.
      * destruct (opening_blocks opening_statements agents); simpl in *.
        -- split; [|done]. intros _ b [->|Hb]%elem_of_cons ?.
           ++ by exists info.
           ++ by apply IH.
        -- split; [done|]. intros H. apply IH. intros b Hb. apply H.
           by right.
      * simpl. split; [done|]. intros H.
        destruct (H a) as [info Hi]; [left|by eexists|].
        unfold known_agent in *. congruence.
    + rewrite IH. split.
      * intros H b [->|Hb]%elem_of_cons; [|by apply H].
        rewrite Hs. by intros [? ?].
      * intros H b Hb. apply H. by right.
Qed.

Lemma opening_blocks_length opening_statements agents blocks :
  opening_blocks opening_statements agents = Ok blocks ->
  length blocks
  = length (filter (fun a => is_Some (opening_statements !! a)) agents).
Proof.
  revert blocks. induction agents as [|a agents IH]; intros blocks; simpl.
  - by intros [= <-].
  - rewrite filter_cons.
    destruct (opening_statements !! a) as [statement|] eqn:Hs.
    + rewrite decide_True by (by eexists).
      destruct (roles_get AVAILABLE_ROLES a); [|done].
      destruct (opening_blocks opening_statements agents) as [l|]; [|done].
      intros [= <-]. simpl. by rewrite (IH l).
    + rewrite decide_False by (by intros [? ?]). apply IH.
Qed.

Lemma qa_lines_Ok qs : forall i,
  is_ok (qa_lines i qs) = true
  <-> forall qa, qa ∈ qs ->
        known_agent (questioner qa) ∧ known_agent (target qa).
Proof.
  induction qs as [|qa qs IH]; intros i; simpl.
  - split; [by intros _ ? ?%elem_of_nil|done].
  - destruct (roles_get AVAILABLE_ROLES (questioner qa)) as [qi|] eqn:Hq.
    2:{ simpl. split; [done|]. intros H.
        destruct (H qa) as [[? Hk] _]; [left|].
        unfold known_agent in *. congruence. }
    destruct (roles_get AVAILABLE_ROLES (target qa)) as [ti|] eqn:Ht.
    2:{ simpl. split; [done|]. intros H.
        destruct (H qa) as [_ [? Hk]]; [left|].
        unfold known_agent in *. congruence. }
    specialize (IH (i + 1)).
    destruct (qa_lines (i + 1) qs); simpl in *.
    + split; [|done]. intros _ qa' [->|Hin]%elem_of_cons.
      * split; by eexists.
      * by apply IH.
    + split; [done|]. intros H. apply IH. intros qa' Hin. apply H. by right.
Qed.

Lemma qa_lines_length qs : forall i lines,
  qa_lines i qs = Ok lines -> length lines = 4 * length qs.
Proof.
  induction qs as [|qa qs IH]; intros i lines; simpl.
  - by intros [= <-].
  - destruct (roles_get AVAILABLE_ROLES (questioner qa)); [|done].
    destruct (roles_get AVAILABLE_ROLES (target qa)); [|done].
    destruct (qa_lines (i + 1) qs) as [l|] eqn:Hl; [|done].
    intros [= <-]. simpl. rewrite (IH _ _ Hl). lia.
Qed.

Lemma estimated_speaker_Ok agents idx :
  agents ≠ [] ->
  exists a, estimated_speaker agents idx = Ok a
            ∧ agents !! (idx mod length agents) = Some a.
Proof.
  intros Hne. unfold estimated_speaker.
  assert (Hlen : length agents ≠ 0) by (by destruct agents).
  rewrite decide_False by done.
  destruct (agents !! (idx mod length agents)) as [a|] eqn:Hl; [by exists a|].
  apply lookup_ge_None in Hl.
  pose proof (Nat.mod_upper_bound idx (length agents) Hlen). lia.
Qed.

Lemma history_blocks_Ok agents msgs : forall idx,
  agents ≠ [] -> Forall known_agent agents ->
  exists blocks,
    history_blocks agents idx msgs = Ok blocks
    ∧ length blocks = length msgs.
Proof.
  induction msgs as [|m msgs IH]; intros idx Hne Hknown; simpl.
  - by exists [].
  - destruct (estimated_speaker_Ok agents idx Hne) as (a & -> & Hl).
    assert (Hka : known_agent a).
    { rewrite Forall_forall in Hknown. apply Hknown.
      by eapply list_elem_of_lookup_2. }
    destruct Hka as [info ->].
    destruct (IH (idx + 1) Hne Hknown) as (blocks & -> & Hlen).
    eexists. split; [done|]. simpl. by rewrite Hlen.
Qed.

Lemma recent_length {msgs : list string} max_show :
  max_show ≠ 0 -> length (recent msgs max_show) = max_show `min` length msgs.
Proof.
  intros Hk. unfold recent, py_last.
  case_decide; [|lia]. rewrite decide_False by done.
  rewrite length_drop. lia.
Qed.

Lemma recent_suffix (msgs : list string) max_show :
  msgs = take (length msgs - length (recent msgs max_show)) msgs
         ++ recent msgs max_show.
Proof.
  unfold recent, py_last. case_decide.
  - case_decide.
    + by rewrite Nat.sub_diag.
    + rewrite length_drop.
      replace (length msgs - (length msgs - (length msgs - max_show)))
        with (length msgs - max_show) by lia.
      by rewrite take_drop.
  - by rewrite Nat.sub_diag.
Qed.

(** ** The page *)

Lemma lstrip_solid c s : solid c = true -> lstrip (String c s) = String c s.
Proof.
  unfold solid. intros [Hsp Hlead]%andb_prop.
  apply negb_true_iff in Hsp. apply negb_true_iff in Hlead.
  apply orb_false_iff in Hlead as [Hlead H227].
  apply orb_false_iff in Hlead as [Hlead H226].
  apply orb_false_iff in Hlead as [H194 H225].
  simpl. rewrite Hsp. destruct s as [|d s]; [done|].
  unfold is_space2. rewrite H194. simpl. destruct s as [|e s]; [done|].
  unfold is_space3. by rewrite H225, H226, H227.
Qed.

Lemma strip_solid c s : solid c = true -> strip (String c s) ≠ "".
Proof.
  intros Hc. unfold strip. rewrite lstrip_solid by done.
  change (rstrip (String c s))
    with (match lstrip (String c (rstrip s)) with
          | EmptyString => EmptyString
          | String _ _ => String c (rstrip s)
          end).
  by rewrite (lstrip_solid c (rstrip s) Hc).
Qed.

Lemma roles_solid a info :
  roles_get AVAILABLE_ROLES a = Some info ->
  exists c p, name info = String c p ∧ solid c = true.
Proof.
  unfold roles_get, AVAILABLE_ROLES.
  repeat case_decide; intros [= <-]; eexists _, _; split; reflexivity.
Qed.

Lemma named_visible a msg : named a msg -> msg ≠ "" ∧ strip msg ≠ "".
Proof.
  intros (info & Hinfo & Hs).
  destruct (roles_solid a info Hinfo) as (c & p & Hname & Hc).
  unfold startswith in Hs. rewrite Hname in Hs.
  destruct msg as [|b msg]; [done|]. simpl in Hs.
  destruct (ascii_dec c b) as [->|]; [|done].
  split; [done|]. by apply strip_solid.
Qed.

Lemma transition_marker t : t ≠ opening -> marker (stage_message t) = true.
Proof. destruct t; [done|..]; intros _; vm_compute; reflexivity. Qed.

Lemma transition_not_agent t : ¬ known_agent (node_key (Transition t)).
Proof.
  destruct t; intros [info Hinfo]; vm_compute in Hinfo; discriminate.
Qed.

Lemma round_of_next p (agents : list string) :
  agents ≠ [] ->
  round_of (p + 1) agents = Z.of_nat (p / length agents + 1).
Proof.
  intros Hne. unfold round_of.
  assert (length agents ≠ 0) by (by destruct agents).
  replace (Z.of_nat (p + 1) - 1)%Z with (Z.of_nat p) by lia.
  rewrite <- Nat2Z.inj_div. lia.
Qed.

Lemma show_header_fields p :
  page_stage (show_header p) = page_stage p
  ∧ page_progress (show_header p) = page_progress p
  ∧ message_count (show_header p) = message_count p
  ∧ displayed (show_header p) = displayed p
  ∧ forall agents R, Forall (item_ok agents R) (shown p) ->
                     Forall (item_ok agents R) (shown (show_header p)).
Proof.
  unfold show_header, displayed. simpl. repeat split.
  - rewrite omap_app. simpl. by rewrite app_nil_r.
  - intros agents R H. apply Forall_app. split; [done|].
    by apply Forall_singleton.
Qed.

Lemma show_progress_fields selected max_rounds p :
  page_stage (show_progress selected max_rounds p) = page_stage p
  ∧ page_progress (show_progress selected max_rounds p) = page_progress p
  ∧ message_count (show_progress selected max_rounds p) = message_count p
  ∧ displayed (show_progress selected max_rounds p) = displayed p
  ∧ forall agents R,
      Forall (item_ok agents R) (shown p) ->
      Forall (item_ok agents R) (shown (show_progress selected max_rounds p)).
Proof.
  unfold show_progress, displayed.
  destruct (display_debate_progress _ _ _ _); simpl; repeat split; try done.
  - rewrite omap_app. simpl. by rewrite app_nil_r.
  - intros agents R H. apply Forall_app. split; [done|].
    by apply Forall_singleton.
Qed.

Lemma show_stream_snoc selected max_rounds tr ev :
  show_stream selected max_rounds (tr ++ [ev])
  = show_update selected max_rounds (show_stream selected max_rounds tr) ev.
Proof. unfold show_stream. by rewrite foldl_app. Qed.

Lemma said_progress E st st' a msg w u :
  cache_step st a st' -> said E st st' a msg w u ->
  u_messages u = [msg] ∧ u_current_stage u = None
  ∧ u_stage_progress u = Some (stage_progress st + 1).
Proof.
  intros Hc Hsaid.
  destruct (cache_step_fields _ _ _ Hc) as (_ & _ & _ & Hp & _).
  destruct Hsaid; simpl; rewrite ?Hp; done.
Qed.

Section PageOfRun.

Variable E : Env.

(** The page after the stream of a run: its variables are the stage and
    the progress of the state, and its screen holds, in order, the
    messages of the transcript that have no marker. *)
Lemma reachable_page agents R topic enable_rag max_refs c :
  valid_config agents R ->
  reachable E agents (inputs topic R agents enable_rag max_refs) c ->
  let p := show_stream agents R (trace c) in
  page_stage p = current_stage (cstate c)
  ∧ page_progress p = stage_progress (cstate c)
  ∧ displayed p = filter (fun m => marker m = false) (messages (cstate c))
  ∧ message_count p = length (displayed p)
  ∧ Forall (item_ok agents R) (shown p).
Proof.
  intros Hvalid Hreach. cbv zeta.
  destruct (valid_config_facts _ _ Hvalid) as (Hnd & Hknown & Hlen & _).
  assert (Hlen2 : 2 ≤ length agents) by lia.
  induction Hreach as [|c c' Hreach IH Hstep].
  { repeat split; try done. }
  destruct IH as (Hps & Hpp & Hdisp & Hcount & Hitems).
  pose proof (reachable_Inv E _ _ _ _ _ _ Hvalid Hreach) as HI.
  destruct (step_exact E agents R c c' Hnd Hknown Hlen2 HI Hstep)
    as [t next w1 Hnode Hdet ->|a q w1 Hnode Hdet Hne Hst Hw ->
        |a w1 u st' w2 next w3 Hnode Hdet Hresp Hdet' ->]; simpl;
    rewrite show_stream_snoc; unfold show_update; simpl.
  - rewrite decide_False.
    2:{ intros Hin. apply (transition_not_agent t).
        rewrite Forall_forall in Hknown. by apply Hknown. }
    pose proof (transition_cases agents R c t Hlen2 HI Hnode) as Ht.
    cbv zeta in Ht.
    assert (Hto : t ≠ opening)
      by (by destruct Ht as [(_ & -> & _)|[(_ & -> & _)|(_ & -> & _)]]).
    unfold show_announcement. rewrite (transition_marker t Hto).
    set (p := track (show_stream agents R (trace c)) (transition_update t)).
    destruct (show_header_fields p) as (H1 & H2 & H3 & H4 & H5).
    destruct (show_progress_fields agents R (show_header p))
      as (G1 & G2 & G3 & G4 & G5).
    rewrite G1, G2, G3, G4, H1, H2, H3, H4.
    rewrite filter_app, filter_cons, filter_nil.
    rewrite decide_False by (by rewrite (transition_marker t Hto)).
    rewrite app_nil_r.
    repeat split; try done. by apply G5, H5.
  - rewrite decide_True by (by eapply Inv_node_in_graph).
    rewrite app_nil_r. by repeat split.
  - assert (Hin : a ∈ agents) by (by eapply Inv_node_in_graph).
    assert (Hka : known_agent a) by (rewrite Forall_forall in Hknown; auto).
    destruct Hka as [info Hinfo].
    destruct (response_exact E _ _ _ _ _ _ info Hinfo Hresp)
      as (Hc & msg & Hs & Hsaid).
    assert (Hnamed : named a msg) by (by exists info).
    destruct (named_visible a msg Hnamed) as [Hne Hstrip].
    destruct (said_progress _ _ _ _ _ _ _ Hc Hsaid) as (Hm & Hcs & Hsp).
    destruct (said_counters _ _ _ _ _ _ _ Hc Hsaid) as (Hst' & Hp' & _).
    simpl in Hst', Hp'. rewrite Hst', Hp'.
    rewrite (cache_step_messages _ _ _ Hc), Hm.
    rewrite decide_True by done. simpl.
    unfold show_message. rewrite decide_False by (intros [?|?]; done).
    rewrite filter_app, filter_cons, filter_nil.
    set (p := track (show_stream agents R (trace c)) u).
    assert (Hp1 : page_stage p = current_stage (cstate c))
      by (unfold p; simpl; by rewrite Hcs).
    assert (Hp2 : page_progress p = stage_progress (cstate c) + 1)
      by (unfold p; simpl; by rewrite Hsp).
    destruct (marker msg) eqn:Hmark.
    + destruct (show_header_fields p) as (H1 & H2 & H3 & H4 & H5).
      rewrite H1, H2, H3, H4.
      rewrite (decide_False (P := true = false)) by done.
      rewrite app_nil_r. repeat split; try done. by apply H5.
    + rewrite Hinfo. rewrite (decide_True (P := false = false)) by done.
      match goal with
      | |- context [show_progress agents R ?p0] =>
          destruct (show_progress_fields agents R p0)
            as (G1 & G2 & G3 & G4 & G5);
          rewrite G1, G2, G3, G4
      end.
      unfold displayed at 1 2. simpl. rewrite omap_app. simpl.
      fold (displayed (show_stream agents R (trace c))).
      rewrite length_app. simpl.
      repeat split; try done; [by rewrite Hdisp|by rewrite Hcount|].
      apply G5. simpl. apply Forall_app. split; [done|].
      apply Forall_singleton. unfold item_ok.
      repeat split; try done.
      rewrite ?Hcs, ?Hsp. simpl. rewrite ?Hps, ?Hpp.
      destruct (decide (current_stage (cstate c) = free_debate)) as [Hfd|];
        [|done].
      destruct HI as [Hag Hro _ _ _ _ _ _ _ _ _ Hstage _].
      unfold stage_inv in Hstage. rewrite Hfd, Hnode in Hstage.
      destruct Hstage as (_ & _ & _ & _ & Hrule).
      apply rule_agent_free_debate in Hrule; [|done|rewrite Hag; lia].
      rewrite Hag, Hro in Hrule.
      eexists. split; [done|].
      rewrite round_of_next by (intros ->; simpl in *; lia).
      assert (stage_progress (cstate c) / length agents < R).
      { apply Nat.Div0.div_lt_upper_bound. lia. }
      lia.
Qed.

End PageOfRun.

(** ** The preload *)

Section Preload.

Variable E : Env.



End Preload.

(** ** The sidebar *)

Lemma registry_keys :
  NoDup AVAILABLE_ROLES.*1 ∧ Forall known_agent AVAILABLE_ROLES.*1.
Proof.
  split.
  - apply (bool_decide_unpack _). vm_compute. exact I.
  - apply (bool_decide_unpack _). vm_compute. exact I.
Qed.

Lemma selected_agents_facts checked :
  NoDup (selected_agents checked)
  ∧ Forall known_agent (selected_agents checked)
  ∧ length (selected_agents checked) ≤ 6.
Proof.
  destruct registry_keys as [Hnd Hknown]. unfold selected_agents.
  split; [by apply NoDup_filter|]. split.
  - rewrite Forall_forall in *. intros a [_ Ha]%list_elem_of_filter. auto.
  - etrans; [apply length_filter|]. done.
Qed.

Lemma create_graph_Ok agents :
  create_multi_agent_graph agents = Ok agents
  <-> 3 ≤ length agents ≤ 6 ∧ Forall known_agent agents ∧ NoDup agents.
Proof.
  unfold create_multi_agent_graph.
  case_decide; [split; [done|lia]|].
  case_decide; [split; [done|lia]|].
  destruct (list_find _ agents) as [[i a]|] eqn:Hfind.
  - apply list_find_Some in Hfind as (Hl & Hnot & _).
    split; [done|]. intros (_ & Hknown & _). destruct Hnot.
    rewrite Forall_forall in Hknown. apply Hknown.
    by eapply list_elem_of_lookup_2.
  - apply list_find_None in Hfind.
    assert (Hknown : Forall known_agent agents).
    { eapply Forall_impl; [exact Hfind|]. intros a Ha. simpl in Ha.
      by apply dec_stable. }
    case_decide; [|split; [done|tauto]].
    split; [|done]. intros _. repeat split; try done; lia.
Qed.

Section NotWaiting.

Variable E : Env.

(** Outside the questioning stage no answer is pending. *)
Lemma reachable_not_waiting agents R topic enable_rag max_refs c :
  valid_config agents R ->
  reachable E agents (inputs topic R agents enable_rag max_refs) c ->
  current_stage (cstate c) ≠ questioning ->
  waiting_for_answer (cstate c) = false.
Proof.
  intros Hvalid Hreach.
  destruct (valid_config_facts _ _ Hvalid) as (Hnd & Hknown & Hlen & _).
  assert (Hlen2 : 2 ≤ length agents) by lia.
  induction Hreach as [|c c' Hreach IH Hstep]; [done|].
  pose proof (reachable_Inv E _ _ _ _ _ _ Hvalid Hreach) as HI.
  destruct (step_exact E agents R c c' Hnd Hknown Hlen2 HI Hstep)
    as [t next w1 Hnode Hdet ->|a q w1 Hnode Hdet Hne Hst Hw ->
        |a w1 u st' w2 next w3 Hnode Hdet Hresp Hdet' ->]; simpl.
  - pose proof (transition_cases agents R c t Hlen2 HI Hnode) as Ht.
    cbv zeta in Ht.
    destruct Ht as [(_ & -> & _)|[(_ & -> & Hw & _)|(Hst & -> & _)]];
      simpl; try done.
    intros _. apply IH. by rewrite Hst.
  - done.
  - assert (Hin : a ∈ agents) by (by eapply Inv_node_in_graph).
    assert (Hka : known_agent a) by (rewrite Forall_forall in Hknown; auto).
    destruct Hka as [info Hinfo].
    destruct (response_exact E _ _ _ _ _ _ info Hinfo Hresp)
      as (Hc & msg & Hs & Hsaid).
    destruct (cache_step_core _ _ _ Hc) as (_ & _ & Hst').
    destruct (cache_step_fields _ _ _ Hc) as (Hw' & _).
    destruct Hsaid as [|cached Hst|t w4 Hst Hnot Hsel|Hst Hw Hct Hnil|Hst];
      simpl; rewrite ?Hw', ?Hst'; try done; intros H; by rewrite Hst in H.
Qed.

End NotWaiting.

Lemma mod_shift x p N :
  N ≠ 0 -> (x + p) mod N = p mod N <-> x mod N = 0.
Proof.
  intros HN. split.
  - intros Heq.
    pose proof (Nat.div_mod_eq (x + p) N) as H1.
    pose proof (Nat.div_mod_eq p N) as H2.
    rewrite Heq in H1.
    assert (Hx : x = ((x + p) / N - p / N) * N).
    { assert (p / N ≤ (x + p) / N) by (apply Nat.Div0.div_le_mono; lia).
      nia. }
    rewrite Hx. apply Nat.Div0.mod_mul.
  - intros H0.
    pose proof (Nat.div_mod_eq x N) as H1. rewrite H0 in H1.
    replace (x + p) with (p + x / N * N) by lia.
    apply Nat.Div0.mod_add.
Qed.

Lemma history_blocks_lookup agents msgs : forall idx blocks i m,
  history_blocks agents idx msgs = Ok blocks ->
  msgs !! i = Some m ->
  exists a info,
    estimated_speaker agents (idx + i) = Ok a
    ∧ roles_get AVAILABLE_ROLES a = Some info
    ∧ blocks !! i = Some (name info +:+ ": " +:+ clean (name info) m).
Proof.
  induction msgs as [|m0 msgs IH]; intros idx blocks i m; simpl; [done|].
  destruct (estimated_speaker agents idx) as [a|] eqn:Ha; [|done].
  destruct (roles_get AVAILABLE_ROLES a) as [info|] eqn:Hinfo; [|done].
  destruct (history_blocks agents (idx + 1) msgs) as [rest|] eqn:Hrest;
    [|done].
  intros [= <-]. destruct i as [|i]; simpl.
  - intros [= <-]. exists a, info. by rewrite Nat.add_0_r.
  - intros Hm. destruct (IH _ _ _ _ Hrest Hm) as (b & binfo & Hb & ? & ?).
    exists b, binfo. replace (idx + S i) with (idx + 1 + i) by lia. done.
Qed.

Lemma format_opening_statements_Ok opening_statements active_agents :
  is_ok (format_opening_statements opening_statements active_agents) = true
  <-> opening_statements = ∅
      ∨ forall a, a ∈ active_agents ->
                  is_Some (opening_statements !! a) -> known_agent a.
Proof.
  unfold format_opening_statements. case_decide as Hempty.
  - split; [by left|done].
  - rewrite <- opening_blocks_Ok.
    destruct (opening_blocks opening_statements active_agents); simpl.
    + split; [by right|done].
    + split; [done|]. by intros [?|?].
Qed.

Lemma format_qa_summary_Ok questions_asked :
  is_ok (format_qa_summary questions_asked) = true
  <-> forall qa, qa ∈ questions_asked ->
        known_agent (questioner qa) ∧ known_agent (target qa).
Proof.
  unfold format_qa_summary. case_decide as Hnil.
  - rewrite Hnil. split; [by intros _ ? ?%elem_of_nil|done].
  - rewrite <- (qa_lines_Ok questions_asked 1).
    by destruct (qa_lines 1 questions_asked).
Qed.

Lemma recent_nonempty (messages : list string) max_show :
  messages ≠ [] -> recent messages max_show ≠ [].
Proof.
  intros Hne Hnil. unfold recent, py_last in Hnil.
  repeat case_decide; try done.
  apply (f_equal length) in Hnil. rewrite length_drop in Hnil.
  simpl in Hnil. lia.
Qed.

Lemma format_agent_history_Ok messages active_agents current_agent
    current_round max_show :
  active_agents ≠ [] -> Forall known_agent active_agents ->
  is_ok (format_agent_history messages active_agents current_agent
           current_round max_show) = true.
Proof.
  intros Hne Hknown. unfold format_agent_history. case_decide; [done|].
  destruct (history_blocks_Ok active_agents (recent messages max_show)
              (length messages - length (recent messages max_show))
              Hne Hknown) as (blocks & -> & _).
  done.
Qed.

(** ** Configurations of the concrete debates *)

Lemma after_reachable E graph s0 n : forall c,
  reachable E graph s0 c -> reachable E graph s0 (after E graph n c).
Proof.
  induction n as [|n IH]; intros c Hreach; simpl; [done|].
  destruct (step E graph c) as [c'|] eqn:Hstep; [|done].
  apply IH. by eapply reach_step.
Qed.

(** ** The archives and the inference chain *)

Lemma determine_llm E st w r w' :
  determine_next_node E st w = (r, w') -> llm_pos w' = llm_pos w.
Proof.
  unfold determine_next_node. intros H.
  destruct (current_stage st).
  - case_decide; by simplify_eq.
  - destruct (waiting_for_answer st).
    + case_decide; by simplify_eq.
    + case_decide; [|by simplify_eq].
      destruct (select_next_questioner_and_target E _ _ w)
        as [[[q t]|e] w1] eqn:Hsel; simplify_eq;
        by apply select_rag in Hsel as [_ ?].
  - repeat case_decide; by simplify_eq.
  - case_decide; by simplify_eq.
Qed.

Lemma determine_indexed E st w a w' :
  current_stage st = opening ∨ current_stage st = closing ->
  determine_next_node E st w = (Ok (Agent a), w') ->
  active_agents st !! stage_progress st = Some a.
Proof.
  unfold determine_next_node, agent_at.
  intros [-> | ->]; (case_decide; [|done]);
    destruct (active_agents st !! stage_progress st); by intros [= ->].
Qed.

Lemma said_archives E st st' a msg w u :
  said E st st' a msg w u ->
  (current_stage st ≠ opening -> u_opening_statements u = None)
  ∧ (current_stage st ≠ closing -> u_closing_statements u = None).
Proof. destruct 1; simpl; split; congruence. Qed.

Section Archive.

Variable E : Env.

Lemma inferred_succeeds i :
  is_Some (inferred E i) <-> inference_succeeds E i.
Proof.
  unfold inferred, inference_succeeds.
  destruct (deepseek_ready E); [|split; [by intros [? ?]|by intros [? _]]].
  destruct (llm E i); simpl; split; try done.
  by intros [_ ?].
Qed.

(** What an opening turn archives, and which call it makes. *)
Lemma opening_archive st a w u st' w' info :
  roles_get AVAILABLE_ROLES a = Some info ->
  Forall known_agent (active_agents st) ->
  current_stage st = opening ->
  _generate_agent_response E st a w = (Ok u, st', w') ->
  u_closing_statements u = None
  ∧ llm_pos w' = llm_pos w + (if deepseek_ready E then 1 else 0)
  ∧ u_opening_statements u
    = (fun r => <[a := format_response (name info) r]> (opening_statements st))
        <$> inferred E (llm_pos w).
Proof.
  intros Hinfo Hknown Hst. unfold _generate_agent_response, inferred.
  destruct (deepseek_ready E); simpl.
  2:{ unfold apology. rewrite Hinfo. intros [= <- <- <-].
      repeat split. lia. }
  rewrite Hst. unfold _generate_opening_statement. rewrite Hinfo.
  destruct (others_ok (active_agents st) a Hknown) as [others ->].
  destruct (get_rag_context_for_agent E a (main_topic st) st w)
    as [[txt st1] w1] eqn:Hrag.
  destruct (get_rag_known E _ _ _ _ _ _ _ _ Hinfo Hrag) as [rag_text ->].
  apply get_rag_shape in Hrag as (Hc & _ & Hllm).
  destruct (cache_step_fields _ _ _ Hc) as (_ & _ & _ & _ & _ & _ & Ho & _).
  unfold pipe_invoke. rewrite Hllm.
  destruct (llm E (llm_pos w)) as [r|e].
  - intros [= <- <- <-]. simpl. by rewrite Ho.
  - unfold apology. rewrite Hinfo. intros [= <- <- <-]. done.
Qed.

Lemma closing_archive st a w u st' w' info :
  roles_get AVAILABLE_ROLES a = Some info ->
  Forall known_agent (active_agents st) ->
  current_stage st = closing ->
  _generate_agent_response E st a w = (Ok u, st', w') ->
  u_opening_statements u = None
  ∧ llm_pos w' = llm_pos w + (if deepseek_ready E then 1 else 0)
  ∧ u_closing_statements u
    = (fun r => <[a := format_response (name info) r]> (closing_statements st))
        <$> inferred E (llm_pos w).
Proof.
  intros Hinfo Hknown Hst. unfold _generate_agent_response, inferred.
  destruct (deepseek_ready E); simpl.
  2:{ unfold apology. rewrite Hinfo. intros [= <- <- <-].
      repeat split. lia. }
  rewrite Hst. unfold _generate_closing_statement. rewrite Hinfo.
  destruct (get_rag_context_for_agent E a (main_topic st) st w)
    as [[txt st1] w1] eqn:Hrag.
  destruct (get_rag_known E _ _ _ _ _ _ _ _ Hinfo Hrag) as [rag_text ->].
  apply get_rag_shape in Hrag as (Hc & _ & Hllm).
  destruct (others_ok (active_agents st) a Hknown) as [others ->].
  destruct (cache_step_fields _ _ _ Hc) as (_ & _ & _ & _ & _ & _ & _ & Hcl).
  unfold pipe_invoke. rewrite Hllm.
  destruct (llm E (llm_pos w)) as [r|e].
  - intros [= <- <- <-]. simpl. by rewrite Hcl.
  - unfold apology. rewrite Hinfo. intros [= <- <- <-]. done.
Qed.

End Archive.
Section ArchiveRun.

Variable E : Env.

(** A turn of the opening or of the closing stage is the turn of the
    participant the progress counter points at; it makes the next call of
    the inference chain, and archives the text of that call, if it gets
    one, and nothing otherwise. *)
Lemma turn_archive agents R c a c' :
  NoDup agents -> Forall known_agent agents -> 2 ≤ length agents ->
  Inv agents R c -> node c = Agent a -> step E agents c = Some c' ->
  statement_stage (current_stage (cstate c)) ->
  exists info,
    roles_get AVAILABLE_ROLES a = Some info
    ∧ agents !! stage_progress (cstate c) = Some a
    ∧ current_stage (cstate c') = current_stage (cstate c)
    ∧ stage_progress (cstate c') = stage_progress (cstate c) + 1
    ∧ llm_pos (world c')
      = llm_pos (world c) + (if deepseek_ready E then 1 else 0)
    ∧ (current_stage (cstate c) = opening ->
       opening_statements (cstate c')
       = from_option
           (fun r => <[a := format_response (name info) r]>
                       (opening_statements (cstate c)))
           (opening_statements (cstate c))
           (inferred E (llm_pos (world c)))
       ∧ closing_statements (cstate c') = closing_statements (cstate c))
    ∧ (current_stage (cstate c) = closing ->
       closing_statements (cstate c')
       = from_option
           (fun r => <[a := format_response (name info) r]>
                       (closing_statements (cstate c)))
           (closing_statements (cstate c))
           (inferred E (llm_pos (world c)))
       ∧ opening_statements (cstate c') = opening_statements (cstate c)).
Proof.
  intros Hnd Hknown Hlen HI Hnode Hstep Hstage.
  destruct (step_exact E agents R c c' Hnd Hknown Hlen HI Hstep)
    as [t next w1 Hnode' Hdet ->|a' q w1 Hnode' Hdet Hne Hst Hw ->
        |a' w1 u st' w2 next w3 Hnode' Hdet Hresp Hdet' ->].
  - congruence.
  - rewrite Hst in Hstage. by destruct Hstage.
  - assert (a' = a) as -> by congruence.
    assert (Hin : a ∈ agents) by (by eapply Inv_node_in_graph).
    assert (Hka : known_agent a) by (rewrite Forall_forall in Hknown; auto).
    destruct Hka as [info Hinfo]. exists info.
    destruct HI as [Hag _ _ _ _ _ _ _ _ _ _ _ _].
    assert (Hknown' : Forall known_agent (active_agents (cstate c)))
      by (by rewrite Hag).
    destruct (response_exact E _ _ _ _ _ _ info Hinfo Hresp)
      as (Hc & msg & Hs & Hsaid).
    destruct (said_counters _ _ _ _ _ _ _ Hc Hsaid) as (Hst' & Hp' & _).
    pose proof (determine_llm _ _ _ _ _ Hdet) as Hl1.
    pose proof (determine_llm _ _ _ _ _ Hdet') as Hl3.
    split; [done|]. split.
    { rewrite <- Hag. by eapply determine_indexed. }
    simpl. split; [done|]. split; [done|].
    destruct (cache_step_fields _ _ _ Hc)
      as (_ & _ & _ & _ & _ & _ & Ho & Hcl).
    destruct Hstage as [Hop|Hcl'].
    + destruct (opening_archive E _ _ _ _ _ _ info Hinfo Hknown' Hop Hresp)
        as (Hu2 & Hllm & Hu1).
      split; [lia|]. split; [|congruence].
      intros _. unfold overwrite. rewrite Hu1, Hu2, Hl1, Ho, Hcl.
      by destruct (inferred E (llm_pos (world c))).
    + destruct (closing_archive E _ _ _ _ _ _ info Hinfo Hknown' Hcl' Hresp)
        as (Hu1 & Hllm & Hu2).
      split; [lia|]. split; [congruence|].
      intros _. unfold overwrite. rewrite Hu1, Hu2, Hl1, Ho, Hcl.
      by destruct (inferred E (llm_pos (world c))).
Qed.

(** The archives of a run, read off the inference chain: the opening turn
    of participant number [i] makes call number [i]; the closing turns
    make the last calls. *)
Lemma reachable_archive agents R topic enable_rag max_refs c :
  valid_config agents R ->
  reachable E agents (inputs topic R agents enable_rag max_refs) c ->
  (deepseek_ready E = true ->
   (current_stage (cstate c) = opening ->
    llm_pos (world c) = stage_progress (cstate c))
   ∧ (current_stage (cstate c) = closing ->
      stage_progress (cstate c) ≤ llm_pos (world c)))
  ∧ forall i a info,
      agents !! i = Some a -> roles_get AVAILABLE_ROLES a = Some info ->
      opening_statements (cstate c) !! a
      = (if decide (current_stage (cstate c) = opening
                    ∧ stage_progress (cstate c) ≤ i)
         then None
         else format_response (name info) <$> inferred E i)
      ∧ closing_statements (cstate c) !! a
        = (if decide (current_stage (cstate c) = closing
                      ∧ i < stage_progress (cstate c))
           then format_response (name info)
                  <$> inferred E (llm_pos (world c)
                                  - stage_progress (cstate c) + i)
           else None).
Proof.
  intros Hvalid Hreach.
  destruct (valid_config_facts _ _ Hvalid) as (Hnd & Hknown & Hlen & _).
  assert (Hlen2 : 2 ≤ length agents) by lia.
  induction Hreach as [|c c' Hreach IH Hstep].
  { split; [intros _; split; [done|intros [=]]|].
    intros i a info Hi Hinfo. simpl. by rewrite !lookup_empty. }
  pose proof (reachable_Inv E _ _ _ _ _ _ Hvalid Hreach) as HI.
  destruct IH as [IHpos IH].
  destruct (step_exact E agents R c c' Hnd Hknown Hlen2 HI Hstep)
    as [t next w1 Hnode Hdet Hc'|a q w1 Hnode Hdet Hne Hst Hw Hc'
        |a w1 u st' w2 next w3 Hnode Hdet Hresp Hdet' Hc'].
  - pose proof (determine_llm _ _ _ _ _ Hdet) as Hl1.
    pose proof (transition_cases agents R c t Hlen2 HI Hnode) as Ht.
    cbv zeta in Ht. subst c'. simpl.
    destruct Ht as [(Hst & -> & Hp)|[(Hst & -> & _)|(Hst & -> & _)]];
      simpl.
    + split; [intros _; split; intros [=]|].
      intros i a info Hi Hinfo. destruct (IH i a info Hi Hinfo) as [Ho Hcl].
      rewrite Ho, Hcl. pose proof (lookup_lt_Some _ _ _ Hi) as Hlt.
      split; repeat case_decide; try done; destruct_and?;
        try congruence; lia.
    + split; [intros _; split; intros [=]|].
      intros i a info Hi Hinfo. destruct (IH i a info Hi Hinfo) as [Ho Hcl].
      rewrite Ho, Hcl.
      split; repeat case_decide; try done; destruct_and?; congruence.
    + split; [intros _; split; [intros [=]|intros _; lia]|].
      intros i a info Hi Hinfo. destruct (IH i a info Hi Hinfo) as [Ho Hcl].
      rewrite Ho, Hcl.
      split; repeat case_decide; try done; destruct_and?;
        try congruence; lia.
  - subst c'. simpl. rewrite Hst.
    split; [intros _; split; intros [=]|].
    intros i b info Hi Hinfo. destruct (IH i b info Hi Hinfo) as [Ho Hcl].
    rewrite Hst in Ho, Hcl. done.
  - destruct (decide (statement_stage (current_stage (cstate c))))
      as [Hstage|Hstage].
    + destruct (turn_archive agents R c a c' Hnd Hknown Hlen2 HI Hnode Hstep
                  Hstage)
        as (info & Hinfo & Hturn & Hst' & Hp' & Hllm & Hopen & Hclose).
      rewrite Hst', Hp', Hllm.
      split.
      { intros Hready. specialize (IHpos Hready) as [IH1 IH2].
        rewrite Hready. split; intros Hs; [rewrite IH1 by done|
                                           specialize (IH2 Hs)]; lia. }
      intros i b info' Hi Hinfo'.
      destruct (IH i b info' Hi Hinfo') as [Ho Hcl].
      destruct Hstage as [Hop|Hcl'].
      * destruct (Hopen Hop) as [-> ->]. rewrite Hcl. rewrite Hop.
        split; [|by rewrite !decide_False by (by intros [[=] _])].
        assert (Hpos : inferred E (llm_pos (world c))
                       = inferred E (stage_progress (cstate c))).
        { unfold inferred. destruct (deepseek_ready E) eqn:Hready; [|done].
          destruct (IHpos eq_refl) as [-> _]; done. }
        rewrite Hpos.
        destruct (decide (b = a)) as [->|Hne].
        -- assert (i = stage_progress (cstate c)) as ->
             by (by eapply NoDup_lookup).
           assert (info' = info) as -> by congruence.
           rewrite decide_False by (intros [_ ?]; lia).
           destruct (inferred E (stage_progress (cstate c))); simpl.
           ++ by rewrite lookup_insert_eq.
           ++ rewrite Ho, Hop. by rewrite decide_True by (split; [done|lia]).
        -- assert (i ≠ stage_progress (cstate c)) as Hi'.
           { intros ->. congruence. }
           assert (opening_statements (cstate c) !! b
                   = from_option
                       (fun r => <[a := format_response (name info) r]>
                                   (opening_statements (cstate c)))
                       (opening_statements (cstate c))
                       (inferred E (stage_progress (cstate c))) !! b) as <-.
           { destruct (inferred E (stage_progress (cstate c))); simpl;
               [by rewrite lookup_insert_ne|done]. }
           rewrite Ho, Hop.
           destruct (decide (stage_progress (cstate c) ≤ i)).
           ++ rewrite decide_True by done.
              by rewrite decide_True by (split; [done|lia]).
           ++ rewrite decide_False by (intros [_ ?]; lia).
              by rewrite decide_False by (intros [_ ?]; lia).
      * destruct (Hclose Hcl') as [-> ->]. rewrite Ho. rewrite Hcl'.
        split; [by rewrite !decide_False by (by intros [[=] _])|].
        destruct (deepseek_ready E) eqn:Hready.
        2:{ assert (Hno : forall j, inferred E j = None).
            { intros j. unfold inferred. by rewrite Hready. }
            rewrite !Hno. simpl. rewrite Hcl.
            repeat case_decide; by rewrite ?Hno. }
        destruct (IHpos eq_refl) as [_ Hle]. specialize (Hle Hcl').
        replace (llm_pos (world c) + 1 - (stage_progress (cstate c) + 1) + i)
          with (llm_pos (world c) - stage_progress (cstate c) + i) by lia.
        destruct (decide (b = a)) as [->|Hne].
        -- assert (i = stage_progress (cstate c)) as ->
             by (by eapply NoDup_lookup).
           assert (info' = info) as -> by congruence.
           rewrite decide_True by (split; [done|lia]).
           replace (llm_pos (world c) - stage_progress (cstate c)
                    + stage_progress (cstate c))
             with (llm_pos (world c)) by lia.
           destruct (inferred E (llm_pos (world c))); simpl.
           ++ by rewrite lookup_insert_eq.
           ++ rewrite Hcl, Hcl'. by rewrite decide_False by (intros [_ ?]; lia).
        -- assert (i ≠ stage_progress (cstate c)) as Hi'.
           { intros ->. congruence. }
           assert (closing_statements (cstate c) !! b
                   = from_option
                       (fun r => <[a := format_response (name info) r]>
                                   (closing_statements (cstate c)))
                       (closing_statements (cstate c))
                       (inferred E (llm_pos (world c))) !! b) as <-.
           { destruct (inferred E (llm_pos (world c))); simpl;
               [by rewrite lookup_insert_ne|done]. }
           rewrite Hcl, Hcl'.
           destruct (decide (i < stage_progress (cstate c))).
           ++ rewrite decide_True by done.
              by rewrite decide_True by (split; [done|lia]).
           ++ rewrite decide_False by (intros [_ ?]; lia).
              by rewrite decide_False by (intros [_ ?]; lia).
    + assert (Hin : a ∈ agents) by (by eapply Inv_node_in_graph).
      assert (Hka : known_agent a) by (rewrite Forall_forall in Hknown; auto).
      destruct Hka as [info Hinfo].
      destruct (response_exact E _ _ _ _ _ _ info Hinfo Hresp)
        as (Hc & msg & Hs & Hsaid).
      destruct (said_counters _ _ _ _ _ _ _ Hc Hsaid) as (Hst' & Hp' & _).
      destruct (said_archives _ _ _ _ _ _ _ Hsaid) as [Hu1 Hu2].
      destruct (cache_step_fields _ _ _ Hc)
        as (_ & _ & _ & _ & _ & _ & Ho & Hcl).
      assert (Hnop : current_stage (cstate c) ≠ opening)
        by (intros ?; apply Hstage; by left).
      assert (Hncl : current_stage (cstate c) ≠ closing)
        by (intros ?; apply Hstage; by right).
      subst c'. simpl in *. rewrite Hst'.
      split; [intros _; split; intros ?; done|].
      intros i b info' Hi Hinfo'.
      destruct (IH i b info' Hi Hinfo') as [Ho' Hcl'].
      rewrite (Hu1 Hnop), (Hu2 Hncl).
      change (overwrite (opening_statements st') None)
        with (opening_statements st').
      change (overwrite (closing_statements st') None)
        with (closing_statements st').
      rewrite Ho, Hcl, Ho', Hcl'.
      split; repeat case_decide; try done; destruct_and?; congruence.
Qed.

End ArchiveRun.

(** * The claims *)

(** ** C1: the number of turns of a run *)

(** C1, against the claim. The debate of three participants and two
    rounds, with collaborators that never fail and never disagree,
    finishes after 18 spoken turns, not 3 * (3 + 2) = 15: the questioning
    stage takes a question and an answer per participant. *)
Lemma three_agents_two_rounds_speak_18_turns :
  exists c,
    run env_steady three_agents 100 (start three_agents debate_3_2) = Finished c
    ∧ count is_spoken (trace c) = 18
    ∧ count is_spoken (trace c) ≠ 3 * (3 + 2).
Proof.
  eexists. split; [vm_compute; reflexivity|]. split; [by vm_compute|].
  vm_compute. discriminate.
Qed.

(** C1, as the code has it. A run of a valid configuration that reaches
    [END], and in which every turn of the questioning stage was a question
    or an answer, has spoken [N] opening turns, [2 * N] questioning turns,
    [N * max_rounds] free-debate turns and [N] closing turns,
    [N * (4 + max_rounds)] in all, and has gone through 3 transitions. *)
Theorem finished_run_speaks_N_times_4_plus_rounds (E : Env)
    (agents : list string) (rounds : nat) (topic : string)
    (enable_rag : bool) (max_refs n : nat) (c : Config) :
  valid_config agents rounds ->
  run E agents n (start agents (inputs topic rounds agents enable_rag max_refs))
  = Finished c ->
  count is_wasted (trace c) = 0 ->
  count (spoken_in opening) (trace c) = length agents
  ∧ count (spoken_in questioning) (trace c) = 2 * length agents
  ∧ count (spoken_in free_debate) (trace c) = length agents * rounds
  ∧ count (spoken_in closing) (trace c) = length agents
  ∧ count is_spoken (trace c) = length agents * (4 + rounds)
  ∧ count is_transition (trace c) = 3.
Proof.
  intros Hvalid Hrun Hwasted.
  destruct (finished_counts E _ _ _ _ _ _ _ Hvalid Hrun)
    as (Ho & Hq & Hf & Hc & HS & HK).
  rewrite Hwasted in Hq, HS. repeat split; try done; lia.
Qed.

Lemma finished_run_speaks_N_times_4_plus_rounds_witness :
  exists c,
    run env_steady three_agents 100 (start three_agents debate_3_2) = Finished c
    ∧ count (spoken_in opening) (trace c) = 3
    ∧ count (spoken_in questioning) (trace c) = 2 * 3
    ∧ count (spoken_in free_debate) (trace c) = 3 * 2
    ∧ count (spoken_in closing) (trace c) = 3
    ∧ count is_spoken (trace c) = 3 * (4 + 2)
    ∧ count is_transition (trace c) = 3.
Proof.
  eexists. split; [vm_compute; reflexivity|].
  apply (finished_run_speaks_N_times_4_plus_rounds env_steady three_agents 2
           "AI" true 3 100).
  - split; [reflexivity|lia].
  - vm_compute; reflexivity.
  - vm_compute; reflexivity.
Defined.

(** ** C2: the indexing rule *)

(** C2. Outside the questioning stage the scheduler follows the indexing
    rule: in opening, participant number [stage_progress] while that is
    below [N], then the transition to questioning; in free debate, with
    [round = stage_progress div N + 1], participant number
    [stage_progress mod N] while [round <= max_rounds], then the transition
    to closing; in closing, participant number [stage_progress] while that
    is below [N], then the end. It draws nothing from the random source. *)
Theorem scheduler_follows_indexing_rule (E : Env) (state : State)
    (w : World) :
  current_stage state ≠ questioning ->
  (current_stage state = free_debate -> active_agents state ≠ []) ->
  exists next, next_actor_rule state = Some next
               ∧ determine_next_node E state w = (Ok next, w).
Proof. apply determine_follows_rule. Qed.

Lemma scheduler_follows_indexing_rule_witness :
  (exists next, next_actor_rule debate_3_2 = Some next
                ∧ determine_next_node env_steady debate_3_2 world0
                  = (Ok next, world0))
  ∧ (exists next, next_actor_rule free_debate_state = Some next
                  ∧ determine_next_node env_steady free_debate_state world0
                    = (Ok next, world0)).
Proof.
  split.
  - apply (scheduler_follows_indexing_rule env_steady debate_3_2 world0);
      simpl; discriminate.
  - apply (scheduler_follows_indexing_rule env_steady free_debate_state
             world0); simpl; discriminate.
Defined.

(** ** C3: a pending answer *)

(** C3. While an answer is pending in the questioning stage the scheduler
    returns [current_target] when that is a non-empty key of an active
    participant, and the transition to free debate otherwise; the node of
    any other participant, run in such a state, speaks no turn; and when
    the state is that of a configuration of a run, the target is usable and
    its node is the one to run next. *)
Theorem pending_answer_goes_to_target (E : Env) (state : State)
    (w : World) :
  current_stage state = questioning ->
  waiting_for_answer state = true ->
  (target_ok state ->
     determine_next_node E state w = (Ok (Agent (current_target state)), w))
  ∧ (¬ target_ok state ->
     determine_next_node E state w = (Ok (Transition free_debate), w))
  ∧ (forall agent_key, agent_key ≠ current_target state ->
       is_spoken (mkEvent (Agent agent_key) questioning
                          (update (agent_node E agent_key state w).1.1))
       = false)
  ∧ (forall agents rounds topic enable_rag max_refs c,
       valid_config agents rounds ->
       reachable E agents (inputs topic rounds agents enable_rag max_refs)
                 c ->
       cstate c = state ->
       target_ok state ∧ node c = Agent (current_target state)).
Proof.
  intros Hst Hwait.
  assert (Hdet : determine_next_node E state w
                 = (Ok (if decide (target_ok state)
                        then Agent (current_target state)
                        else Transition free_debate), w)).
  { unfold determine_next_node. rewrite Hst, Hwait. fold (target_ok state).
    by destruct (decide (target_ok state)). }
  split; [|split; [|split]].
  - intros Hok. by rewrite Hdet, decide_True.
  - intros Hko. by rewrite Hdet, decide_False.
  - intros agent_key Hother. unfold agent_node. rewrite Hdet.
    destruct (decide (target_ok state)) as [Hok|Hko]; simpl.
    + rewrite decide_True by congruence. reflexivity.
    + unfold handle_stage_transition.
      destruct (determine_next_node E (merge state _) w) as [[next|e] w'];
        reflexivity.
  - intros agents rounds topic enable_rag max_refs c Hvalid Hreach Hc.
    destruct (reachable_Inv E _ _ _ _ _ _ Hvalid Hreach)
      as [_ _ _ _ _ _ _ _ _ _ _ Hstage _].
    unfold stage_inv in Hstage. rewrite Hc, Hst, Hwait in Hstage.
    destruct Hstage as (_ & _ & _ & Hw & Hn).
    destruct (Hw eq_refl) as [Hok _]. split; [done|].
    unfold questioning_next in Hn. rewrite Hwait in Hn.
    by rewrite decide_True in Hn.
Qed.

Lemma pending_answer_goes_to_target_witness :
  determine_next_node env_steady pending_state world0
  = (Ok (Agent "sociologist"), world0).
Proof.
  apply (pending_answer_goes_to_target env_steady pending_state world0);
    [reflexivity|reflexivity|].
  split; [discriminate|]. vm_compute. do 2 constructor.
Defined.

(** ** C4: the ledger of questions *)

(** C4. In every configuration of a run the ledger has at most [N]
    records; and when the scheduler leaves the questioning stage for free
    debate, and ever after, every participant is the questioner of exactly
    one record. *)
Theorem ledger_bounded_and_fair (E : Env) (agents : list string)
    (rounds : nat) (topic : string) (enable_rag : bool) (max_refs : nat)
    (c : Config) :
  valid_config agents rounds ->
  reachable E agents (inputs topic rounds agents enable_rag max_refs) c ->
  length (questions_asked (cstate c)) ≤ length agents
  ∧ ((current_stage (cstate c) = questioning
      ∧ node c = Transition free_debate)
     ∨ current_stage (cstate c) = free_debate
     ∨ current_stage (cstate c) = closing ->
     forall a, a ∈ agents -> authored (questions_asked (cstate c)) a = 1).
Proof.
  intros Hvalid Hreach.
  destruct (valid_config_facts _ _ Hvalid) as (Hnd & _ & _).
  destruct (reachable_Inv E _ _ _ _ _ _ Hvalid Hreach)
    as [_ _ _ Hled Hqn Hqlen _ _ _ _ _ Hstage _].
  split; [done|]. intros Hleft a Ha.
  apply (full_ledger_once agents); try done.
  unfold stage_inv in Hstage.
  destruct Hleft as [[Hst Hnode]|[Hst|Hst]]; rewrite Hst in Hstage.
  - destruct Hstage as (_ & _ & _ & Hw & Hn).
    rewrite Hnode in Hn. unfold questioning_next in Hn.
    destruct (waiting_for_answer (cstate c)).
    + destruct (Hw eq_refl) as [Hok _]. by rewrite decide_True in Hn.
    + destruct (decide _) as [|Hge]; [by destruct Hn as (? & ? & _)|].
      destruct (reachable_Inv E _ _ _ _ _ _ Hvalid Hreach) as [Hag]. 
      rewrite Hag in Hge. lia.
  - by destruct Hstage as (_ & _ & _ & ? & _).
  - by destruct Hstage as (_ & _ & _ & ? & _).
Qed.

Lemma ledger_bounded_and_fair_witness :
  exists c,
    steps env_steady three_agents 10 (start three_agents debate_3_2) = Some c
    ∧ length (questions_asked (cstate c)) ≤ 3
    ∧ forall a, a ∈ three_agents ->
                authored (questions_asked (cstate c)) a = 1.
Proof.
  eexists. split; [vm_compute; reflexivity|].
  match goal with
  | |- length (questions_asked (cstate ?c)) ≤ _ ∧ _ =>
      destruct (ledger_bounded_and_fair env_steady three_agents 2 "AI" true
                  3 c) as [Hlen Hfair]
  end.
  - split; [reflexivity|lia].
  - apply (steps_reachable env_steady three_agents debate_3_2 10
             (start three_agents debate_3_2)); [apply reach_start|].
    vm_compute; reflexivity.
  - split; [exact Hlen|]. apply Hfair. left. split; reflexivity.
Defined.

(** ** C5: fair rotation *)

(** C5. On a duplicate-free list of at least two participants and a ledger
    between them, the two lists of candidates are fixed before any number
    is drawn: [questioner_candidates] holds, once each, exactly the
    participants with the fewest questions asked, and, for a questioner
    [q], [target_candidates] holds, once each, exactly the other
    participants with the fewest questions received. Whatever the random
    source and its position, the selection takes two numbers and returns
    the questioner at the index the first number gives in the first list
    and the target at the index the second number gives in the second
    list. Every candidate therefore sits at one index, and a uniform draw
    picks each candidate equally often. *)
Theorem selection_is_uniform_among_minimal (agents : list string)
    (qs : list QA) :
  NoDup agents -> 2 ≤ length agents -> ledger_ok agents qs ->
  (NoDup (questioner_candidates agents qs)
   ∧ forall a, a ∈ questioner_candidates agents qs
               <-> min_authored agents qs a)
  ∧ (forall q,
       NoDup (target_candidates agents qs q)
       ∧ forall a, a ∈ target_candidates agents qs q
                   <-> min_received agents qs q a)
  ∧ forall (E : Env) (w : World),
      exists q t,
        select_next_questioner_and_target E agents qs w
        = (Ok (q, t), drawn w 2)
        ∧ questioner_candidates agents qs
            !! (rand E (rand_pos w)
                mod length (questioner_candidates agents qs))
          = Some q
        ∧ target_candidates agents qs q
            !! (rand E (rand_pos w + 1)
                mod length (target_candidates agents qs q))
          = Some t.
Proof.
  intros Hnd Hlen Hok. split; [|split].
  - split; [by apply NoDup_filter|].
    intros a. unfold questioner_candidates, min_authored.
    rewrite list_elem_of_filter, Forall_forall. tauto.
  - intros q. split; [by apply NoDup_filter|].
    intros a. unfold target_candidates, min_received.
    rewrite list_elem_of_filter, Forall_forall. tauto.
  - intros E w.
    destruct (select_lists E agents qs w Hnd Hok Hlen)
      as (cq & ct & q & t & _ & Hq & _ & Ht & Hsel & -> & ->).
    by exists q, t.
Qed.

Lemma selection_is_uniform_among_minimal_witness :
  (questioner_candidates three_agents [] = three_agents
   ∧ target_candidates three_agents [] "sociologist"
     = ["tech_expert"; "ethicist"])
  ∧ forall (E : Env) (w : World),
      exists q t,
        select_next_questioner_and_target E three_agents [] w
        = (Ok (q, t), drawn w 2)
        ∧ questioner_candidates three_agents []
            !! (rand E (rand_pos w)
                mod length (questioner_candidates three_agents []))
          = Some q
        ∧ target_candidates three_agents [] q
            !! (rand E (rand_pos w + 1)
                mod length (target_candidates three_agents [] q))
          = Some t.
Proof.
  split; [split; vm_compute; reflexivity|].
  apply (selection_is_uniform_among_minimal three_agents []).
  - compute_done.
  - simpl. lia.
  - intros qa Hqa. by apply elem_of_nil in Hqa.
Defined.

(** ** C6: one retrieval per participant *)

(** C6. In every configuration of a run the retrieval module has been
    called at most once for each participant, and every marked participant
    has a cache entry. A context lookup calls the module only in the opening
    stage and for a participant who is not marked; any other lookup calls
    nothing, changes nothing and, with retrieval enabled, returns the cache
    entry of the participant. *)
Theorem retrieval_at_most_once_per_run (E : Env) (agents : list string)
    (rounds : nat) (topic : string) (enable_rag : bool) (max_refs : nat)
    (c : Config) :
  valid_config agents rounds ->
  reachable E agents (inputs topic rounds agents enable_rag max_refs) c ->
  (forall a, retrievals (world c) a ≤ 1)
  ∧ (forall a, a ∈ first_round_rag_completed (cstate c) ->
               is_Some (agent_paper_cache (cstate c) !! a))
  ∧ forall a topic',
      let '(text, state', w') :=
        get_rag_context_for_agent E a topic' (cstate c) (world c) in
      (rag_calls w' ≠ rag_calls (world c) ->
       current_stage (cstate c) = opening
       ∧ a ∉ first_round_rag_completed (cstate c))
      ∧ (current_stage (cstate c) ≠ opening
         ∨ a ∈ first_round_rag_completed (cstate c) ->
         w' = world c ∧ state' = cstate c
         ∧ forall cached,
             rag_enabled (cstate c) = true -> rag_module_ready E = true ->
             agent_paper_cache (cstate c) !! a = Some cached ->
             text = Ok cached).
Proof.
  intros Hvalid Hreach.
  pose proof (reachable_cache_agents E _ _ _ _ _ _ Hvalid Hreach) as Hkeys.
  destruct (valid_config_facts _ _ Hvalid) as (_ & Hknown & _).
  destruct (reachable_Inv E _ _ _ _ _ _ Hvalid Hreach)
    as [_ _ _ _ _ _ Hcached Hcnd _ _ _ _ _].
  split; [|split; [done|]].
  - intros a. by apply NoDup_filter_eq_length.
  - intros a topic'.
    destruct (get_rag_context_for_agent E a topic' (cstate c) (world c))
      as [[text state'] w'] eqn:Hrag.
    split.
    + intros Hcalls. apply get_rag_shape in Hrag as (_ & Hr & _).
      destruct Hr as [?|(? & ? & _)]; done.
    + intros Hlater. unfold get_rag_context_for_agent in Hrag.
      destruct (negb (rag_enabled (cstate c)) || negb (rag_module_ready E))
        eqn:Hoff.
      * simplify_eq. repeat split. intros cached Hen Hready.
        by rewrite Hen, Hready in Hoff.
      * destruct (roles_get AVAILABLE_ROLES a) as [info|] eqn:Hinfo.
        -- rewrite decide_False in Hrag
             by (intros [? ?]; destruct Hlater; done).
           destruct (agent_paper_cache (cstate c) !! a) eqn:Hlook;
             simplify_eq; repeat split; congruence.
        -- simplify_eq. repeat split. intros cached _ _ Hlook. exfalso.
           assert (Ha : a ∈ agents) by (apply Hkeys; by rewrite Hlook).
           rewrite Forall_forall in Hknown.
           destruct (Hknown a Ha) as [info Hinfo']. congruence.
Qed.

Lemma retrieval_at_most_once_per_run_witness :
  exists c,
    run env_steady three_agents 100 (start three_agents debate_3_2) = Finished c
    ∧ forall a, retrievals (world c) a ≤ 1.
Proof.
  eexists. split; [vm_compute; reflexivity|].
  match goal with
  | |- forall a, retrievals (world ?c) a ≤ 1 =>
      destruct (retrieval_at_most_once_per_run env_steady three_agents 2
                  "AI" true 3 c) as [Honce _]
  end.
  - split; [reflexivity|lia].
  - apply (finished_reachable env_steady three_agents debate_3_2 100).
    vm_compute; reflexivity.
  - exact Honce.
Defined.

(** ** C7: what a fetch stores *)

(** C7, against the claim. A first fetch that returns the "no material"
    sentinel logs its call, yet leaves the participant without a cache
    entry and unmarked. *)
Lemma nothing_found_is_not_cached :
  let '(text, state', w') :=
    get_rag_context_for_agent env_nothing_found "tech_expert" "AI"
                              debate_3_2 world0 in
  rag_calls w' = ["tech_expert"]
  ∧ text = Ok RAG_NOT_FOUND
  ∧ agent_paper_cache state' !! "tech_expert" = None
  ∧ "tech_expert" ∉ first_round_rag_completed state'.
Proof.
  vm_compute. repeat split. intros H. inversion H.
Qed.

(** C7, as the code has it. Take a first fetch in the opening stage, with
    retrieval on, for which the retrieval module returns [context]. For a
    key that is not registered the lookup raises [KeyError] before the
    module is called. For a registered participant the call is logged,
    and: when nothing was found (an empty text, or the "no material"
    sentinel once white space is stripped) the lookup returns the "nothing
    found" text and leaves the state as it was, so nothing is stored in
    the cache and the participant is not marked; when material was found
    the lookup returns it, stores it as the cache entry of the
    participant, leaves the other entries alone, and appends the
    participant to the marks; no other variable of the state changes. *)
Theorem fetch_caches_only_what_it_finds (E : Env)
    (agent_key topic : string) (state : State) (w : World)
    (context : string) :
  rag_enabled state = true -> rag_module_ready E = true ->
  current_stage state = opening ->
  agent_key ∉ first_round_rag_completed state ->
  rag E agent_key topic (max_refs_per_agent state) (length (rag_calls w))
  = Ok context ->
  let '(text, state', w') :=
    get_rag_context_for_agent E agent_key topic state w in
  (¬ known_agent agent_key ->
   text = Raise agent_key ∧ state' = state ∧ w' = w)
  ∧ (known_agent agent_key ->
     w' = logged w agent_key
     ∧ (found_nothing context -> text = Ok RAG_NOT_FOUND ∧ state' = state)
     ∧ (¬ found_nothing context ->
        text = Ok context
        ∧ agent_paper_cache state' !! agent_key = Some context
        ∧ (forall b, b ≠ agent_key ->
             agent_paper_cache state' !! b = agent_paper_cache state !! b)
        ∧ first_round_rag_completed state'
          = first_round_rag_completed state ++ [agent_key]
        ∧ state' = cache_context state agent_key context)).
Proof.
  intros Hen Hready Hst Hnew Hrag. unfold get_rag_context_for_agent.
  rewrite Hen, Hready. simpl.
  destruct (roles_get AVAILABLE_ROLES agent_key) as [info|] eqn:Hinfo.
  - rewrite decide_True by done.
    unfold rag_call. rewrite Hrag. fold (logged w agent_key).
    unfold found_nothing.
    destruct (decide (context ≠ "" ∧ strip context ≠ NO_MATERIAL))
      as [[Hne Hmat]|Hnot].
    + split; [intros Hno; exfalso; apply Hno; by exists info|].
      intros _. split; [done|]. split; [intros [?|?]; done|].
      intros _. split; [done|]. simpl. split; [by rewrite lookup_insert_eq|].
      split; [|done]. intros b Hb. by rewrite lookup_insert_ne.
    + split; [intros Hno; exfalso; apply Hno; by exists info|].
      intros _. split; [done|]. split; [done|].
      intros Hctx. exfalso. apply Hnot. split; intros ?; apply Hctx; auto.
  - split; [done|]. intros [info Hinfo']. unfold known_agent in *.
    congruence.
Qed.

Lemma fetch_caches_only_what_it_finds_witness :
  get_rag_context_for_agent env_nothing_found "tech_expert" "AI"
                            debate_3_2 world0
  = (Ok RAG_NOT_FOUND, debate_3_2, logged world0 "tech_expert")
  ∧ let '(text, state', w') :=
      get_rag_context_for_agent env_steady "tech_expert" "AI"
                                debate_3_2 world0 in
    text = Ok "参考资料 1"
    ∧ agent_paper_cache state' !! "tech_expert" = Some "参考资料 1"
    ∧ first_round_rag_completed state' = ["tech_expert"]
    ∧ w' = logged world0 "tech_expert".
Proof.
  assert (Hknown : known_agent "tech_expert") by (eexists; reflexivity).
  assert (Hnew : "tech_expert" ∉ first_round_rag_completed debate_3_2)
    by (intros H; inversion H).
  split.
  - pose proof (fetch_caches_only_what_it_finds env_nothing_found
                  "tech_expert" "AI" debate_3_2 world0 NO_MATERIAL
                  eq_refl eq_refl eq_refl Hnew eq_refl) as H.
    destruct (get_rag_context_for_agent env_nothing_found "tech_expert" "AI"
                debate_3_2 world0) as [[text state'] w'].
    destruct H as [_ H]. destruct (H Hknown) as (-> & Hnone & _).
    destruct Hnone as [-> ->]; [right; reflexivity|reflexivity].
  - pose proof (fetch_caches_only_what_it_finds env_steady
                  "tech_expert" "AI" debate_3_2 world0 "参考资料 1"
                  eq_refl eq_refl eq_refl Hnew eq_refl) as H.
    destruct (get_rag_context_for_agent env_steady "tech_expert" "AI"
                debate_3_2 world0) as [[text state'] w'].
    destruct H as [_ H]. destruct (H Hknown) as (-> & _ & Hfound).
    destruct Hfound as (-> & Hcache & _ & Hmarks & _).
    + intros [H'|H']; vm_compute in H'; discriminate H'.
    + repeat split; [exact Hcache|exact Hmarks].
Defined.

(** ** C8: a failing inference chain *)

(** C8, on the code. With an inference chain that raises at every call,
    the first turn of the debate of three participants and two rounds is
    the apology of the first participant, with both counters raised, and
    the next participant is scheduled; but the run never reaches [END],
    whatever the recursion limit: after the three opening apologies every
    turn of the questioning stage is an apology that records no question,
    so the stage is never left. With the limit of 500 the run is cut in the
    questioning stage after 499 apologies, the ledger still empty. *)
Theorem failing_inference_never_reaches_end :
  (exists c,
     steps env_no_inference three_agents 1 (start three_agents debate_3_2) = Some c
     ∧ messages (cstate c) = ["技术专家" +:+ CANNOT_SPEAK +:+ "timeout"]
     ∧ total_messages (cstate c) = 1
     ∧ stage_progress (cstate c) = 1
     ∧ node c = Agent "sociologist")
  ∧ (forall n,
       finished (run env_no_inference three_agents n (start three_agents debate_3_2))
       = None)
  ∧ exists c,
      run env_no_inference three_agents 500 (start three_agents debate_3_2)
      = RecursionLimit c
      ∧ current_stage (cstate c) = questioning
      ∧ questions_asked (cstate c) = []
      ∧ total_messages (cstate c) = 499.
Proof.
  split; [|split].
  - eexists. split; [vm_compute; reflexivity|]. by vm_compute.
  - intros n. apply no_inference_never_ends.
    + split; [reflexivity|lia].
    + intros [_ (i & response & Hllm)]. discriminate Hllm.
  - eexists. split; [vm_compute; reflexivity|]. by vm_compute.
Qed.

(** ** C9: the archives of statements *)

(** C9, against the claim. When the first call of the inference chain
    raises, the first participant's opening turn is an apology, and the
    finished run has no opening statement for that participant. *)
Lemma failed_opening_turn_leaves_no_statement :
  exists c,
    run env_first_fails three_agents 100 (start three_agents debate_3_2) = Finished c
    ∧ current_stage (cstate c) ≠ opening
    ∧ "tech_expert" ∈ active_agents (cstate c)
    ∧ opening_statements (cstate c) !! "tech_expert" = None.
Proof.
  eexists. split; [vm_compute; reflexivity|].
  split; [by vm_compute|]. split; [|by vm_compute].
  vm_compute. constructor.
Qed.

(** C9, as the code has it. A turn of the opening or of the closing stage
    makes the next call of the inference chain, call number
    [llm_pos (world c)]; the participant had no statement of the stage
    before, and has one after the turn exactly when the chain is there and
    that call returns: then the statement is the formatted text of the
    call. In the opening stage the call of participant number [i] is call
    number [i]. So, once the stage has left opening, [opening_statements]
    holds for participant number [i] the formatted text of call [i], and
    nothing when that call failed; at [END] the same holds of
    [closing_statements] and the last calls of the run, one for each
    participant. The archives hold statements of participants only. When
    the inference chain answers every call, every participant has both
    statements. *)
Theorem statements_of_the_turns_that_succeeded (E : Env)
    (agents : list string) (rounds : nat) (topic : string)
    (enable_rag : bool) (max_refs : nat) (c : Config) :
  valid_config agents rounds ->
  reachable E agents (inputs topic rounds agents enable_rag max_refs) c ->
  (forall a info c',
     node c = Agent a -> roles_get AVAILABLE_ROLES a = Some info ->
     step E agents c = Some c' ->
     (current_stage (cstate c) = opening ->
      opening_statements (cstate c) !! a = None
      ∧ opening_statements (cstate c') !! a
        = format_response (name info) <$> inferred E (llm_pos (world c))
      ∧ (is_Some (opening_statements (cstate c') !! a)
         <-> inference_succeeds E (llm_pos (world c)))
      ∧ (deepseek_ready E = true -> agents !! llm_pos (world c) = Some a))
     ∧ (current_stage (cstate c) = closing ->
        closing_statements (cstate c) !! a = None
        ∧ closing_statements (cstate c') !! a
          = format_response (name info) <$> inferred E (llm_pos (world c))
        ∧ (is_Some (closing_statements (cstate c') !! a)
           <-> inference_succeeds E (llm_pos (world c)))))
  ∧ (current_stage (cstate c) ≠ opening ->
     forall i a info,
       agents !! i = Some a -> roles_get AVAILABLE_ROLES a = Some info ->
       opening_statements (cstate c) !! a
       = format_response (name info) <$> inferred E i
       ∧ (is_Some (opening_statements (cstate c) !! a)
          <-> inference_succeeds E i))
  ∧ (node c = END ->
     forall i a info,
       agents !! i = Some a -> roles_get AVAILABLE_ROLES a = Some info ->
       closing_statements (cstate c) !! a
       = format_response (name info)
           <$> inferred E (llm_pos (world c) - length agents + i)
       ∧ (is_Some (closing_statements (cstate c) !! a)
          <-> inference_succeeds E (llm_pos (world c) - length agents + i)))
  ∧ (forall a, is_Some (opening_statements (cstate c) !! a)
               ∨ is_Some (closing_statements (cstate c) !! a) ->
               a ∈ agents)
  ∧ (always_infers E ->
     forall a, a ∈ agents ->
       (current_stage (cstate c) ≠ opening ->
        is_Some (opening_statements (cstate c) !! a))
       ∧ (node c = END -> is_Some (closing_statements (cstate c) !! a))).
Proof.
  intros Hvalid Hreach.
  destruct (valid_config_facts _ _ Hvalid) as (Hnd & Hknown & Hlen & _).
  assert (Hlen2 : 2 ≤ length agents) by lia.
  pose proof (reachable_Inv E _ _ _ _ _ _ Hvalid Hreach) as HI.
  pose proof (Inv_END _ _ _ HI) as Hend.
  destruct (reachable_archive E _ _ _ _ _ _ Hvalid Hreach) as [Hpos Harch].
  assert (Hsome : forall (f : string -> string) i,
            is_Some (f <$> inferred E i) <-> inference_succeeds E i).
  { intros f i. rewrite fmap_is_Some. apply inferred_succeeds. }
  assert (Hopening :
            current_stage (cstate c) ≠ opening ->
            forall i a info,
              agents !! i = Some a ->
              roles_get AVAILABLE_ROLES a = Some info ->
              opening_statements (cstate c) !! a
              = format_response (name info) <$> inferred E i).
  { intros Hst i a info Hi Hinfo.
    destruct (Harch i a info Hi Hinfo) as [-> _].
    by rewrite decide_False by (by intros [? _]). }
  assert (Hclosing :
            node c = END ->
            forall i a info,
              agents !! i = Some a ->
              roles_get AVAILABLE_ROLES a = Some info ->
              closing_statements (cstate c) !! a
              = format_response (name info)
                  <$> inferred E (llm_pos (world c) - length agents + i)).
  { intros Hnode i a info Hi Hinfo.
    destruct (Hend Hnode) as (Hst & Hp & _).
    destruct (Harch i a info Hi Hinfo) as [_ ->].
    pose proof (lookup_lt_Some _ _ _ Hi) as Hlt.
    rewrite decide_True by (split; [done|lia]). by rewrite Hp. }
  split; [|split; [|split; [|split]]].
  - intros a info c' Hnode Hinfo Hstep. split; intros Hst.
    + destruct (turn_archive E agents rounds c a c' Hnd Hknown Hlen2 HI Hnode
                  Hstep ltac:(by left))
        as (info' & Hinfo' & Hturn & _ & _ & _ & Hopen & _).
      assert (info' = info) as -> by congruence.
      destruct (Hopen Hst) as [Ho _].
      destruct (Harch _ a info Hturn Hinfo) as [Hbefore _].
      rewrite decide_True in Hbefore by (split; [done|lia]).
      assert (Hafter : opening_statements (cstate c') !! a
                       = format_response (name info)
                           <$> inferred E (llm_pos (world c))).
      { rewrite Ho. destruct (inferred E (llm_pos (world c))); simpl;
          [by rewrite lookup_insert_eq|done]. }
      split; [done|]. split; [done|]. split; [by rewrite Hafter|].
      intros Hready. destruct (Hpos Hready) as [-> _]; done.
    + destruct (turn_archive E agents rounds c a c' Hnd Hknown Hlen2 HI Hnode
                  Hstep ltac:(by right))
        as (info' & Hinfo' & Hturn & _ & _ & _ & _ & Hclose).
      assert (info' = info) as -> by congruence.
      destruct (Hclose Hst) as [Hc _].
      destruct (Harch _ a info Hturn Hinfo) as [_ Hbefore].
      rewrite decide_False in Hbefore by (intros [_ ?]; lia).
      assert (Hafter : closing_statements (cstate c') !! a
                       = format_response (name info)
                           <$> inferred E (llm_pos (world c))).
      { rewrite Hc. destruct (inferred E (llm_pos (world c))); simpl;
          [by rewrite lookup_insert_eq|done]. }
      split; [done|]. split; [done|]. by rewrite Hafter.
  - intros Hst i a info Hi Hinfo.
    rewrite (Hopening Hst i a info Hi Hinfo). split; [done|apply Hsome].
  - intros Hnode i a info Hi Hinfo.
    rewrite (Hclosing Hnode i a info Hi Hinfo). split; [done|apply Hsome].
  - destruct HI as [Hag _ _ _ _ _ _ _ _ [Hopen _] [Hclose _] _ _].
    intros a [Ha|Ha].
    + apply Hopen in Ha as [Ha _]. revert Ha. unfold opened. rewrite Hag.
      destruct (decide _); [apply subseteq_take|done].
    + apply Hclose in Ha as [Ha _]. revert Ha. unfold closed. rewrite Hag.
      destruct (decide _); [apply subseteq_take|]. by intros ?%elem_of_nil.
  - intros [Hready Hall] a Ha.
    apply list_elem_of_lookup in Ha as [i Hi].
    assert (Hka : known_agent a).
    { rewrite Forall_forall in Hknown. apply Hknown.
      by eapply list_elem_of_lookup_2. }
    destruct Hka as [info Hinfo].
    assert (Hyes : forall j, inference_succeeds E j) by (by split).
    split.
    + intros Hst. rewrite (Hopening Hst i a info Hi Hinfo). by apply Hsome.
    + intros Hnode. rewrite (Hclosing Hnode i a info Hi Hinfo).
      by apply Hsome.
Qed.

Lemma statements_of_the_turns_that_succeeded_witness :
  (node (debate_after 21) = END
   ∧ opening_statements (cstate (debate_after 4)) !! "tech_expert"
     = Some "技术专家: ...")
  ∧ forall a, a ∈ three_agents ->
      is_Some (opening_statements (cstate (debate_after 21)) !! a)
      ∧ is_Some (closing_statements (cstate (debate_after 21)) !! a).
Proof.
  split; [split; vm_compute; reflexivity|].
  assert (Hall : always_infers env_steady) by (split; reflexivity).
  destruct (statements_of_the_turns_that_succeeded env_steady three_agents 2
              "AI" true 3 (debate_after 21))
    as (_ & _ & _ & _ & Hboth).
  - split; [reflexivity|lia].
  - apply after_reachable, reach_start.
  - intros a Ha. destruct (Hboth Hall a Ha) as [Hopen Hclose]. split.
    + apply Hopen. vm_compute. discriminate.
    + apply Hclose. vm_compute. reflexivity.
Defined.

(** ** C10: the generator draws the questioner again *)

(** C10. The question generator draws questioner and target afresh; when
    its draw is not the participant whose turn it is, it returns the "not
    my question time" message with both counters raised by one and leaves
    the ledger and the pending-answer cursor alone. And this happens in a
    run: in the debate of three participants, with the random source of
    [env_mismatch], the first turn of the questioning stage finds all three
    participants tied, the scheduler routes to ["tech_expert"], the
    generator draws ["sociologist"], and the turn is spent on the message,
    with no question recorded. *)
Theorem generator_redraws_the_questioner :
  (forall (E : Env) (state : State) (agent_key : string) (w w1 : World)
          (agent_info : RoleInfo) (questioner target : string),
     roles_get AVAILABLE_ROLES agent_key = Some agent_info ->
     select_next_questioner_and_target E (active_agents state)
                                       (questions_asked state) w
     = (Ok (questioner, target), w1) ->
     agent_key ≠ questioner ->
     exists u,
       _generate_question E state agent_key w = (Ok u, state, w1)
       ∧ u_messages u = [name agent_info +:+ NOT_MY_TURN]
       ∧ u_total_messages u = Some (total_messages state + 1)
       ∧ u_stage_progress u = Some (stage_progress state + 1)
       ∧ u_questions_asked u = None
       ∧ u_waiting_for_answer u = None)
  ∧ exists c c' w1 w2 target,
      reachable env_mismatch three_agents debate_3_2 c
      ∧ current_stage (cstate c) = questioning
      ∧ node c = Agent "tech_expert"
      ∧ (min_authored three_agents (questions_asked (cstate c))
                      "tech_expert"
         ∧ min_authored three_agents (questions_asked (cstate c))
                        "sociologist")
      ∧ determine_next_node env_mismatch (cstate c) (world c)
        = (Ok (Agent "tech_expert"), w1)
      ∧ select_next_questioner_and_target env_mismatch three_agents
          (questions_asked (cstate c)) w1
        = (Ok ("sociologist", target), w2)
      ∧ step env_mismatch three_agents c = Some c'
      ∧ last (messages (cstate c')) = Some ("技术专家" +:+ NOT_MY_TURN)
      ∧ total_messages (cstate c') = total_messages (cstate c) + 1
      ∧ stage_progress (cstate c') = stage_progress (cstate c) + 1
      ∧ questions_asked (cstate c') = questions_asked (cstate c)
      ∧ waiting_for_answer (cstate c') = false
      ∧ count is_wasted (trace c') = 1.
Proof.
  split.
  - intros E state agent_key w w1 agent_info q t Hinfo Hsel Hne.
    unfold _generate_question. rewrite Hinfo, Hsel.
    rewrite decide_True by done. eexists. split; [reflexivity|]. done.
  - eexists _, _, _, _, _. split.
    { apply (steps_reachable env_mismatch three_agents debate_3_2 4
               (start three_agents debate_3_2)); [apply reach_start|].
      vm_compute; reflexivity. }
    split; [reflexivity|]. split; [reflexivity|]. split.
    { split; (split; [compute_done|]); intros b _; vm_compute; lia. }
    split; [vm_compute; reflexivity|]. split; [vm_compute; reflexivity|].
    split; [vm_compute; reflexivity|]. by vm_compute.
Qed.

Lemma generator_redraws_the_questioner_witness :
  exists u,
    _generate_question env_mismatch questioning_state "tech_expert"
                       (mkWorld 4 0 [])
    = (Ok u, questioning_state, mkWorld 6 0 [])
    ∧ u_messages u = ["技术专家" +:+ NOT_MY_TURN]
    ∧ u_total_messages u = Some (total_messages questioning_state + 1)
    ∧ u_stage_progress u = Some (stage_progress questioning_state + 1)
    ∧ u_questions_asked u = None
    ∧ u_waiting_for_answer u = None.
Proof.
  destruct generator_redraws_the_questioner as [Hgen _].
  apply (Hgen env_mismatch questioning_state "tech_expert" (mkWorld 4 0 [])
           (mkWorld 6 0 []) (mkRole "技术专家" "前沿科技研究者")
           "sociologist" "tech_expert").
  - reflexivity.
  - vm_compute; reflexivity.
  - discriminate.
Defined.

(** * More of the code: properties *)

(** ** X1: what the graph builder accepts *)

(** X1. [create_multi_agent_graph] builds the graph of a list of
    participants exactly when the list has three to six keys, all of the
    registry and none twice, and then every key of the list has its node.
    A shorter list and a longer list are refused with their own messages,
    whatever the keys are; a list of the right length is refused with the
    first key the registry lacks. *)
Theorem graph_builder_accepts_three_to_six_registered_keys
    (agents : list string) :
  (create_multi_agent_graph agents = Ok agents
   <-> 3 ≤ length agents ≤ 6 ∧ Forall known_agent agents ∧ NoDup agents)
  ∧ (forall graph,
       create_multi_agent_graph agents = Ok graph -> graph = agents)
  ∧ (length agents < 3 ->
     create_multi_agent_graph agents = Raise "至少需要3个Agent参与辩论")
  ∧ (6 < length agents ->
     create_multi_agent_graph agents = Raise "最多支持6个Agent参与辩论")
  ∧ (3 ≤ length agents ≤ 6 ->
     forall i a,
       agents !! i = Some a -> ¬ known_agent a ->
       (forall j b, agents !! j = Some b -> j < i -> known_agent b) ->
       create_multi_agent_graph agents = Raise ("未知的Agent: " +:+ a)).
Proof.
  split; [apply create_graph_Ok|].
  unfold create_multi_agent_graph. repeat split.
  - intros graph. case_decide; [done|]. case_decide; [done|].
    destruct (list_find _ agents) as [[i a]|]; [done|].
    case_decide; [|done]. congruence.
  - intros Hlt. by rewrite decide_True.
  - intros Hgt. rewrite decide_False by lia. by rewrite decide_True.
  - intros [H3 H6] i a Hl Hnot Hbefore.
    rewrite decide_False by lia. rewrite decide_False by lia.
    destruct (list_find _ agents) as [[i' a']|] eqn:Hfind.
    + apply list_find_Some in Hfind as (Hl' & Hnot' & Hbefore').
      destruct (Nat.lt_trichotomy i i') as [Hlt|[->|Hgt]].
      * by destruct (Hbefore' i a Hl Hlt).
      * congruence.
      * destruct Hnot'. by eapply Hbefore.
    + apply list_find_None in Hfind. rewrite Forall_forall in Hfind.
      destruct (Hfind a); [by eapply list_elem_of_lookup_2|done].
Qed.

(** ** X2: when the selection raises *)

(** X2. [select_next_questioner_and_target] returns exactly when every
    record of the ledger is between participants and two of the
    participants are different; otherwise it raises (the [KeyError] of a
    stranger in the ledger, the [ValueError] of [min] on no participant or
    on no other participant). When it returns, questioner and target are
    two different participants and two numbers of the random source are
    used. *)
Theorem selection_needs_two_participants_and_a_ledger_among_them
    (E : Env) (agents : list string) (qs : list QA) (w : World) :
  (is_ok (select_next_questioner_and_target E agents qs w).1 = true
   <-> ledger_ok agents qs ∧ exists a b, a ∈ agents ∧ b ∈ agents ∧ a ≠ b)
  ∧ forall q t w',
      select_next_questioner_and_target E agents qs w = (Ok (q, t), w') ->
      q ∈ agents ∧ t ∈ agents ∧ t ≠ q ∧ w' = drawn w 2.
Proof. apply select_Ok. Qed.

(** ** X3: what the scheduler can return *)

(** X3. Whatever the state, [determine_next_node] returns a participant
    of the state, the transition to the stage that follows the current
    one, or, in closing only, the end: it never goes back, skips a stage
    or names a stranger. It raises in two cases only: in free debate with
    no participant (the division by zero), and in the questioning stage
    when it has to draw a questioner and the selection raises. *)
Theorem scheduler_returns_a_participant_or_the_next_stage
    (E : Env) (st : State) (w : World) :
  (forall next w',
     determine_next_node E st w = (Ok next, w') ->
     match next with
     | Agent a => a ∈ active_agents st
     | Transition t =>
         (current_stage st = opening ∧ t = questioning)
         ∨ (current_stage st = questioning ∧ t = free_debate)
         ∨ (current_stage st = free_debate ∧ t = closing)
     | END => current_stage st = closing
     end)
  ∧ (is_ok (determine_next_node E st w).1 = false
     <-> (current_stage st = free_debate ∧ active_agents st = [])
         ∨ (current_stage st = questioning ∧ waiting_for_answer st = false
            ∧ length (questions_asked st) < length (active_agents st)
            ∧ is_ok (select_next_questioner_and_target E (active_agents st)
                       (questions_asked st) w).1 = false)).
Proof.
  split; [intros next w'; apply determine_range|apply determine_raises].
Qed.

(** ** X4: the graph has every node the run goes to *)

(** X4. In a run of a valid configuration every node a command names is
    a node of the graph: each configuration either has reached [END] or
    has a superstep to take, so the run finishes or stops at the recursion
    limit and never for want of a node. *)
Theorem run_never_misses_a_node (E : Env) (agents : list string)
    (rounds : nat) (topic : string) (enable_rag : bool) (max_refs : nat) :
  valid_config agents rounds ->
  (forall c,
     reachable E agents (inputs topic rounds agents enable_rag max_refs) c ->
     match node c with
     | Agent a => a ∈ agents ∧ is_Some (step E agents c)
     | Transition t => t ≠ opening ∧ is_Some (step E agents c)
     | END => True
     end)
  ∧ forall n c,
      run E agents n
          (start agents (inputs topic rounds agents enable_rag max_refs))
      ≠ NoSuchNode c.
Proof.
  intros Hvalid.
  destruct (valid_config_facts _ _ Hvalid) as (Hnd & Hknown & Hlen & _).
  assert (Hlen2 : 2 ≤ length agents) by lia.
  split.
  - intros c Hreach.
    pose proof (reachable_Inv E _ _ _ _ _ _ Hvalid Hreach) as HI.
    destruct (node c) as [a|t|] eqn:Hnode; [| |done].
    + split; [by eapply Inv_node_in_graph|].
      apply (step_defined E agents rounds); try done. by rewrite Hnode.
    + split.
      * pose proof (transition_cases agents rounds c t Hlen2 HI Hnode) as Ht.
        cbv zeta in Ht.
        by destruct Ht as [(_ & -> & _)|[(_ & -> & _)|(_ & -> & _)]].
      * apply (step_defined E agents rounds); try done. by rewrite Hnode.
  - intros n c Hrun.
    pose proof (run_reachable E agents
                  (inputs topic rounds agents enable_rag max_refs) n
                  (start agents (inputs topic rounds agents enable_rag
                                        max_refs))
                  (reach_start _ _ _)) as Hr.
    rewrite Hrun in Hr. destruct Hr as (Hreach & Hnode & Hstep).
    pose proof (reachable_Inv E _ _ _ _ _ _ Hvalid Hreach) as HI.
    destruct (step_defined E agents rounds c Hlen2 HI Hnode) as [c' Hc'].
    congruence.
Qed.

Lemma run_never_misses_a_node_witness :
  valid_config three_agents 2
  ∧ forall n c,
      run env_steady three_agents n (start three_agents debate_3_2)
      ≠ NoSuchNode c.
Proof.
  assert (Hvalid : valid_config three_agents 2) by (split; [reflexivity|lia]).
  split; [exact Hvalid|].
  apply (run_never_misses_a_node env_steady three_agents 2 "AI" true 3 Hvalid).
Defined.

(** ** X5: a steady run ends *)

(** X5. With an inference chain that answers every call and a random
    source that always yields the same number, the run of a valid
    configuration reaches [END] whenever the recursion limit is above
    [N * (4 + max_rounds) + 3], and takes exactly that many supersteps:
    every superstep is a spoken turn or one of the three transitions, no
    node hands over and no questioning turn is wasted. *)
Theorem steady_run_ends_in_N_times_4_plus_rounds_plus_3_supersteps
    (E : Env) (agents : list string) (rounds : nat) (topic : string)
    (enable_rag : bool) (max_refs n : nat) :
  valid_config agents rounds -> steady E ->
  length agents * (4 + rounds) + 3 < n ->
  exists c,
    run E agents n
        (start agents (inputs topic rounds agents enable_rag max_refs))
    = Finished c
    ∧ length (trace c) = length agents * (4 + rounds) + 3
    ∧ count is_spoken (trace c) = length agents * (4 + rounds)
    ∧ count is_transition (trace c) = 3
    ∧ count is_wasted (trace c) = 0.
Proof.
  intros Hvalid Hsteady Hn.
  destruct (valid_config_facts _ _ Hvalid) as (Hnd & Hknown & Hlen & _).
  destruct (run_steady E Hsteady agents rounds topic enable_rag max_refs n
              (start agents (inputs topic rounds agents enable_rag max_refs)))
    as (c & Hrun & Htrace); try done.
  - apply reach_start.
  - intros w. destruct agents as [|a agents]; [simpl in Hlen; lia|].
    unfold determine_next_node, start, inputs. cbn.
    destruct (decide (0 < S (length agents))); [done|lia].
  - unfold remaining. simpl. lia.
  - exists c. split; [done|].
    destruct (finished_counts E _ _ _ _ _ _ _ Hvalid Hrun)
      as (_ & _ & _ & _ & Hs & Ht).
    pose proof (count_spoken_transition (trace c)) as Hle.
    unfold remaining in Htrace. simpl in Htrace. lia.
Qed.

Lemma steady_run_ends_in_N_times_4_plus_rounds_plus_3_supersteps_witness :
  exists c,
    run env_steady three_agents 500 (start three_agents debate_3_2)
    = Finished c
    ∧ length (trace c) = 3 * (4 + 2) + 3
    ∧ count is_spoken (trace c) = 3 * (4 + 2)
    ∧ count is_transition (trace c) = 3
    ∧ count is_wasted (trace c) = 0.
Proof.
  apply (steady_run_ends_in_N_times_4_plus_rounds_plus_3_supersteps
           env_steady three_agents 2 "AI" true 3 500).
  - split; [reflexivity|lia].
  - split; [split; [reflexivity|intros i; reflexivity]|].
    intros i. reflexivity.
  - simpl. lia.
Defined.

(** ** X6: the transcript and its counter *)

(** X6. In every configuration of a run the transcript [messages] is,
    message for message, what the nodes' updates carried in the stream;
    [total_messages] counts the spoken turns and not the announcements of
    the transitions, so the transcript is longer than [total_messages] by
    the number of transitions made. *)
Theorem transcript_is_what_the_stream_carried (E : Env)
    (agents : list string) (rounds : nat) (topic : string)
    (enable_rag : bool) (max_refs : nat) (c : Config) :
  valid_config agents rounds ->
  reachable E agents (inputs topic rounds agents enable_rag max_refs) c ->
  messages (cstate c) = streamed (trace c)
  ∧ total_messages (cstate c) = count is_spoken (trace c)
  ∧ length (messages (cstate c))
    = total_messages (cstate c) + count is_transition (trace c).
Proof.
  intros Hvalid Hreach.
  destruct (reachable_stream E _ _ _ _ _ _ Hvalid Hreach) as [Hmsgs Hevs].
  destruct (reachable_Inv E _ _ _ _ _ _ Hvalid Hreach) as [_ _ Htot].
  repeat split; try done.
  by rewrite Hmsgs, Htot, event_ok_length.
Qed.

Lemma transcript_is_what_the_stream_carried_witness :
  length (messages (cstate (debate_after 4))) = 4
  ∧ messages (cstate (debate_after 4)) = streamed (trace (debate_after 4))
  ∧ total_messages (cstate (debate_after 4))
    = count is_spoken (trace (debate_after 4))
  ∧ length (messages (cstate (debate_after 4)))
    = total_messages (cstate (debate_after 4))
      + count is_transition (trace (debate_after 4)).
Proof.
  split; [vm_compute; reflexivity|].
  apply (transcript_is_what_the_stream_carried env_steady three_agents 2
           "AI" true 3).
  - split; [reflexivity|lia].
  - apply after_reachable, reach_start.
Defined.

(** ** X7: who a message of the stream is by *)

(** X7. Every item of the stream of a run is of one of three kinds: the
    announcement of a transition node; an empty update by which a
    participant's node, in the questioning stage, hands over to the
    questioner it has just drawn; or a spoken turn of exactly one message,
    which begins with the display name of the participant whose node
    returned it, whether it is a statement, a question, an answer, a reply
    or an apology. *)
Theorem every_spoken_turn_begins_with_the_speakers_name (E : Env)
    (agents : list string) (rounds : nat) (topic : string)
    (enable_rag : bool) (max_refs : nat) (c : Config) (ev : Event) :
  valid_config agents rounds ->
  reachable E agents (inputs topic rounds agents enable_rag max_refs) c ->
  ev ∈ trace c ->
  match ev_node ev with
  | Agent a =>
      (ev_stage ev = questioning ∧ ev_update ev = update_messages [])
      ∨ (is_spoken ev = true
         ∧ exists msg, u_messages (ev_update ev) = [msg] ∧ named a msg)
  | Transition t => t ≠ opening ∧ ev_update ev = transition_update t
  | END => False
  end.
Proof.
  intros Hvalid Hreach Hev.
  destruct (reachable_stream E _ _ _ _ _ _ Hvalid Hreach) as [_ Hevs].
  rewrite Forall_forall in Hevs. exact (Hevs ev Hev).
Qed.

Lemma every_spoken_turn_begins_with_the_speakers_name_witness :
  length (trace (debate_after 5)) = 5
  ∧ forall ev, ev ∈ trace (debate_after 5) ->
      match ev_node ev with
      | Agent a =>
          (ev_stage ev = questioning ∧ ev_update ev = update_messages [])
          ∨ (is_spoken ev = true
             ∧ exists msg, u_messages (ev_update ev) = [msg] ∧ named a msg)
      | Transition t => t ≠ opening ∧ ev_update ev = transition_update t
      | END => False
      end.
Proof.
  split; [vm_compute; reflexivity|].
  intros ev.
  apply (every_spoken_turn_begins_with_the_speakers_name env_steady
           three_agents 2 "AI" true 3).
  - split; [reflexivity|lia].
  - apply after_reachable, reach_start.
Defined.

(** ** X8: questions and their answers *)

(** X8. In every configuration of a run each record of the ledger holds
    a question that begins with the name of its questioner, put to
    somebody else. While an answer is pending, the record it is for is the
    last one: it has no answer yet and its target is the participant
    [current_target] names; every other record has an answer that begins
    with the name of its target. Once the questioning stage is left no
    answer is pending, so every question has been answered by the
    participant it was put to. *)
Theorem every_question_is_answered_by_its_target (E : Env)
    (agents : list string) (rounds : nat) (topic : string)
    (enable_rag : bool) (max_refs : nat) (c : Config) :
  valid_config agents rounds ->
  reachable E agents (inputs topic rounds agents enable_rag max_refs) c ->
  let st := cstate c in
  Forall asked (questions_asked st)
  ∧ (waiting_for_answer st = true ->
     exists before qa,
       questions_asked st = before ++ [qa]
       ∧ Forall answered before
       ∧ answer qa = "" ∧ target qa = current_target st)
  ∧ (waiting_for_answer st = false -> Forall answered (questions_asked st))
  ∧ (current_stage st ≠ questioning -> Forall answered (questions_asked st)).
Proof.
  intros Hvalid Hreach. cbv zeta.
  destruct (reachable_ledger E _ _ _ _ _ _ Hvalid Hreach) as [[Hasked Hans] _].
  pose proof (reachable_not_waiting E _ _ _ _ _ _ Hvalid Hreach) as Hnw.
  split; [done|].
  destruct (waiting_for_answer (cstate c)) eqn:Hw.
  - split; [done|]. split; [done|]. intros Hst. by specialize (Hnw Hst).
  - done.
Qed.

Lemma every_question_is_answered_by_its_target_witness :
  waiting_for_answer (cstate (debate_after 5)) = true
  ∧ Forall asked (questions_asked (cstate (debate_after 5)))
  ∧ exists before qa,
      questions_asked (cstate (debate_after 5)) = before ++ [qa]
      ∧ Forall answered before
      ∧ answer qa = ""
      ∧ target qa = current_target (cstate (debate_after 5)).
Proof.
  assert (Hw : waiting_for_answer (cstate (debate_after 5)) = true)
    by (vm_compute; reflexivity).
  destruct (every_question_is_answered_by_its_target env_steady
              three_agents 2 "AI" true 3 (debate_after 5)) as (Ha & Hp & _).
  - split; [reflexivity|lia].
  - apply after_reachable, reach_start.
  - split; [exact Hw|]. split; [exact Ha|exact (Hp Hw)].
Defined.

(** ** X9: who is asked *)

(** X9. In every configuration of a run nobody has put a question to
    themselves; while the ledger is not full nobody has received more than
    one question; and nobody ever receives more than two. *)
Theorem nobody_is_asked_more_than_twice (E : Env)
    (agents : list string) (rounds : nat) (topic : string)
    (enable_rag : bool) (max_refs : nat) (c : Config) :
  valid_config agents rounds ->
  reachable E agents (inputs topic rounds agents enable_rag max_refs) c ->
  let qs := questions_asked (cstate c) in
  (forall qa, qa ∈ qs -> questioner qa ≠ target qa)
  ∧ (forall a, received qs a ≤ 2)
  ∧ (length qs < length agents -> forall a, received qs a ≤ 1).
Proof.
  intros Hvalid Hreach. cbv zeta.
  destruct (reachable_ledger E _ _ _ _ _ _ Hvalid Hreach)
    as [[Hasked _] Hbound].
  repeat split.
  - intros qa Hqa. rewrite Forall_forall in Hasked.
    by destruct (Hasked qa Hqa).
  - intros a. specialize (Hbound a). case_decide; lia.
  - intros Hlt a. specialize (Hbound a). by rewrite decide_True in Hbound.
Qed.

Lemma nobody_is_asked_more_than_twice_witness :
  length (questions_asked (cstate (debate_after 5))) = 1
  ∧ (forall qa, qa ∈ questions_asked (cstate (debate_after 5)) ->
                questioner qa ≠ target qa)
  ∧ forall a, received (questions_asked (cstate (debate_after 5))) a ≤ 2.
Proof.
  split; [vm_compute; reflexivity|].
  destruct (nobody_is_asked_more_than_twice env_steady
              three_agents 2 "AI" true 3 (debate_after 5)) as (Ha & Hb & _).
  - split; [reflexivity|lia].
  - apply after_reachable, reach_start.
  - split; [exact Ha|exact Hb].
Defined.

(** ** X10: the cache keeps what it has *)

(** X10. In a run an entry of [agent_paper_cache] is never replaced or
    dropped, and a mark in [first_round_rag_completed] is never taken
    back: what a configuration has cached for a participant is what every
    later configuration has; and only marked participants have an
    entry. *)
Theorem cached_context_stays_for_the_run (E : Env)
    (agents : list string) (rounds : nat) (topic : string)
    (enable_rag : bool) (max_refs n : nat) (c c' : Config) :
  valid_config agents rounds ->
  reachable E agents (inputs topic rounds agents enable_rag max_refs) c ->
  steps E agents n c = Some c' ->
  (forall a context,
     agent_paper_cache (cstate c) !! a = Some context ->
     agent_paper_cache (cstate c') !! a = Some context)
  ∧ (forall a, a ∈ first_round_rag_completed (cstate c) ->
               a ∈ first_round_rag_completed (cstate c'))
  ∧ (forall a, is_Some (agent_paper_cache (cstate c) !! a) ->
               a ∈ first_round_rag_completed (cstate c)).
Proof.
  intros Hvalid Hreach Hsteps.
  destruct (steps_cache E agents rounds topic enable_rag max_refs n c c'
              Hvalid Hreach Hsteps) as [Hc Hm].
  repeat split; try done.
  by apply (reachable_cache_keys E agents rounds topic enable_rag max_refs).
Qed.

Lemma cached_context_stays_for_the_run_witness :
  steps env_steady three_agents 5 (debate_after 1) = Some (debate_after 6)
  ∧ agent_paper_cache (cstate (debate_after 1)) !! "tech_expert"
    = Some "参考资料 1"
  ∧ agent_paper_cache (cstate (debate_after 6)) !! "tech_expert"
    = Some "参考资料 1".
Proof.
  assert (Hs : steps env_steady three_agents 5 (debate_after 1)
               = Some (debate_after 6)) by (vm_compute; reflexivity).
  assert (Hc : agent_paper_cache (cstate (debate_after 1)) !! "tech_expert"
               = Some "参考资料 1") by (vm_compute; reflexivity).
  split; [exact Hs|]. split; [exact Hc|].
  destruct (cached_context_stays_for_the_run env_steady three_agents 2
              "AI" true 3 5 (debate_after 1) (debate_after 6))
    as (Hkeep & _ & _).
  - split; [reflexivity|lia].
  - apply after_reachable, reach_start.
  - exact Hs.
  - exact (Hkeep _ _ Hc).
Defined.

(** ** X11: when the prompt formatters raise *)

(** X11. [format_opening_statements] returns its placeholder on an
    empty archive, and otherwise returns exactly when every participant
    that has a statement is in the registry. [format_qa_summary] returns
    its placeholder on an empty ledger, and returns exactly when the
    questioner and the target of every record are in the registry.
    [format_agent_history] returns its placeholder on an empty transcript
    even without participants; on a non-empty transcript it raises the
    division by zero when there is no participant, and returns when the
    participants are of the registry. *)
Theorem prompt_formatters_raise_only_on_strangers
    (opening_statements : gmap string string) (active_agents : list string)
    (questions_asked : list QA) (messages : list string)
    (current_agent : string) (current_round max_show : nat) :
  (opening_statements = ∅ ->
   format_opening_statements opening_statements active_agents
   = Ok NO_OPENING_STATEMENTS)
  ∧ (is_ok (format_opening_statements opening_statements active_agents)
     = true
     <-> opening_statements = ∅
         ∨ forall a, a ∈ active_agents ->
                     is_Some (opening_statements !! a) -> known_agent a)
  ∧ format_qa_summary [] = Ok NO_QA
  ∧ (is_ok (format_qa_summary questions_asked) = true
     <-> forall qa, qa ∈ questions_asked ->
           known_agent (questioner qa) ∧ known_agent (target qa))
  ∧ format_agent_history [] active_agents current_agent current_round
      max_show = Ok HISTORY_START
  ∧ (messages ≠ [] ->
     format_agent_history messages [] current_agent current_round max_show
     = Raise "integer division or modulo by zero")
  ∧ (active_agents ≠ [] -> Forall known_agent active_agents ->
     is_ok (format_agent_history messages active_agents current_agent
              current_round max_show) = true).
Proof.
  split; [by intros ->|].
  split; [apply format_opening_statements_Ok|].
  split; [done|].
  split; [apply format_qa_summary_Ok|].
  split; [done|].
  split; [|apply format_agent_history_Ok].
  intros Hne. unfold format_agent_history. rewrite decide_False by done.
  pose proof (recent_nonempty messages max_show Hne) as Hrec.
  by destruct (recent messages max_show).
Qed.

(** ** X12: the prompt of a turn is always assembled *)

(** X12. On the state of every configuration of a run the three
    formatters the generators call for their prompts return:
    [format_opening_statements] on the archive of opening statements,
    [format_qa_summary] on the ledger and [format_agent_history] on the
    transcript. No turn of a run is lost to the assembly of its prompt. *)
Theorem prompt_of_a_turn_is_always_assembled (E : Env)
    (agents : list string) (rounds : nat) (topic : string)
    (enable_rag : bool) (max_refs : nat) (c : Config) :
  valid_config agents rounds ->
  reachable E agents (inputs topic rounds agents enable_rag max_refs) c ->
  let st := cstate c in
  is_ok (format_opening_statements (opening_statements st)
           (active_agents st)) = true
  ∧ is_ok (format_qa_summary (questions_asked st)) = true
  ∧ forall current_agent current_round max_show,
      is_ok (format_agent_history (messages st) (active_agents st)
               current_agent current_round max_show) = true.
Proof.
  intros Hvalid Hreach. cbv zeta.
  destruct (valid_config_facts _ _ Hvalid) as (Hnd & Hknown & Hlen & _).
  destruct (reachable_Inv E _ _ _ _ _ _ Hvalid Hreach) as [Hag _ _ Hled].
  rewrite Hag. split; [|split].
  - apply format_opening_statements_Ok. right. intros a Ha _.
    rewrite Forall_forall in Hknown. by apply Hknown.
  - apply format_qa_summary_Ok. intros qa Hqa. destruct (Hled qa Hqa).
    rewrite Forall_forall in Hknown. split; by apply Hknown.
  - intros current_agent current_round max_show.
    apply format_agent_history_Ok; [|done].
    intros ->. simpl in Hlen. lia.
Qed.

Lemma prompt_of_a_turn_is_always_assembled_witness :
  is_ok (format_opening_statements
           (opening_statements (cstate (debate_after 5)))
           (active_agents (cstate (debate_after 5)))) = true
  ∧ is_ok (format_qa_summary (questions_asked (cstate (debate_after 5))))
    = true
  ∧ forall current_agent current_round max_show,
      is_ok (format_agent_history (messages (cstate (debate_after 5)))
               (active_agents (cstate (debate_after 5))) current_agent
               current_round max_show) = true.
Proof.
  apply (prompt_of_a_turn_is_always_assembled env_steady three_agents 2
           "AI" true 3 (debate_after 5)).
  - split; [reflexivity|lia].
  - apply after_reachable, reach_start.
Defined.

(** ** X13: whom the history names *)

(** X13. [format_agent_history] takes the message at index [i] of the
    transcript to be by participant number [i mod N]. In the free-debate
    stage of a run the participant about to speak is number
    [stage_progress mod N], while the message will sit at the index that
    is the length of the transcript, [3 * N + 2 + stage_progress] plus the
    wasted turns: the history names the speaker exactly when [N] divides
    the number of wasted turns plus two, and so, in a run without wasted
    turns, it names somebody else. *)
Theorem history_names_the_speaker_two_places_on (E : Env)
    (agents : list string) (rounds : nat) (topic : string)
    (enable_rag : bool) (max_refs : nat) (c : Config) (a : string) :
  valid_config agents rounds ->
  reachable E agents (inputs topic rounds agents enable_rag max_refs) c ->
  current_stage (cstate c) = free_debate ->
  node c = Agent a ->
  length (messages (cstate c))
  = 3 * length agents + 2 + count is_wasted (trace c)
    + stage_progress (cstate c)
  ∧ agents !! (stage_progress (cstate c) mod length agents) = Some a
  ∧ exists b,
      estimated_speaker agents (length (messages (cstate c))) = Ok b
      ∧ (b = a <-> (count is_wasted (trace c) + 2) mod length agents = 0)
      ∧ (count is_wasted (trace c) = 0 -> b ≠ a).
Proof.
  intros Hvalid Hreach Hst Hnode.
  destruct (valid_config_facts _ _ Hvalid) as (Hnd & Hknown & Hlen & _).
  destruct (reachable_stream E _ _ _ _ _ _ Hvalid Hreach) as [Hmsgs Hevs].
  destruct (reachable_Inv E _ _ _ _ _ _ Hvalid Hreach)
    as [Hag Hro Htot _ _ _ _ _ _ _ _ Hstage _].
  unfold stage_inv in Hstage. rewrite Hst, Hnode in Hstage.
  destruct Hstage as (Htr & Hsp & Hp & _ & Hrule).
  assert (HN : length agents ≠ 0) by lia.
  assert (Hlenm : length (messages (cstate c))
                  = 3 * length agents + 2 + count is_wasted (trace c)
                    + stage_progress (cstate c)).
  { rewrite Hmsgs, event_ok_length by done. lia. }
  assert (Ha : agents !! (stage_progress (cstate c) mod length agents)
               = Some a).
  { unfold next_actor_rule in Hrule. rewrite Hst, Hag in Hrule.
    case_decide; [|done].
    destruct (agents !! _) as [x|]; simpl in Hrule; congruence. }
  split; [done|]. split; [done|].
  destruct (estimated_speaker_Ok agents (length (messages (cstate c))))
    as (b & Hb & Hlb); [by intros ->|].
  exists b. split; [done|].
  assert (Hiff : b = a
                 <-> (count is_wasted (trace c) + 2) mod length agents = 0).
  { rewrite <- (mod_shift _ (stage_progress (cstate c)) _ HN).
    replace (length (messages (cstate c)))
      with (count is_wasted (trace c) + 2 + stage_progress (cstate c)
            + 3 * length agents) in Hlb by lia.
    rewrite Nat.Div0.mod_add in Hlb.
    split.
    - intros ->. by eapply NoDup_lookup.
    - intros Heq. rewrite Heq in Hlb. congruence. }
  split; [done|].
  intros H0 Hba. apply Hiff in Hba. rewrite H0 in Hba. simpl in Hba.
  rewrite Nat.mod_small in Hba by lia. done.
Qed.

Lemma history_names_the_speaker_two_places_on_witness :
  length (messages (cstate (debate_after 11))) = 11
  ∧ exists b,
      estimated_speaker three_agents
        (length (messages (cstate (debate_after 11)))) = Ok b
      ∧ b ≠ "tech_expert".
Proof.
  split; [vm_compute; reflexivity|].
  destruct (history_names_the_speaker_two_places_on env_steady
              three_agents 2 "AI" true 3 (debate_after 11) "tech_expert")
    as (_ & _ & b & Hb & _ & Hne).
  - split; [reflexivity|lia].
  - apply after_reachable, reach_start.
  - vm_compute; reflexivity.
  - vm_compute; reflexivity.
  - exists b. split; [exact Hb|]. apply Hne. vm_compute; reflexivity.
Defined.

(** ** X14: what the history shows *)

(** X14. With participants of the registry, [format_agent_history] makes
    one block for each of the last [max_show] messages of the transcript,
    for all of them when there are no more than [max_show], and, the slice
    being [messages[-max_show:]], for all of them too when [max_show] is
    [0]. The block of a message is the name of the participant the index
    of the message in the transcript designates, followed by the message
    with that name's prefix removed. *)
Theorem history_shows_the_last_messages (messages : list string)
    (active_agents : list string) (max_show : nat) :
  active_agents ≠ [] -> Forall known_agent active_agents ->
  let recent_messages := recent messages max_show in
  let first := length messages - length recent_messages in
  messages = take first messages ++ recent_messages
  ∧ (max_show ≠ 0 ->
     length recent_messages = max_show `min` length messages)
  ∧ (max_show = 0 -> recent_messages = messages)
  ∧ exists blocks,
      history_blocks active_agents first recent_messages = Ok blocks
      ∧ length blocks = length recent_messages
      ∧ forall i m,
          recent_messages !! i = Some m ->
          exists a info,
            active_agents !! ((first + i) mod length active_agents) = Some a
            ∧ roles_get AVAILABLE_ROLES a = Some info
            ∧ blocks !! i
              = Some (name info +:+ ": " +:+ clean (name info) m).
Proof.
  intros Hne Hknown. cbv zeta.
  split; [apply recent_suffix|].
  split; [apply recent_length|].
  split.
  { intros ->. unfold recent, py_last. by repeat case_decide. }
  destruct (history_blocks_Ok active_agents (recent messages max_show)
              (length messages - length (recent messages max_show))
              Hne Hknown) as (blocks & Hblocks & Hlen).
  exists blocks. split; [done|]. split; [done|].
  intros i m Hm.
  destruct (history_blocks_lookup _ _ _ _ _ _ Hblocks Hm)
    as (a & info & Ha & Hinfo & Hb).
  exists a, info. split; [|done].
  destruct (estimated_speaker_Ok active_agents
              (length messages - length (recent messages max_show) + i) Hne)
    as (a' & Ha' & Hl).
  congruence.
Qed.

Lemma history_shows_the_last_messages_witness :
  exists blocks,
    history_blocks three_agents 2
      (recent ["a"; "b"; "c"; "d"; "e"; "f"; "g"; "h"] 6) = Ok blocks
    ∧ length blocks = 6.
Proof.
  destruct (history_shows_the_last_messages
              ["a"; "b"; "c"; "d"; "e"; "f"; "g"; "h"] three_agents 6)
    as (_ & _ & _ & blocks & Hb & Hl & _).
  - done.
  - apply (bool_decide_unpack _). vm_compute. exact I.
  - exists blocks. split; [exact Hb|exact Hl].
Defined.

(** ** X15: what the progress panel counts *)

(** X15. On the stage and the progress of every configuration of a run,
    [display_debate_progress] returns its metrics. The overall count it
    computes is the number of turns spoken so far, less the wasted
    questioning turns once that stage is left; it is set against
    [N * (3 + max_rounds)], so that at [END], where it is
    [N * (4 + max_rounds)], it exceeds what it is set against by [N].
    Outside the questioning stage the progress of the stage is never cut
    by the stage's total. *)
Theorem progress_panel_counts_the_spoken_turns (E : Env)
    (agents : list string) (rounds : nat) (topic : string)
    (enable_rag : bool) (max_refs : nat) (c : Config) :
  valid_config agents rounds ->
  reachable E agents (inputs topic rounds agents enable_rag max_refs) c ->
  let st := cstate c in
  exists metrics,
    display_debate_progress (current_stage st) (stage_progress st) agents
                            rounds = Ok metrics
    ∧ (metric_overall metrics).2 = length agents * (3 + rounds)
    ∧ count is_spoken (trace c)
      = (metric_overall metrics).1
        + (if decide (current_stage st = free_debate
                      ∨ current_stage st = closing)
           then count is_wasted (trace c) else 0)
    ∧ (current_stage st ≠ questioning ->
       metric_progress metrics
       = (stage_progress st, stage_total (current_stage st) agents rounds))
    ∧ (node c = END ->
       (metric_overall metrics).1 = length agents * (4 + rounds)
       ∧ (metric_overall metrics).1
         = (metric_overall metrics).2 + length agents).
Proof.
  intros Hvalid Hreach. cbv zeta.
  destruct (valid_config_facts _ _ Hvalid) as (Hnd & Hknown & Hlen & _).
  pose proof (reachable_Inv E _ _ _ _ _ _ Hvalid Hreach) as HI.
  pose proof (Inv_END agents rounds c HI) as Hend.
  destruct HI as [Hag Hro Htot _ _ _ _ _ _ _ _ Hstage _].
  unfold display_debate_progress.
  rewrite decide_False by nia.
  eexists. split; [done|]. cbn [metric_overall metric_progress fst snd].
  split; [done|].
  unfold stage_inv in Hstage. unfold stage_total.
  destruct (current_stage (cstate c)) eqn:Hst.
  - destruct Hstage as (_ & _ & Hs & Hp & _).
    rewrite decide_False by (by intros [?|?]).
    split; [lia|]. split; [intros _; f_equal; lia|].
    intros Hn. by destruct (Hend Hn) as (? & _).
  - destruct Hstage as (_ & Hs & _).
    rewrite decide_False by (by intros [?|?]).
    split; [lia|]. split; [done|].
    intros Hn. by destruct (Hend Hn) as (? & _).
  - destruct Hstage as (_ & Hs & Hp & _).
    rewrite decide_True by (by left).
    split; [lia|]. split; [intros _; f_equal; lia|].
    intros Hn. by destruct (Hend Hn) as (? & _).
  - destruct Hstage as (_ & Hs & Hp & _).
    rewrite decide_True by (by right).
    split; [lia|]. split; [intros _; f_equal; lia|].
    intros Hn. destruct (Hend Hn) as (_ & Hpn & _). lia.
Qed.

Lemma progress_panel_counts_the_spoken_turns_witness :
  stage_progress (cstate (debate_after 6)) = 2
  ∧ exists metrics,
      display_debate_progress (current_stage (cstate (debate_after 6)))
        (stage_progress (cstate (debate_after 6))) three_agents 2
      = Ok metrics
      ∧ (metric_overall metrics).2 = 3 * (3 + 2).
Proof.
  split; [vm_compute; reflexivity|].
  destruct (progress_panel_counts_the_spoken_turns env_steady
              three_agents 2 "AI" true 3 (debate_after 6))
    as (metrics & Hm & Hd & _).
  - split; [reflexivity|lia].
  - apply after_reachable, reach_start.
  - exists metrics. split; [exact Hm|exact Hd].
Defined.

(** ** X16: what the page shows of a run *)

(** X16. After the loop of [generate_response] has read the stream of a
    run up to a configuration, its variables [current_stage] and
    [stage_progress] are the stage and the progress of the state; the
    messages on the screen are, in order, the messages of the transcript
    that hold none of the four markers, so that no announcement of a
    transition is shown as a message and a participant's message that
    holds a marker is not shown either; and [message_count] is the number
    of messages on the screen. *)
Theorem page_shows_the_transcript_without_markers (E : Env)
    (agents : list string) (rounds : nat) (topic : string)
    (enable_rag : bool) (max_refs : nat) (c : Config) :
  valid_config agents rounds ->
  reachable E agents (inputs topic rounds agents enable_rag max_refs) c ->
  let p := show_stream agents rounds (trace c) in
  page_stage p = current_stage (cstate c)
  ∧ page_progress p = stage_progress (cstate c)
  ∧ displayed p = filter (fun m => marker m = false) (messages (cstate c))
  ∧ message_count p = length (displayed p)
  ∧ message_count p ≤ count is_spoken (trace c).
Proof.
  intros Hvalid Hreach. cbv zeta.
  destruct (reachable_page E _ _ _ _ _ _ Hvalid Hreach)
    as (Hs & Hp & Hd & Hc & _).
  repeat split; try done.
  rewrite Hc, Hd.
  destruct (reachable_stream E _ _ _ _ _ _ Hvalid Hreach) as [Hmsgs Hevs].
  rewrite Hmsgs. clear -Hevs.
  induction (trace c) as [|ev tr IH] using rev_ind; [done|].
  rewrite Forall_app, Forall_singleton in Hevs. destruct Hevs as [Htr Hev].
  rewrite streamed_snoc, filter_app, length_app, count_snoc.
  specialize (IH Htr). unfold event_ok in Hev.
  destruct ev as [nd s u]. simpl in *. destruct nd as [a|t|]; [| |done].
  - destruct Hev as [[_ ->]|(Hsp & msg & Hm & _)]; [simpl; lia|].
    rewrite Hsp, Hm. rewrite filter_cons, filter_nil.
    case_decide; simpl; lia.
  - destruct Hev as [Ht ->]. simpl. rewrite filter_cons, filter_nil.
    rewrite decide_False by (by rewrite (transition_marker t Ht)).
    simpl. lia.
Qed.

Lemma page_shows_the_transcript_without_markers_witness :
  message_count (show_stream three_agents 2 (trace (debate_after 5))) = 4
  ∧ page_stage (show_stream three_agents 2 (trace (debate_after 5)))
    = current_stage (cstate (debate_after 5))
  ∧ page_progress (show_stream three_agents 2 (trace (debate_after 5)))
    = stage_progress (cstate (debate_after 5))
  ∧ displayed (show_stream three_agents 2 (trace (debate_after 5)))
    = filter (fun m => marker m = false)
             (messages (cstate (debate_after 5))).
Proof.
  split; [vm_compute; reflexivity|].
  destruct (page_shows_the_transcript_without_markers env_steady
              three_agents 2 "AI" true 3 (debate_after 5))
    as (Hs & Hp & Hd & _).
  - split; [reflexivity|lia].
  - apply after_reachable, reach_start.
  - split; [exact Hs|]. split; [exact Hp|exact Hd].
Defined.

(** ** X17: what the page shows of a message *)

(** X17. Every message the page shows of a run is shown under the
    participant whose node returned it and begins with that participant's
    name; its type is the one [parse_stage_and_message_type] reads off the
    stage and the text; and it carries a round number in free debate
    only, which is between [1] and [max_rounds]. The page computes the
    round from the progress after the turn; it is the round the scheduler
    and the generator compute from the progress before it. *)
Theorem shown_message_has_its_speaker_and_round (E : Env)
    (agents : list string) (rounds : nat) (topic : string)
    (enable_rag : bool) (max_refs : nat) (c : Config) :
  valid_config agents rounds ->
  reachable E agents (inputs topic rounds agents enable_rag max_refs) c ->
  (forall a msg s round_num message_type,
     Message a msg s round_num message_type
     ∈ shown (show_stream agents rounds (trace c)) ->
     a ∈ agents ∧ named a msg ∧ marker msg = false
     ∧ message_type = parse_stage_and_message_type s msg None
     ∧ (s = free_debate ->
        exists r, round_num = Some r ∧ (1 ≤ r ≤ Z.of_nat rounds)%Z)
     ∧ (s ≠ free_debate -> round_num = None))
  ∧ forall stage_progress,
      round_of (stage_progress + 1) agents
      = Z.of_nat (stage_progress / length agents + 1).
Proof.
  intros Hvalid Hreach.
  destruct (valid_config_facts _ _ Hvalid) as (_ & _ & Hlen & _).
  destruct (reachable_page E _ _ _ _ _ _ Hvalid Hreach)
    as (_ & _ & _ & _ & Hitems).
  split.
  - intros a msg s round_num message_type Hin.
    rewrite Forall_forall in Hitems. specialize (Hitems _ Hin).
    simpl in Hitems. destruct Hitems as (Ha & Hn & Hm & Ht & Hr).
    repeat split; try done.
    + intros Hs. by rewrite decide_True in Hr.
    + intros Hs. by rewrite decide_False in Hr.
  - intros p. apply round_of_next. intros ->. simpl in Hlen. lia.
Qed.

Lemma shown_message_has_its_speaker_and_round_witness :
  page_stage (show_stream three_agents 2 (trace (debate_after 12)))
  = free_debate
  ∧ forall a msg s round_num message_type,
      Message a msg s round_num message_type
      ∈ shown (show_stream three_agents 2 (trace (debate_after 12))) ->
      s = free_debate ->
      exists r, round_num = Some r ∧ (1 ≤ r ≤ 2)%Z.
Proof.
  split; [vm_compute; reflexivity|].
  intros a msg s round_num message_type Hin Hs.
  destruct (shown_message_has_its_speaker_and_round env_steady
              three_agents 2 "AI" true 3 (debate_after 12)) as [Hitems _].
  - split; [reflexivity|lia].
  - apply after_reachable, reach_start.
  - destruct (Hitems _ _ _ _ _ Hin) as (_ & _ & _ & _ & Hr & _).
    exact (Hr Hs).
Defined.

(** ** X18: what the preload fetches *)


(** ** X19: from the sidebar to the end of the debate *)

(** X19. Whatever boxes are checked, the participants the sidebar selects
    are different roles of the registry, in its order, and no more than
    six; so whenever the start button is enabled the graph builder accepts
    them. The debate that then starts with steady collaborators and a
    number of rounds the slider allows, from 2 to 8, reaches [END] within
    the recursion limit of 500 that [generate_response] passes, after at
    most 75 supersteps, and has spoken exactly the number of messages the
    page announces. *)
Theorem page_debate_delivers_what_it_announces (E : Env)
    (checked : string -> bool) (topic_text : string) (max_rounds : nat)
    (enable_rag : bool) (max_refs : nat) :
  let selected := selected_agents checked in
  (NoDup selected ∧ Forall known_agent selected ∧ length selected ≤ 6)
  ∧ (can_start selected topic_text = true ->
     create_multi_agent_graph selected = Ok selected)
  ∧ (can_start selected topic_text = true -> 2 ≤ max_rounds ≤ 8 ->
     steady E ->
     exists c,
       run E selected 500
           (start selected
                  (inputs topic_text max_rounds selected enable_rag max_refs))
       = Finished c
       ∧ length (trace c) ≤ 75
       ∧ count is_spoken (trace c) = announced_messages selected max_rounds).
Proof.
  cbv zeta.
  pose proof (selected_agents_facts checked) as (Hnd & Hknown & Hle).
  split; [done|].
  assert (Hgraph : can_start (selected_agents checked) topic_text = true ->
                   create_multi_agent_graph (selected_agents checked)
                   = Ok (selected_agents checked)).
  { intros Hstart. unfold can_start in Hstart.
    apply andb_true_iff in Hstart as [Hstart _].
    apply andb_true_iff in Hstart as [H3 H6].
    apply bool_decide_eq_true in H3, H6.
    apply create_graph_Ok. repeat split; done. }
  split; [done|].
  intros Hstart [Hr2 Hr8] Hsteady.
  assert (Hvalid : valid_config (selected_agents checked) max_rounds).
  { split; [by apply Hgraph|lia]. }
  destruct (valid_config_facts _ _ Hvalid) as (_ & _ & Hlen & _).
  destruct (run_steady E Hsteady (selected_agents checked) max_rounds
              topic_text enable_rag max_refs 500
              (start (selected_agents checked)
                 (inputs topic_text max_rounds (selected_agents checked)
                         enable_rag max_refs)))
    as (c & Hrun & Htrace); try done.
  - apply reach_start.
  - intros w. destruct (selected_agents checked) as [|a agents];
      [simpl in Hlen; lia|].
    unfold determine_next_node, start, inputs. cbn.
    destruct (decide (0 < S (length agents))); [done|lia].
  - unfold remaining. simpl. nia.
  - exists c. split; [done|].
    destruct (finished_counts E _ _ _ _ _ _ _ Hvalid Hrun)
      as (_ & _ & _ & _ & Hs & Ht).
    pose proof (count_spoken_transition (trace c)) as Hle'.
    unfold remaining in Htrace. simpl in Htrace.
    unfold announced_messages. split; nia.
Qed.

Lemma page_debate_delivers_what_it_announces_witness :
  exists c,
    run env_steady three_agents 500
        (start three_agents (inputs "AI" 2 three_agents true 3))
    = Finished c
    ∧ length (trace c) ≤ 75
    ∧ count is_spoken (trace c) = announced_messages three_agents 2.
Proof.
  destruct (page_debate_delivers_what_it_announces env_steady
              (fun agent_key => bool_decide (agent_key ∈ three_agents))
              "AI" 2 true 3) as (_ & _ & Hrun).
  apply Hrun.
  - vm_compute. reflexivity.
  - lia.
  - split; [split; [reflexivity|intros i; reflexivity]|].
    intros i. reflexivity.
Defined.
